(** * Mono2D: a shallow embedding of the monogenic filter-bank layer

    The development follows [src/mono2D.py].  Python scalars that enter the
    layer as configuration (sizes, cut-off, wavelengths, ...) are exact
    rationals; tensor elements are IEEE-style values ([float] below) whose
    finite part is a real number, so that division by zero, the logarithm of
    zero and their propagation are visible.  Rounding, overflow, underflow
    and the sign of zero are not part of the model.

    Tensors carry their shape and an indexing function; the torch operations
    the layer calls (broadcasting, [sum], [stack], [amin]/[amax], item
    assignment, [fft2], [meshgrid], [ifftshift], [arange]) are written out
    with the error they raise on ill-shaped arguments. *)

From Stdlib Require Import String.
From Stdlib Require Import Reals Lra Lia List ZArith QArith Qround Qreals Bool.
Import ListNotations.

Set Implicit Arguments.

(** ** Python results *)

Inductive exn : Type :=
| AssertionError
| TypeError
| UnboundLocalError
| IndexError
| ValueError
| RuntimeError.

Inductive result (A : Type) : Type :=
| Ok (a : A)
| Raise (e : exn).

Arguments Ok {A} a.
Arguments Raise {A} e.

Definition bind {A B : Type} (m : result A) (k : A -> result B) : result B :=
  match m with
  | Ok a => k a
  | Raise e => Raise e
  end.

Notation "x <- m ;; k" := (bind m (fun x => k))
  (at level 61, m at next level, right associativity).
Notation "' p <- m ;; k" := (bind m (fun x => let p := x in k))
  (at level 61, p pattern, m at next level, right associativity).

Definition raises {A : Type} (m : result A) : bool :=
  match m with
  | Ok _ => false
  | Raise _ => true
  end.

(** ** Tensor elements *)

Inductive float : Type :=
| Fin (r : R)
| PInf
| NInf
| NaN.

Definition of_Q (q : Q) : float := Fin (Q2R q).
Definition of_Z (z : Z) : float := Fin (IZR z).

Definition is_finite (x : float) : Prop :=
  match x with
  | Fin _ => True
  | _ => False
  end.

Definition inf_of_sign (r : R) : float :=
  if Rlt_dec 0 r then PInf else NInf.

Definition fneg (x : float) : float :=
  match x with
  | Fin a => Fin (- a)
  | PInf => NInf
  | NInf => PInf
  | NaN => NaN
  end.

Definition fadd (x y : float) : float :=
  match x, y with
  | NaN, _ | _, NaN => NaN
  | Fin a, Fin b => Fin (a + b)
  | PInf, NInf | NInf, PInf => NaN
  | PInf, _ | _, PInf => PInf
  | NInf, _ | _, NInf => NInf
  end.

Definition fsub (x y : float) : float := fadd x (fneg y).

Definition fmul (x y : float) : float :=
  match x, y with
  | NaN, _ | _, NaN => NaN
  | Fin a, Fin b => Fin (a * b)
  | Fin a, PInf | PInf, Fin a =>
      if Req_dec_T a 0 then NaN else inf_of_sign a
  | Fin a, NInf | NInf, Fin a =>
      if Req_dec_T a 0 then NaN else inf_of_sign (- a)
  | PInf, PInf | NInf, NInf => PInf
  | PInf, NInf | NInf, PInf => NInf
  end.

(** Division: zero over zero is NaN, a non-zero finite value over zero is the
    infinity of the numerator's sign (the divisor read as +0.0). *)
Definition fdiv (x y : float) : float :=
  match x, y with
  | NaN, _ | _, NaN => NaN
  | Fin a, Fin b =>
      if Req_dec_T b 0
      then (if Req_dec_T a 0 then NaN else inf_of_sign a)
      else Fin (a / b)
  | Fin _, PInf | Fin _, NInf => Fin 0
  | PInf, Fin b => if Rle_dec 0 b then PInf else NInf
  | NInf, Fin b => if Rle_dec 0 b then NInf else PInf
  | _, _ => NaN
  end.

Definition fabs (x : float) : float :=
  match x with
  | Fin a => Fin (Rabs a)
  | PInf | NInf => PInf
  | NaN => NaN
  end.

Definition fsqrt (x : float) : float :=
  match x with
  | Fin a => if Rlt_dec a 0 then NaN else Fin (sqrt a)
  | PInf => PInf
  | NInf | NaN => NaN
  end.

Definition fexp (x : float) : float :=
  match x with
  | Fin a => Fin (exp a)
  | PInf => PInf
  | NInf => Fin 0
  | NaN => NaN
  end.

Definition flog (x : float) : float :=
  match x with
  | Fin a =>
      if Rlt_dec a 0 then NaN
      else if Req_dec_T a 0 then NInf
      else Fin (ln a)
  | PInf => PInf
  | NInf | NaN => NaN
  end.

(** [x ** k] for a non-negative integer exponent. *)
Fixpoint fpow (x : float) (k : nat) : float :=
  match k with
  | O => Fin 1
  | S k' => fmul x (fpow x k')
  end.

Definition fatan (x : float) : float :=
  match x with
  | Fin a => Fin (atan a)
  | PInf => Fin (PI / 2)
  | NInf => Fin (- (PI / 2))
  | NaN => NaN
  end.

(** Four-quadrant arctangent on finite reals. *)
Definition Ratan2 (y x : R) : R :=
  if Rlt_dec 0 x then atan (y / x)
  else if Rlt_dec x 0
       then (if Rle_dec 0 y then atan (y / x) + PI else atan (y / x) - PI)
       else (if Rlt_dec 0 y then PI / 2
             else if Rlt_dec y 0 then - (PI / 2) else 0).

Definition fatan2 (y x : float) : float :=
  match y, x with
  | NaN, _ | _, NaN => NaN
  | Fin a, Fin b => Fin (Ratan2 a b)
  | Fin a, PInf => Fin 0
  | Fin a, NInf => if Rle_dec 0 a then Fin PI else Fin (- PI)
  | PInf, Fin _ => Fin (PI / 2)
  | NInf, Fin _ => Fin (- (PI / 2))
  | PInf, PInf => Fin (PI / 4)
  | PInf, NInf => Fin (3 * PI / 4)
  | NInf, PInf => Fin (- (PI / 4))
  | NInf, NInf => Fin (- (3 * PI / 4))
  end.

(** [torch.clamp(x, min=m)]: NaN stays NaN. *)
Definition fclamp_min (m : R) (x : float) : float :=
  match x with
  | Fin a => Fin (Rmax a m)
  | PInf => PInf
  | NInf => Fin m
  | NaN => NaN
  end.

(** Minimum and maximum as [amin]/[amax] take them: NaN propagates. *)
Definition fmin (x y : float) : float :=
  match x, y with
  | NaN, _ | _, NaN => NaN
  | NInf, _ | _, NInf => NInf
  | PInf, z | z, PInf => z
  | Fin a, Fin b => if Rle_dec a b then Fin a else Fin b
  end.

Definition fmax (x y : float) : float :=
  match x, y with
  | NaN, _ | _, NaN => NaN
  | PInf, _ | _, PInf => PInf
  | NInf, z | z, NInf => z
  | Fin a, Fin b => if Rle_dec a b then Fin b else Fin a
  end.

(** [torch.nn.functional.sigmoid]. *)
Definition sigmoid (x : float) : float :=
  fdiv (Fin 1) (fadd (Fin 1) (fexp (fneg x))).

(** ** Complex elements *)

Definition complex : Type := (float * float)%type.

Definition creal (z : complex) : float := fst z.
Definition cimag (z : complex) : float := snd z.
Definition of_real (x : float) : complex := (x, Fin 0).

Definition cadd (z w : complex) : complex :=
  (fadd (fst z) (fst w), fadd (snd z) (snd w)).

Definition csub (z w : complex) : complex :=
  (fsub (fst z) (fst w), fsub (snd z) (snd w)).

Definition cmul (z w : complex) : complex :=
  (fsub (fmul (fst z) (fst w)) (fmul (snd z) (snd w)),
   fadd (fmul (fst z) (snd w)) (fmul (snd z) (fst w))).

Definition cdiv (z w : complex) : complex :=
  let d := fadd (fmul (fst w) (fst w)) (fmul (snd w) (snd w)) in
  (fdiv (fadd (fmul (fst z) (fst w)) (fmul (snd z) (snd w))) d,
   fdiv (fsub (fmul (snd z) (fst w)) (fmul (fst z) (snd w))) d).

(** The Python literal [1j]. *)
Definition imag_unit : complex := (Fin 0, Fin 1).

Definition cis (theta : R) : complex := (Fin (cos theta), Fin (sin theta)).

(** ** Tensors *)

Record tensor (A : Type) : Type := mkT {
  shape : list nat;
  item : list nat -> A
}.

(** An index addresses an element when it has one coordinate per dimension,
    each below the dimension's size. *)
Definition in_range (idx s : list nat) : Prop := Forall2 lt idx s.

Definition tmap {A B : Type} (f : A -> B) (t : tensor A) : tensor B :=
  mkT (shape t) (fun idx => f (item t idx)).

(** *** Broadcasting *)

Definition bdim (x y : nat) : option nat :=
  if (x =? y)%nat then Some x
  else if (x =? 1)%nat then Some y
  else if (y =? 1)%nat then Some x
  else None.

(** Shapes are aligned at their last dimension; the arguments are reversed. *)
Fixpoint bshape_rev (a b : list nat) : option (list nat) :=
  match a, b with
  | [], _ => Some b
  | _, [] => Some a
  | x :: a', y :: b' =>
      match bdim x y, bshape_rev a' b' with
      | Some d, Some r => Some (d :: r)
      | _, _ => None
      end
  end.

Definition broadcast_shapes (a b : list nat) : option (list nat) :=
  option_map (@rev nat) (bshape_rev (rev a) (rev b)).

(** The element of an operand of shape [s] that an index of the broadcast
    result reads: leading coordinates are dropped, size-one dimensions are
    read at 0. *)
Definition bindex (s idx : list nat) : list nat :=
  map (fun di => if (fst di =? 1)%nat then 0%nat else snd di)
      (combine s (skipn (length idx - length s) idx)).

Definition tmap2 {A B C : Type} (f : A -> B -> C)
  (a : tensor A) (b : tensor B) : result (tensor C) :=
  match broadcast_shapes (shape a) (shape b) with
  | Some s =>
      Ok (mkT s (fun idx =>
            f (item a (bindex (shape a) idx)) (item b (bindex (shape b) idx))))
  | None => Raise RuntimeError
  end.

(** *** Reductions, stacking, assignment *)

Definition insert_at {A : Type} (k : nat) (x : A) (l : list A) : list A :=
  firstn k l ++ x :: skipn k l.

Definition remove_at {A : Type} (k : nat) (l : list A) : list A :=
  firstn k l ++ skipn (S k) l.

Definition fsum_upto (n : nat) (f : nat -> float) : float :=
  fold_left (fun acc k => fadd acc (f k)) (seq 0 n) (Fin 0).

(** [torch.sum(t, dim=d)]. *)
Definition sum_dim (d : nat) (t : tensor float) : result (tensor float) :=
  if (d <? length (shape t))%nat
  then Ok (mkT (remove_at d (shape t))
             (fun idx =>
                fsum_upto (nth d (shape t) 0%nat)
                  (fun k => item t (insert_at d k idx))))
  else Raise IndexError.

Definition shape_eqb (a b : list nat) : bool :=
  if list_eq_dec Nat.eq_dec a b then true else false.

(** [torch.stack(ts, dim=d)]: the list must be non-empty and its tensors of
    one shape. *)
Definition stack {A : Type} (ts : list (tensor A)) (d : nat)
  : result (tensor A) :=
  match ts with
  | [] => Raise RuntimeError
  | t0 :: rest =>
      if forallb (fun t => shape_eqb (shape t) (shape t0)) rest
      then
        if (d <=? length (shape t0))%nat
        then Ok (mkT (insert_at d (length ts) (shape t0))
                   (fun idx =>
                      item (nth (nth d idx 0%nat) ts t0) (remove_at d idx)))
        else Raise IndexError
      else Raise RuntimeError
  end.

(** The cells of an [h] by [w] spatial extent, row by row. *)
Definition cells (h w : nat) : list (nat * nat) :=
  list_prod (seq 0 h) (seq 0 w).

(** [torch.amin]/[torch.amax] over [dim=(-2, -1)] with [keepdim=True]. *)
Definition reduce_hw (op : float -> float -> float) (t : tensor float)
  : result (tensor float) :=
  let r := length (shape t) in
  if (r <? 2)%nat then Raise IndexError
  else
    let h := nth (r - 2) (shape t) 0%nat in
    let w := nth (r - 1) (shape t) 0%nat in
    match cells h w with
    | [] => Raise IndexError
    | c0 :: cs =>
        Ok (mkT (firstn (r - 2) (shape t) ++ [1; 1]%nat)
              (fun idx =>
                 let pre := firstn (r - 2) idx in
                 fold_left
                   (fun acc c => op acc (item t (pre ++ [fst c; snd c])))
                   cs (item t (pre ++ [fst c0; snd c0]))))
    end.

Definition amin_hw : tensor float -> result (tensor float) := reduce_hw fmin.
Definition amax_hw : tensor float -> result (tensor float) := reduce_hw fmax.

(** [t[i, j] = v]: every element whose first two coordinates are [i], [j]
    becomes [v]. *)
Definition assigned {A : Type} (t : tensor A) (i j : nat) (v : A)
  : tensor A :=
  mkT (shape t)
      (fun idx =>
         match idx with
         | i' :: j' :: _ =>
             if ((i' =? i) && (j' =? j))%nat then v else item t idx
         | _ => item t idx
         end).

Definition setitem2 {A : Type} (t : tensor A) (i j : nat) (v : A)
  : result (tensor A) :=
  match shape t with
  | d0 :: d1 :: _ =>
      if ((i <? d0) && (j <? d1))%nat then Ok (assigned t i j v)
      else Raise IndexError
  | _ => Raise IndexError
  end.

(** [t.view(-1, 1, 1)] of a one-dimensional tensor. *)
Definition view_col (t : tensor float) : tensor float :=
  mkT [nth 0 (shape t) 0%nat; 1%nat; 1%nat]
      (fun idx => item t [nth 0 idx 0%nat]).

(** *** Grids *)

(** [torch.arange(start, stop)] with the default step 1. *)
Definition arange (start stop : Q) : tensor float :=
  mkT [Z.to_nat (Qceiling (stop - start))]
      (fun idx => of_Q (start + inject_Z (Z.of_nat (nth 0 idx 0%nat)))).

(** [torch.meshgrid(x, y, indexing='xy')]. *)
Definition meshgrid_xy {A : Type} (x y : tensor A) : tensor A * tensor A :=
  let s := [nth 0 (shape y) 0%nat; nth 0 (shape x) 0%nat] in
  (mkT s (fun idx => item x [nth 1 idx 0%nat]),
   mkT s (fun idx => item y [nth 0 idx 0%nat])).

(** [torch.fft.ifftshift] over every dimension: a roll by [-(n // 2)]. *)
Definition ifftshift {A : Type} (t : tensor A) : tensor A :=
  mkT (shape t)
      (fun idx =>
         item t (map (fun inn => ((fst inn + snd inn / 2) mod snd inn)%nat)
                     (combine idx (shape t)))).

(** *** Discrete Fourier transforms over the last two dimensions *)

Definition csum_upto (n : nat) (f : nat -> complex) : complex :=
  fold_left (fun acc k => cadd acc (f k)) (seq 0 n) (Fin 0, Fin 0).

Definition dft2 (sgn : R) (t : tensor complex) : result (tensor complex) :=
  let r := length (shape t) in
  if (r <? 2)%nat then Raise RuntimeError
  else
    let h := nth (r - 2) (shape t) 0%nat in
    let w := nth (r - 1) (shape t) 0%nat in
    if ((h =? 0) || (w =? 0))%nat then Raise RuntimeError
    else
      Ok (mkT (shape t)
            (fun idx =>
               let pre := firstn (r - 2) idx in
               let k := nth (r - 2) idx 0%nat in
               let l := nth (r - 1) idx 0%nat in
               csum_upto h (fun m =>
                 csum_upto w (fun n =>
                   cmul (item t (pre ++ [m; n]))
                        (cis (sgn * 2 * PI *
                              (INR k * INR m / INR h
                               + INR l * INR n / INR w))))))).

(** [torch.fft.fft2]. *)
Definition fft2 (t : tensor complex) : result (tensor complex) :=
  dft2 (-1) t.

(** [torch.fft.ifft2]: the inverse transform divides by the number of
    cells. *)
Definition ifft2 (t : tensor complex) : result (tensor complex) :=
  let r := length (shape t) in
  let cnt := (nth (r - 2) (shape t) 0 * nth (r - 1) (shape t) 0)%nat in
  s <- dft2 1 t ;;
  Ok (tmap (cmul (of_real (Fin (1 / INR cnt)))) s).

(** ** The layer *)

Definition Qlt_bool (a b : Q) : bool := negb (Qle_bool b a).

(** Python's [q % 1]. *)
Definition Qmod1 (q : Q) : Q := q - inject_Z (Qfloor q).

(** A one-dimensional tensor from a Python sequence. *)
Definition of_list (l : list float) : tensor float :=
  mkT [length l] (fun idx => nth (nth 0 idx 0%nat) l NaN).

(** A zero-dimensional tensor, [torch.tensor(v)]. *)
Definition scalar (v : float) : tensor float := mkT [] (fun _ => v).

(** [torch.randn(n)], reading its samples from a stream of draws. *)
Definition randn (draws : nat -> R) (n : nat) : tensor float :=
  mkT [n] (fun idx => Fin (draws (nth 0 idx 0%nat))).

Record Mono2D : Type := mkMono2D {
  return_phase : bool;
  return_phase_asym : bool;
  return_input : bool;
  return_ori : bool;
  trainable : bool;
  nscale : Z;
  min_wl : Q;
  max_wl : Q;
  wls : tensor float;
  sigmaonf : tensor float;
  cut_off : Q;
  g : Q;
  T : Q;
  episilon : Q
}.

Definition initialize_sigmaonf (draws : nat -> R) (sigmaonf : option Q)
  : result (tensor float) :=
  match sigmaonf with
  | None => Ok (tmap (fun v => fmul v (of_Q 0.05)) (randn draws 1))
  | Some s =>
      if Qlt_bool 0 s && Qlt_bool s 1
      then Ok (tmap (fun v => flog (fdiv v (fsub (Fin 1) v)))
                 (scalar (of_Q s)))
      else Raise AssertionError
  end.

Definition initialize_wls (draws : nat -> R) (nscale : Z) (min_wl max_wl : Q)
  (wls : option (list Q)) : result (tensor float) :=
  match wls with
  | None => Ok (randn draws (Z.to_nat nscale))
  | Some ws =>
      if forallb (fun w => Qlt_bool 0 w) ws
      then
        let scaled :=
          of_list (map (fun w => fdiv (fsub (of_Q w) (of_Q min_wl))
                                      (of_Q (max_wl - min_wl))) ws) in
        Ok (tmap (fun v => flog (fdiv v (fsub (Fin 1) v))) scaled)
      else Raise AssertionError
  end.

(** The constructor.  [draws] is the stream [torch.randn] samples from: the
    wavelength codes take the first [nscale] draws, the bandwidth code the
    next one. *)
Definition __init__ (draws : nat -> R) (nscale : Z) (sigmaonf : option Q)
  (wls : option (list Q)) (trainable : option bool)
  (return_phase return_phase_asym return_ori return_input : bool)
  : result Mono2D :=
  let trainable := match trainable with None => true | Some b => b end in
  if negb (0 <? nscale)%Z then Raise AssertionError
  else
    let min_wl := 3%Q in
    let max_wl := 128%Q in
    w <- initialize_wls draws nscale min_wl max_wl wls ;;
    s <- initialize_sigmaonf (fun i => draws (Z.to_nat nscale + i)%nat)
           sigmaonf ;;
    Ok {| return_phase := return_phase;
          return_phase_asym := return_phase_asym;
          return_input := return_input;
          return_ori := return_ori;
          trainable := trainable;
          nscale := nscale;
          min_wl := min_wl;
          max_wl := max_wl;
          wls := w;
          sigmaonf := s;
          cut_off := 0.4%Q;
          g := 10%Q;
          T := 0%Q;
          episilon := 0.0001%Q |}.

Definition rescale_wls (self : Mono2D) (w : tensor float) : tensor float :=
  tmap (fun v => fadd (of_Q (min_wl self))
                      (fmul v (of_Q (max_wl self - min_wl self)))) w.

Definition get_wls (self : Mono2D) : tensor float :=
  rescale_wls self (tmap sigmoid (wls self)).

Definition get_sigmaonf (self : Mono2D) : tensor float :=
  tmap sigmoid (sigmaonf self).

Definition mesh_range (size : nat * nat)
  : tensor float * tensor float * tensor float :=
  let '(rows, cols) := size in
  let c := Z.of_nat cols in
  let r := Z.of_nat rows in
  let xrange :=
    if negb (cols mod 2 =? 0)%nat
    then tmap (fun v => fdiv v (of_Z (c - 1)))
              (arange (- (c - 1) # 2) (c # 2))
    else tmap (fun v => fdiv v (of_Z c)) (arange (- c # 2) (c # 2)) in
  let yrange :=
    if negb (rows mod 2 =? 0)%nat
    then tmap (fun v => fdiv v (of_Z (r - 1)))
              (arange (- (r - 1) # 2) (r # 2))
    else tmap (fun v => fdiv v (of_Z r)) (arange (- r # 2) (r # 2)) in
  let '(u1, u2) := meshgrid_xy xrange yrange in
  let u1 := ifftshift u1 in
  let u2 := ifftshift u2 in
  let radius :=
    tmap fsqrt
      (mkT (shape u1)
         (fun idx => fadd (fpow (item u1 idx) 2) (fpow (item u2 idx) 2))) in
  (u1, u2, radius).

(** [raise('...')] of a string is itself a [TypeError].  Past the second
    guard [n] is an integer, so [2*n] is the integer exponent of [**]. *)
Definition lowpassfilter (sze : list nat) (cutoff n : Q)
  : result (tensor float) :=
  if Qlt_bool cutoff 0 || Qlt_bool (1 # 2) cutoff then Raise TypeError
  else if negb (Qeq_bool (Qmod1 n) 0) || Qlt_bool n 1 then Raise TypeError
  else
    rc <- (if (length sze =? 1)%nat
           then Raise UnboundLocalError
           else match sze with
                | rows :: cols :: _ => Ok (rows, cols)
                | _ => Raise IndexError
                end) ;;
    let '(_, _, radius) := mesh_range rc in
    Ok (tmap (fun v =>
                fdiv (Fin 1)
                  (fadd (Fin 1)
                     (fpow (fdiv v (of_Q cutoff))
                        (Z.to_nat (Qfloor (2 * n))))))
          radius).

Definition compute_logGabor (self : Mono2D) (radius : tensor float)
  : result (tensor float) :=
  let wls := get_wls self in
  let fo := tmap (fun v => fdiv (Fin 1) v) wls in
  let fo := view_col fo in
  let sigmaonf := tmap sigmoid (sigmaonf self) in
  q <- tmap2 fdiv radius fo ;;
  filter <- tmap2 fdiv
              (tmap (fun v => fneg (fpow (flog v) 2)) q)
              (tmap (fun s => fmul (Fin 2) (fpow (flog s) 2)) sigmaonf) ;;
  Ok (tmap fexp filter).

Definition get_filters (self : Mono2D) (rows cols : nat)
  : result (tensor complex * tensor float) :=
  let '(u1, u2, radius) := mesh_range (rows, cols) in
  radius <- setitem2 radius 0 0 (Fin 1) ;;
  num <- tmap2 csub (tmap (fun v => cmul imag_unit (of_real v)) u1)
           (tmap of_real u2) ;;
  H <- tmap2 cdiv num (tmap of_real radius) ;;
  lp <- lowpassfilter [rows; cols] (cut_off self) (g self) ;;
  lgf <- compute_logGabor self radius ;;
  lgf <- tmap2 fmul lgf lp ;;
  lgf <- setitem2 lgf 0 0 (Fin 0) ;;
  Ok (H, lgf).

Definition scale_max_min (x : tensor float) : result (tensor float) :=
  x_min <- amin_hw x ;;
  x_max <- amax_hw x ;;
  num <- tmap2 fsub x x_min ;;
  den <- tmap2 fsub x_max x_min ;;
  tmap2 fdiv num den.

(** *** The forward pass

    [forward] is split at the comments of the source: the per-scale
    monogenic responses (source lines 82-104), their sum over dimension 1
    (107-112), the three feature maps (115-123) and the output assembly
    (125-135). *)

Record responses : Type := mkResponses {
  r_f : tensor float;
  r_h1 : tensor float;
  r_h2 : tensor float;
  r_h_Amp2 : tensor float;
  r_An : tensor float;
  r_symmetry_energy : tensor float
}.

Definition sq (v : float) : float := fpow v 2.

Definition monogenic (self : Mono2D) (x : tensor float) : result responses :=
  '(rows, cols) <- match shape x with
                   | [_; _; rows; cols] => Ok (rows, cols)
                   | _ => Raise ValueError
                   end ;;
  IM <- fft2 (tmap of_real x) ;;
  '(H, lgf) <- get_filters self rows cols ;;
  IMF <- tmap2 cmul IM (tmap of_real lgf) ;;
  fc <- ifft2 IMF ;;
  let f := tmap creal fc in
  IMFH <- tmap2 cmul IMF H ;;
  h <- ifft2 IMFH ;;
  let h1 := tmap creal h in
  let h2 := tmap cimag h in
  h_Amp2 <- tmap2 fadd (tmap sq h1) (tmap sq h2) ;;
  e <- tmap2 fadd (tmap sq f) h_Amp2 ;;
  let An := tmap fsqrt e in
  symmetry_energy <- tmap2 fsub (tmap fsqrt h_Amp2) (tmap fabs f) ;;
  Ok (mkResponses f h1 h2 h_Amp2 An symmetry_energy).

Definition sum_scales (r : responses) : result responses :=
  f <- sum_dim 1 (r_f r) ;;
  h1 <- sum_dim 1 (r_h1 r) ;;
  h2 <- sum_dim 1 (r_h2 r) ;;
  h_Amp2 <- sum_dim 1 (r_h_Amp2 r) ;;
  An <- sum_dim 1 (r_An r) ;;
  symmetry_energy <- sum_dim 1 (r_symmetry_energy r) ;;
  Ok (mkResponses f h1 h2 h_Amp2 An symmetry_energy).

Definition phase_asym_of (self : Mono2D) (s : responses)
  : result (tensor float) :=
  tmap2 fdiv
    (tmap (fun v => fclamp_min 0 (fsub v (of_Q (T self))))
       (r_symmetry_energy s))
    (tmap (fun v => fadd v (of_Q (episilon self))) (r_An s)).

Definition orientation_of (s : responses) : result (tensor float) :=
  ori <- tmap2 fatan2 (tmap fneg (r_h2 s)) (r_h1 s) ;;
  scale_max_min ori.

Definition phase_of (s : responses) : result (tensor float) :=
  e <- tmap2 fadd (tmap sq (r_h1 s)) (tmap sq (r_h2 s)) ;;
  q <- tmap2 fdiv (r_f s) (tmap fsqrt e) ;;
  scale_max_min (tmap fatan q).

(** The list [out] of the source, before stacking. *)
Definition selected (self : Mono2D) (x ft ori phase_asym : tensor float)
  : list (tensor float) :=
  (if return_input self then [x] else [])
  ++ (if return_phase self then [ft] else [])
  ++ (if return_ori self then [ori] else [])
  ++ (if return_phase_asym self then [phase_asym] else []).

Definition forward (self : Mono2D) (x : tensor float)
  : result (tensor float) :=
  r <- monogenic self x ;;
  s <- sum_scales r ;;
  phase_asym <- phase_asym_of self s ;;
  ori <- orientation_of s ;;
  ft <- phase_of s ;;
  stack (selected self x ft ori phase_asym) 1.

(** *** The parameter report

    [get_params] returns a dict; Python keeps its keys in insertion order,
    so the report is the list of its items.  The values are Python
    objects: the integer [nscale.item()], configured numbers, flags, the
    tensor element [get_sigmaonf().item()] and the list
    [get_wls().tolist()]. *)

Inductive pyval : Type :=
| PyInt (z : Z)
| PyNum (q : Q)
| PyBool (b : bool)
| PyFloat (v : float)
| PyList (l : list float).

Definition numel (s : list nat) : nat := fold_right Nat.mul 1%nat s.

(** [t.item()]: only a tensor of exactly one element converts to a
    scalar. *)
Definition item_scalar (t : tensor float) : result float :=
  if (numel (shape t) =? 1)%nat
  then Ok (item t (repeat 0%nat (length (shape t))))
  else Raise RuntimeError.

(** [t.tolist()] of a one-dimensional tensor. *)
Definition tolist (t : tensor float) : list float :=
  map (fun i => item t [i]) (seq 0 (nth 0 (shape t) 0%nat)).

(** [self.wls.requires_grad] is the flag the parameter was created with,
    [self.trainable]. *)
Definition get_params (self : Mono2D) : result (list (string * pyval)) :=
  let wl := tolist (get_wls self) in
  s <- item_scalar (get_sigmaonf self) ;;
  Ok [("nscale"%string, PyInt (nscale self));
      ("self.max_wl"%string, PyNum (max_wl self));
      ("wls"%string, PyList wl);
      ("sigmaonf"%string, PyFloat s);
      ("trainable"%string, PyBool (trainable self));
      ("return_phase"%string, PyBool (return_phase self));
      ("return_phase_asym"%string, PyBool (return_phase_asym self));
      ("return_ori"%string, PyBool (return_ori self));
      ("return_input"%string, PyBool (return_input self));
      ("self.cut_off"%string, PyNum (cut_off self));
      ("self.g"%string, PyNum (g self));
      ("self.T"%string, PyNum (T self))].

(** ** Concrete layers and inputs used in examples *)

Definition no_draws : nat -> R := fun _ => 0%R.

(** The layer [Mono2D(nscale=len(ws), sigmaonf=b, wls=ws, return_phase=ph,
    return_phase_asym=pa, return_ori=ori, return_input=inp)] as the
    constructor builds it: no draw is taken. *)
Definition layer_of (ws : list Q) (b : Q) (ph pa ori inp : bool) : Mono2D :=
  {| return_phase := ph;
     return_phase_asym := pa;
     return_input := inp;
     return_ori := ori;
     trainable := true;
     nscale := Z.of_nat (length ws);
     min_wl := 3%Q;
     max_wl := 128%Q;
     wls :=
       tmap (fun v => flog (fdiv v (fsub (Fin 1) v)))
         (of_list (map (fun w => fdiv (fsub (of_Q w) (of_Q 3))
                                      (of_Q (128 - 3))) ws));
     sigmaonf :=
       tmap (fun v => flog (fdiv v (fsub (Fin 1) v))) (scalar (of_Q b));
     cut_off := 0.4%Q;
     g := 10%Q;
     T := 0%Q;
     episilon := 0.0001%Q |}.

(** [Mono2D(nscale=1, sigmaonf=0.55, wls=[10.])] and its siblings with two
    and three scales. *)
Definition one_scale_layer : Mono2D :=
  layer_of [10%Q] 0.55 true false false false.
Definition two_scale_layer : Mono2D :=
  layer_of [6%Q; 30%Q] 0.55 true false false false.
Definition three_scale_layer : Mono2D :=
  layer_of [6%Q; 30%Q; 60%Q] 0.55 true false false false.

(** One sample of one row with the two values 0 and 1. *)
Definition ramp : tensor float :=
  mkT [1; 1; 2]%nat (fun idx => Fin (INR (nth 2 idx 0%nat))).

(** A tensor of the given shape filled with one value. *)
Definition full (s : list nat) (v : float) : tensor float :=
  mkT s (fun _ => v).


(** The normalised coordinates along an axis of [n] samples, as
    [mesh_range] writes them for [cols] and again for [rows]. *)
Definition freq_axis (n : nat) : tensor float :=
  let c := Z.of_nat n in
  if negb (n mod 2 =? 0)%nat
  then tmap (fun v => fdiv v (of_Z (c - 1))) (arange (- (c - 1) # 2) (c # 2))
  else tmap (fun v => fdiv v (of_Z c)) (arange (- c # 2) (c # 2)).

Definition mesh_u1 (size : nat * nat) : tensor float :=
  fst (fst (mesh_range size)).
Definition mesh_u2 (size : nat * nat) : tensor float :=
  snd (fst (mesh_range size)).
Definition mesh_radius (size : nat * nat) : tensor float :=
  snd (mesh_range size).

(** The value [mesh_range] places at position [k] of an axis of [n >= 2]
    samples after the corner shift (see [freq_axis_item]). *)
Definition shifted (n k : nat) : R :=
  (INR ((k + n / 2) mod n) - INR (n / 2)) / (2 * INR (n / 2)).

(** The value of the log-Gabor mask of scale [s] at radius [r]; [sidx]
    addresses the bandwidth code. *)
Definition logGabor_value (self : Mono2D) (sidx : list nat) (s : nat)
  (r : float) : float :=
  fexp (fdiv
          (fneg (fpow (flog (fdiv r (fdiv (Fin 1) (item (get_wls self) [s]))))
                   2))
          (fmul (Fin 2)
             (fpow (flog (sigmoid (item (sigmaonf self) sidx))) 2))).

(** The value of the low-pass mask at radius [r]. *)
Definition lowpass_value (cutoff : Q) (e : nat) (r : float) : float :=
  fdiv (Fin 1) (fadd (Fin 1) (fpow (fdiv r (of_Q cutoff)) e)).

(** The radius grid [get_filters] works on, after [radius[0,0] = 1.]. *)
Definition patched_radius (size : nat * nat) : tensor float :=
  assigned (mesh_radius size) 0 0 (Fin 1).

(** The values over the spatial extent of the sample addressed by [pre],
    in the order [amin] and [amax] visit them, and their reduction. *)
Definition extent (x : tensor float) (pre : list nat) (h w : nat)
  : list float :=
  map (fun c => item x (pre ++ [fst c; snd c])) (cells h w).

Definition reduce (op : float -> float -> float) (vals : list float) : float :=
  fold_left op (tl vals) (hd NaN vals).

(** The real number a finite element carries. *)
Definition real_of (v : float) : R :=
  match v with
  | Fin r => r
  | _ => 0%R
  end.

(** The number of enabled output-selection flags. *)
Definition enabled_count (self : Mono2D) : nat :=
  Nat.b2n (return_input self) + Nat.b2n (return_phase self)
  + Nat.b2n (return_ori self) + Nat.b2n (return_phase_asym self).

(** The members of a flagged list whose flag is set, in the list's order. *)
Definition restrict {A : Type} (l : list (bool * A)) : list A :=
  map snd (filter fst l).

(** What construction establishes and the optimizer keeps: one wavelength
    code per scale for at least one scale, a bandwidth code of zero or one
    dimension, and the fixed constants. *)
Definition well_formed (self : Mono2D) : Prop :=
  (exists k, shape (wls self) = [k] /\ (1 <= k)%nat)
  /\ (shape (sigmaonf self) = [] \/ shape (sigmaonf self) = [1%nat])
  /\ min_wl self = 3%Q /\ max_wl self = 128%Q
  /\ cut_off self = 0.4%Q /\ g self = 10%Q
  /\ T self = 0%Q /\ episilon self = 0.0001%Q.

(** The number of scales the filter bank is built with. *)
Definition scales (self : Mono2D) : nat := nth 0 (shape (wls self)) 0%nat.

(** Finite elements at every index the shape admits. *)
Definition fin_on (t : tensor float) : Prop :=
  forall idx, in_range idx (shape t) -> is_finite (item t idx).

Definition cfinite (z : complex) : Prop :=
  is_finite (fst z) /\ is_finite (snd z).

Definition cfin_on (t : tensor complex) : Prop :=
  forall idx, in_range idx (shape t) -> cfinite (item t idx).

(** [v'] is the finite element [a * v], for elements and for complex
    elements. *)
Definition fscaled (a : R) (v v' : float) : Prop :=
  exists p, v = Fin p /\ v' = Fin (a * p).

Definition cscaled (a : R) (z z' : complex) : Prop :=
  fscaled a (fst z) (fst z') /\ fscaled a (snd z) (snd z').

(** Two tensors of one shape that hold the same elements in sample [b],
    that is at every index whose first coordinate is [b]. *)
Definition sample_eq {A : Type} (b : nat) (t t' : tensor A) : Prop :=
  shape t = shape t'
  /\ forall rest, in_range (b :: rest) (shape t) ->
       item t (b :: rest) = item t' (b :: rest).

(** Finite wavelength codes, one per scale, and a finite bandwidth code. *)
Definition finite_codes (self : Mono2D) : Prop :=
  (forall s, (s < scales self)%nat -> is_finite (item (wls self) [s]))
  /\ (forall idx, is_finite (item (sigmaonf self) idx)).

(** * Properties *)

Unset Implicit Arguments.
Local Open Scope R_scope.

(** ** Arithmetic on finite elements *)

Arguments fdiv : simpl never.
Arguments fsqrt : simpl never.
Arguments flog : simpl never.
Arguments sigmoid : simpl never.
Arguments fadd : simpl never.
Arguments fsub : simpl never.
Arguments fmul : simpl never.
Arguments fneg : simpl never.
Arguments fabs : simpl never.
Arguments fexp : simpl never.
Arguments fclamp_min : simpl never.

Lemma fadd_fin (a b : R) : fadd (Fin a) (Fin b) = Fin (a + b).
Proof. reflexivity. Qed.

Lemma fsub_fin (a b : R) : fsub (Fin a) (Fin b) = Fin (a - b).
Proof. reflexivity. Qed.

Lemma fmul_fin (a b : R) : fmul (Fin a) (Fin b) = Fin (a * b).
Proof. reflexivity. Qed.

Lemma fneg_fin (a : R) : fneg (Fin a) = Fin (- a).
Proof. reflexivity. Qed.

Lemma fabs_fin (a : R) : fabs (Fin a) = Fin (Rabs a).
Proof. reflexivity. Qed.

Lemma fexp_fin (a : R) : fexp (Fin a) = Fin (exp a).
Proof. reflexivity. Qed.

Lemma fclamp_min_fin (m a : R) : fclamp_min m (Fin a) = Fin (Rmax a m).
Proof. reflexivity. Qed.

Create Rewrite HintDb fin.
#[local] Hint Rewrite fadd_fin fsub_fin fmul_fin fneg_fin fabs_fin fexp_fin
  fclamp_min_fin : fin.

Lemma Q2R_3 : Q2R 3 = 3.
Proof. unfold Q2R; simpl; lra. Qed.

Lemma Q2R_125 : Q2R (128 - 3) = 125.
Proof. unfold Q2R; simpl; lra. Qed.

Lemma Q2R_0 : Q2R 0 = 0.
Proof. unfold Q2R; simpl; lra. Qed.

Lemma Q2R_1 : Q2R 1 = 1.
Proof. unfold Q2R; simpl; lra. Qed.

Lemma finite_inv (v : float) : is_finite v -> exists r, v = Fin r.
Proof. destruct v; simpl; try tauto; intros _; now eexists. Qed.

Lemma fdiv_fin (a b : R) : b <> 0 -> fdiv (Fin a) (Fin b) = Fin (a / b).
Proof.
  intros Hb; unfold fdiv.
  destruct (Req_dec_T b 0); [contradiction | reflexivity].
Qed.

Lemma fdiv_zero_zero : fdiv (Fin 0) (Fin 0) = NaN.
Proof.
  unfold fdiv.
  destruct (Req_dec_T 0 0) as [_ | H]; [reflexivity | now elim H].
Qed.

Lemma fsqrt_fin (a : R) : 0 <= a -> fsqrt (Fin a) = Fin (sqrt a).
Proof.
  intros Ha; unfold fsqrt.
  destruct (Rlt_dec a 0); [lra | reflexivity].
Qed.

Lemma flog_fin (a : R) : 0 < a -> flog (Fin a) = Fin (ln a).
Proof.
  intros Ha; unfold flog.
  destruct (Rlt_dec a 0); [lra |].
  destruct (Req_dec_T a 0); [lra | reflexivity].
Qed.

Lemma fpow_fin (a : R) (k : nat) : fpow (Fin a) k = Fin (a ^ k).
Proof.
  induction k as [| k IH]; simpl; [reflexivity |].
  now rewrite IH.
Qed.

Lemma sigmoid_fin (w : R) : sigmoid (Fin w) = Fin (1 / (1 + exp (- w))).
Proof.
  unfold sigmoid; autorewrite with fin.
  apply fdiv_fin.
  pose proof (exp_pos (- w)); lra.
Qed.

Lemma sigmoid_range (w : R) : 0 < 1 / (1 + exp (- w)) < 1.
Proof.
  pose proof (exp_pos (- w)) as He.
  split.
  - apply Rdiv_lt_0_compat; lra.
  - apply Rmult_lt_reg_r with (1 + exp (- w)); [lra |].
    unfold Rdiv; rewrite Rmult_assoc, Rinv_l; lra.
Qed.

(** The logit of [p] in (0, 1) and its inverse. *)
Lemma logit_fin (p : R) :
  0 < p < 1 ->
  flog (fdiv (Fin p) (fsub (Fin 1) (Fin p))) = Fin (ln (p / (1 - p))).
Proof.
  intros [H0 H1]; autorewrite with fin.
  rewrite fdiv_fin by lra.
  apply flog_fin.
  apply Rdiv_lt_0_compat; lra.
Qed.

Lemma sigmoid_logit (p : R) :
  0 < p < 1 -> 1 / (1 + exp (- ln (p / (1 - p)))) = p.
Proof.
  intros [H0 H1].
  assert (Hq : 0 < p / (1 - p)) by (apply Rdiv_lt_0_compat; lra).
  rewrite exp_Ropp, exp_ln by assumption.
  field; lra.
Qed.

(** ** Construction *)

Lemma init_inv draws ns s0 w0 tr ph pa ori inp self :
  __init__ draws ns s0 w0 tr ph pa ori inp = Ok self ->
  (0 < ns)%Z
  /\ initialize_wls draws ns 3 128 w0 = Ok (wls self)
  /\ initialize_sigmaonf (fun i => draws (Z.to_nat ns + i)%nat) s0
     = Ok (sigmaonf self)
  /\ min_wl self = 3%Q /\ max_wl self = 128%Q
  /\ cut_off self = 0.4%Q /\ g self = 10%Q
  /\ T self = 0%Q /\ episilon self = 0.0001%Q
  /\ return_phase self = ph /\ return_phase_asym self = pa
  /\ return_ori self = ori /\ return_input self = inp.
Proof.
  unfold __init__.
  destruct (0 <? ns)%Z eqn:Hns; simpl; [| discriminate].
  destruct (initialize_wls draws ns 3 128 w0) as [w |]; simpl; [| discriminate].
  destruct (initialize_sigmaonf _ s0) as [s |]; simpl; [| discriminate].
  intros H; injection H as <-; simpl.
  apply Z.ltb_lt in Hns.
  repeat split; auto.
Qed.

Lemma Qlt_bool_iff (a b : Q) : Qlt_bool a b = true <-> (a < b)%Q.
Proof.
  unfold Qlt_bool.
  rewrite negb_true_iff, <- not_true_iff_false, Qle_bool_iff.
  split; [apply Qnot_le_lt | apply Qlt_not_le].
Qed.

Lemma decode_wavelength_range (s : R) :
  0 < s < 1 -> 3 < Q2R 3 + s * Q2R (128 - 3) < 128.
Proof. rewrite Q2R_3, Q2R_125; lra. Qed.



(** ** Configuration errors *)

Lemma Qlt_bool_false_iff (a b : Q) : Qlt_bool a b = false <-> (b <= a)%Q.
Proof.
  unfold Qlt_bool.
  rewrite negb_false_iff; apply Qle_bool_iff.
Qed.

Lemma Qmod1_integer (n : Q) :
  Qeq_bool (Qmod1 n) 0 = true <-> exists z : Z, (n == inject_Z z)%Q.
Proof.
  rewrite Qeq_bool_iff; unfold Qmod1; split.
  - intros H; exists (Qfloor n).
    rewrite <- (Qplus_0_l (inject_Z (Qfloor n))), <- H; ring.
  - intros [z Hz].
    rewrite (Qfloor_comp _ _ Hz), Qfloor_Z, Hz; ring.
Qed.

Lemma positive_integer_guard (n : Q) :
  negb (Qeq_bool (Qmod1 n) 0) || Qlt_bool n 1 = false <->
  exists k : positive, (n == inject_Z (Zpos k))%Q.
Proof.
  rewrite orb_false_iff, negb_false_iff, Qmod1_integer, Qlt_bool_false_iff.
  split.
  - intros [[z Hz] H1].
    rewrite Hz in H1.
    change 1%Q with (inject_Z 1) in H1; rewrite <- Zle_Qle in H1.
    destruct z as [| k | k]; try lia.
    now exists k.
  - intros [k Hk]; split; [now exists (Zpos k) |].
    rewrite Hk; change 1%Q with (inject_Z 1); rewrite <- Zle_Qle; lia.
Qed.




(** ** The frequency mesh *)

Lemma mesh_range_unfold (rows cols : nat) :
  mesh_range (rows, cols) =
  let u1 := ifftshift (fst (meshgrid_xy (freq_axis cols) (freq_axis rows))) in
  let u2 := ifftshift (snd (meshgrid_xy (freq_axis cols) (freq_axis rows))) in
  (u1, u2,
   tmap fsqrt
     (mkT (shape u1)
        (fun idx => fadd (fpow (item u1 idx) 2) (fpow (item u2 idx) 2)))).
Proof. reflexivity. Qed.

Lemma Qceiling_half_odd (c : Z) :
  Qceiling ((c # 2) - (- (c - 1) # 2)) = c.
Proof.
  unfold Qceiling, Qfloor, Qminus, Qplus, Qopp; simpl.
  Z.to_euclidean_division_equations; lia.
Qed.

Lemma Qceiling_half_even (c : Z) :
  Qceiling ((c # 2) - (- c # 2)) = c.
Proof.
  unfold Qceiling, Qfloor, Qminus, Qplus, Qopp; simpl.
  Z.to_euclidean_division_equations; lia.
Qed.

Lemma freq_axis_shape (n : nat) : shape (freq_axis n) = [n].
Proof.
  unfold freq_axis.
  destruct (negb (n mod 2 =? 0)%nat); simpl.
  - now rewrite Qceiling_half_odd, Nat2Z.id.
  - now rewrite Qceiling_half_even, Nat2Z.id.
Qed.

Lemma Q2R_half (a : Z) : Q2R (a # 2) = IZR a / 2.
Proof. unfold Q2R; simpl; reflexivity. Qed.

Lemma Q2R_inject_Z (z : Z) : Q2R (inject_Z z) = IZR z.
Proof. unfold Q2R; simpl; field. Qed.

(** For [n >= 2] both branches give the same coordinates: sample [k] sits at
    [(k - n/2) / (2 * (n/2))], with integer division in [n/2]. *)
Lemma freq_axis_item (n k : nat) :
  (2 <= n)%nat ->
  item (freq_axis n) [k] = Fin ((INR k - INR (n / 2)) / (2 * INR (n / 2))).
Proof.
  intros Hn.
  pose proof (Nat.div_mod_eq n 2) as Hdm.
  pose proof (Nat.mod_upper_bound n 2 ltac:(lia)) as Hm.
  set (q := (n / 2)%nat) in *.
  assert (Hq : (1 <= q)%nat) by lia.
  assert (HqR : 1 <= INR q) by (change 1 with (INR 1); now apply le_INR).
  unfold freq_axis.
  destruct (n mod 2 =? 0)%nat eqn:Hpar; simpl;
    [apply Nat.eqb_eq in Hpar | apply Nat.eqb_neq in Hpar].
  - assert (Hc : Z.of_nat n = (2 * Z.of_nat q)%Z) by lia.
    unfold of_Q, of_Z.
    rewrite Q2R_plus, Q2R_half, Q2R_inject_Z, Hc.
    rewrite opp_IZR, mult_IZR, <- !INR_IZR_INZ.
    rewrite fdiv_fin by lra.
    f_equal; field; lra.
  - assert (Hc : (Z.of_nat n - 1 = 2 * Z.of_nat q)%Z) by lia.
    unfold of_Q, of_Z.
    rewrite Q2R_plus, Q2R_half, Q2R_inject_Z, Hc.
    rewrite opp_IZR, mult_IZR, <- !INR_IZR_INZ.
    rewrite fdiv_fin by lra.
    f_equal; field; lra.
Qed.

(** With a single sample the odd branch divides 0 by [n - 1 = 0]. *)
Lemma freq_axis_one : item (freq_axis 1) [0%nat] = NaN.
Proof.
  unfold freq_axis; simpl.
  unfold of_Q, of_Z.
  replace (Q2R ((0 # 2) + inject_Z 0)) with 0 by (unfold Q2R; simpl; lra).
  apply fdiv_zero_zero.
Qed.

Lemma mesh_shapes (rows cols : nat) :
  shape (mesh_u1 (rows, cols)) = [rows; cols]
  /\ shape (mesh_u2 (rows, cols)) = [rows; cols]
  /\ shape (mesh_radius (rows, cols)) = [rows; cols].
Proof.
  unfold mesh_u1, mesh_u2, mesh_radius.
  rewrite mesh_range_unfold; simpl.
  now rewrite !freq_axis_shape.
Qed.

Lemma mesh_u1_item (rows cols i j : nat) :
  item (mesh_u1 (rows, cols)) [i; j]
  = item (freq_axis cols) [((j + cols / 2) mod cols)%nat].
Proof.
  unfold mesh_u1; rewrite mesh_range_unfold; simpl.
  now rewrite !freq_axis_shape.
Qed.

Lemma mesh_u2_item (rows cols i j : nat) :
  item (mesh_u2 (rows, cols)) [i; j]
  = item (freq_axis rows) [((i + rows / 2) mod rows)%nat].
Proof.
  unfold mesh_u2; rewrite mesh_range_unfold; simpl.
  now rewrite !freq_axis_shape.
Qed.

Lemma mesh_radius_item (size : nat * nat) (idx : list nat) :
  item (mesh_radius size) idx
  = fsqrt (fadd (fpow (item (mesh_u1 size) idx) 2)
                (fpow (item (mesh_u2 size) idx) 2)).
Proof. destruct size as [rows cols]; reflexivity. Qed.

Lemma mesh_u1_fin (rows cols i j : nat) :
  (2 <= cols)%nat ->
  item (mesh_u1 (rows, cols)) [i; j] = Fin (shifted cols j).
Proof. intros H; rewrite mesh_u1_item; now apply freq_axis_item. Qed.

Lemma mesh_u2_fin (rows cols i j : nat) :
  (2 <= rows)%nat ->
  item (mesh_u2 (rows, cols)) [i; j] = Fin (shifted rows i).
Proof. intros H; rewrite mesh_u2_item; now apply freq_axis_item. Qed.

Lemma mesh_radius_fin (rows cols i j : nat) :
  (2 <= rows)%nat -> (2 <= cols)%nat ->
  item (mesh_radius (rows, cols)) [i; j]
  = Fin (sqrt (shifted cols j ^ 2 + shifted rows i ^ 2)).
Proof.
  intros Hr Hc.
  rewrite mesh_radius_item, mesh_u1_fin, mesh_u2_fin by assumption.
  rewrite !fpow_fin, fadd_fin.
  apply fsqrt_fin.
  pose proof (pow2_ge_0 (shifted cols j)); pose proof (pow2_ge_0 (shifted rows i)).
  lra.
Qed.

Lemma shifted_origin (n : nat) : (1 <= n)%nat -> shifted n 0 = 0.
Proof.
  intros Hn; unfold shifted; rewrite Nat.add_0_l.
  rewrite Nat.mod_small by (apply Nat.div_lt; lia).
  unfold Rdiv; ring.
Qed.

(** C3 (amended to sizes of at least two samples per axis).  The mesh
    builder returns three (rows, cols) grids; the radius is a finite
    non-negative number at every grid point, and the coordinates and the
    radius at index (0, 0) are exactly 0. *)
Theorem mesh_range_grid :
  forall rows cols,
    (2 <= rows)%nat -> (2 <= cols)%nat ->
    shape (mesh_u1 (rows, cols)) = [rows; cols]
    /\ shape (mesh_u2 (rows, cols)) = [rows; cols]
    /\ shape (mesh_radius (rows, cols)) = [rows; cols]
    /\ (forall i j, (i < rows)%nat -> (j < cols)%nat ->
          exists r, item (mesh_radius (rows, cols)) [i; j] = Fin r /\ 0 <= r)
    /\ item (mesh_u1 (rows, cols)) [0; 0]%nat = Fin 0
    /\ item (mesh_u2 (rows, cols)) [0; 0]%nat = Fin 0
    /\ item (mesh_radius (rows, cols)) [0; 0]%nat = Fin 0.
Proof.
  intros rows cols Hr Hc.
  destruct (mesh_shapes rows cols) as (S1 & S2 & S3).
  repeat split; try assumption.
  - intros i j _ _.
    rewrite mesh_radius_fin by assumption.
    eexists; split; [reflexivity | apply sqrt_pos].
  - rewrite mesh_u1_fin, shifted_origin by lia; reflexivity.
  - rewrite mesh_u2_fin, shifted_origin by lia; reflexivity.
  - rewrite mesh_radius_fin, !shifted_origin by lia.
    f_equal.
    replace (0 ^ 2 + 0 ^ 2) with 0 by ring.
    apply sqrt_0.
Qed.

Lemma mesh_range_grid_witness :
  shape (mesh_radius (3, 4)%nat) = [3; 4]%nat
  /\ item (mesh_u1 (3, 4)%nat) [0; 0]%nat = Fin 0
  /\ item (mesh_u2 (3, 4)%nat) [0; 0]%nat = Fin 0
  /\ item (mesh_radius (3, 4)%nat) [0; 0]%nat = Fin 0.
Proof.
  destruct (mesh_range_grid 3 4 ltac:(lia) ltac:(lia))
    as (_ & _ & S & _ & U1 & U2 & Rd).
  repeat split; assumption.
Defined.

(** C3 as stated fails for a single row or column: the odd branch divides
    0 by [n - 1 = 0], so the coordinates and the radius at (0, 0) are NaN. *)
Lemma mesh_range_single_sample :
  item (mesh_u1 (1, 1)%nat) [0; 0]%nat = NaN
  /\ item (mesh_u2 (1, 1)%nat) [0; 0]%nat = NaN
  /\ item (mesh_radius (1, 1)%nat) [0; 0]%nat = NaN.
Proof.
  assert (U1 : item (mesh_u1 (1, 1)%nat) [0; 0]%nat = NaN)
    by (rewrite mesh_u1_item; apply freq_axis_one).
  assert (U2 : item (mesh_u2 (1, 1)%nat) [0; 0]%nat = NaN)
    by (rewrite mesh_u2_item; apply freq_axis_one).
  repeat split; try assumption.
  rewrite mesh_radius_item, U1, U2; reflexivity.
Qed.

(** ** Tensor operations that succeed *)

Arguments bdim : simpl never.

Lemma bdim_refl (x : nat) : bdim x x = Some x.
Proof. unfold bdim; now rewrite Nat.eqb_refl. Qed.

Lemma bdim_1_r (x : nat) : bdim x 1 = Some x.
Proof.
  unfold bdim.
  destruct (x =? 1)%nat eqn:E; [| reflexivity].
  apply Nat.eqb_eq in E; now subst.
Qed.

Lemma bdim_1_l (x : nat) : bdim 1 x = Some x.
Proof.
  unfold bdim.
  destruct (1 =? x)%nat eqn:E; [| reflexivity].
  apply Nat.eqb_eq in E; now subst.
Qed.

Lemma bdim_cases (x y d : nat) :
  bdim x y = Some d <-> (x = y /\ d = x) \/ (x = 1%nat /\ d = y) \/ (y = 1%nat /\ d = x).
Proof.
  unfold bdim.
  destruct (x =? y)%nat eqn:E1; [apply Nat.eqb_eq in E1 | apply Nat.eqb_neq in E1].
  - split; [intros [= <-]; now left |].
    intros [[_ ->] | [[-> ->] | [-> ->]]]; congruence.
  - destruct (x =? 1)%nat eqn:E2; [apply Nat.eqb_eq in E2 | apply Nat.eqb_neq in E2].
    + split; [intros [= <-]; right; now left |].
      intros [[? _] | [[_ ->] | [-> ->]]]; congruence.
    + destruct (y =? 1)%nat eqn:E3; [apply Nat.eqb_eq in E3 | apply Nat.eqb_neq in E3].
      * split; [intros [= <-]; right; now right |].
        intros [[? _] | [[? _] | [_ ->]]]; congruence.
      * split; [discriminate |].
        intros [[? _] | [[? _] | [? _]]]; congruence.
Qed.

Lemma tmap2_ok {A B C : Type} (f : A -> B -> C) (a : tensor A) (b : tensor B)
  (s : list nat) :
  broadcast_shapes (shape a) (shape b) = Some s ->
  tmap2 f a b
  = Ok (mkT s (fun idx =>
                 f (item a (bindex (shape a) idx))
                   (item b (bindex (shape b) idx)))).
Proof. intros H; unfold tmap2; now rewrite H. Qed.

Lemma setitem2_ok {A : Type} (t : tensor A) (i j : nat) (v : A)
  (d0 d1 : nat) (rest : list nat) :
  shape t = d0 :: d1 :: rest -> (i < d0)%nat -> (j < d1)%nat ->
  setitem2 t i j v = Ok (assigned t i j v).
Proof.
  intros Hs Hi Hj; unfold setitem2; rewrite Hs.
  apply Nat.ltb_lt in Hi, Hj; now rewrite Hi, Hj.
Qed.

Lemma sum_dim_ok (d : nat) (t : tensor float) :
  (d < length (shape t))%nat ->
  sum_dim d t
  = Ok (mkT (remove_at d (shape t))
          (fun idx =>
             fsum_upto (nth d (shape t) 0%nat)
               (fun k => item t (insert_at d k idx)))).
Proof. intros H; unfold sum_dim; apply Nat.ltb_lt in H; now rewrite H. Qed.

(** A coordinate below the dimension's size is read where it stands, also in
    a dimension of size one. *)
Lemma bcoord (d i : nat) :
  (i < d)%nat -> (if (d =? 1)%nat then 0%nat else i) = i.
Proof.
  intros H; destruct (d =? 1)%nat eqn:E; [| reflexivity].
  apply Nat.eqb_eq in E; lia.
Qed.

Lemma mesh_range_eta (size : nat * nat) :
  mesh_range size = (mesh_u1 size, mesh_u2 size, mesh_radius size).
Proof.
  unfold mesh_u1, mesh_u2, mesh_radius.
  now destruct (mesh_range size) as [[u1 u2] radius].
Qed.

Ltac bshape :=
  unfold broadcast_shapes; simpl;
  rewrite ?bdim_refl, ?bdim_1_r, ?bdim_1_l; simpl;
  rewrite ?bdim_refl, ?bdim_1_r, ?bdim_1_l; simpl;
  rewrite ?bdim_refl, ?bdim_1_r, ?bdim_1_l; simpl;
  try reflexivity.

(** ** The filters *)

Lemma lowpassfilter_ok (rows cols : nat) (cutoff n : Q) (k : positive) :
  (0 <= cutoff)%Q -> (cutoff <= 1 # 2)%Q -> (n == inject_Z (Zpos k))%Q ->
  lowpassfilter [rows; cols] cutoff n
  = Ok (tmap (lowpass_value cutoff (2 * Pos.to_nat k))
          (mesh_radius (rows, cols))).
Proof.
  intros H0 H1 Hn.
  unfold lowpassfilter.
  apply Qlt_bool_false_iff in H0, H1; rewrite H0, H1; simpl orb; cbv iota.
  assert (Hg : negb (Qeq_bool (Qmod1 n) 0) || Qlt_bool n 1 = false)
    by (apply positive_integer_guard; now exists k).
  rewrite Hg; cbn [length Nat.eqb bind].
  rewrite mesh_range_eta.
  assert (He : Z.to_nat (Qfloor (2 * n)) = (2 * Pos.to_nat k)%nat).
  { assert (H2 : (2 * n == inject_Z (2 * Zpos k))%Q).
    { rewrite Hn, inject_Z_mult; reflexivity. }
    rewrite (Qfloor_comp _ _ H2), Qfloor_Z; lia. }
  now rewrite He.
Qed.

Lemma bindex_suffix (s pre idx : list nat) :
  in_range idx s -> bindex s (pre ++ idx) = idx.
Proof.
  intros H; unfold bindex.
  assert (Hlen : length idx = length s) by (eapply Forall2_length; eauto).
  rewrite length_app, <- Hlen, Nat.add_sub, skipn_app, skipn_all, Nat.sub_diag.
  simpl.
  clear Hlen pre; induction H as [| i d idx s Hlt _ IH]; [reflexivity |].
  simpl; rewrite IH; f_equal.
  now apply bcoord.
Qed.

Lemma bindex_same (s idx : list nat) : in_range idx s -> bindex s idx = idx.
Proof. apply (bindex_suffix s []). Qed.

Lemma in_range_2 (a b i j : nat) :
  (i < a)%nat -> (j < b)%nat -> in_range [i; j] [a; b].
Proof. intros; repeat constructor; assumption. Qed.

Lemma in_range_3 (a b c i j k : nat) :
  (i < a)%nat -> (j < b)%nat -> (k < c)%nat -> in_range [i; j; k] [a; b; c].
Proof. intros; repeat constructor; assumption. Qed.

Lemma in_range_4 (a b c d i j k l : nat) :
  (i < a)%nat -> (j < b)%nat -> (k < c)%nat -> (l < d)%nat ->
  in_range [i; j; k; l] [a; b; c; d].
Proof. intros; repeat constructor; assumption. Qed.

Create HintDb shapes.
#[local] Hint Resolve in_range_2 in_range_3 in_range_4 : shapes.

Lemma bindex_23 (a b s i j : nat) :
  (i < a)%nat -> (j < b)%nat -> bindex [a; b] [s; i; j] = [i; j].
Proof. intros; apply (bindex_suffix [a; b] [s] [i; j]); auto with shapes. Qed.

Lemma bindex_24 (a b n s i j : nat) :
  (i < a)%nat -> (j < b)%nat -> bindex [a; b] [n; s; i; j] = [i; j].
Proof.
  intros; apply (bindex_suffix [a; b] [n; s] [i; j]); auto with shapes.
Qed.

Lemma compute_logGabor_ok (self : Mono2D) (radius : tensor float)
  (rows cols : nat) :
  well_formed self -> shape radius = [rows; cols] ->
  exists lg sidx,
    compute_logGabor self radius = Ok lg
    /\ shape lg = [scales self; rows; cols]
    /\ forall s i j,
         (s < scales self)%nat -> (i < rows)%nat -> (j < cols)%nat ->
         item lg [s; i; j] = logGabor_value self sidx s (item radius [i; j]).
Proof.
  intros (Hw & Hs & _) Hr.
  destruct Hw as (k & Hk & Hpos).
  unfold compute_logGabor, scales; rewrite Hk; simpl nth.
  erewrite (tmap2_ok fdiv radius) by (simpl; rewrite Hr, Hk; bshape).
  cbn [bind].
  assert (Hidx : forall s i j,
             (s < k)%nat -> (i < rows)%nat -> (j < cols)%nat ->
             bindex [k; rows; cols] [s; i; j] = [s; i; j]
             /\ bindex [rows; cols] [s; i; j] = [i; j]
             /\ bindex [k; 1%nat; 1%nat] [s; i; j] = [s; 0%nat; 0%nat]).
  { intros s i j Hlt Hi Hj; repeat split.
    - apply bindex_same; auto with shapes.
    - now apply bindex_23.
    - unfold bindex; simpl; now rewrite bcoord. }
  destruct Hs as [Hs | Hs].
  - erewrite tmap2_ok by (simpl; rewrite Hs; bshape).
    cbn [bind].
    eexists; exists []; split; [reflexivity |]; split; [reflexivity |].
    intros s i j Hlt Hi Hj.
    destruct (Hidx s i j Hlt Hi Hj) as (E1 & E2 & E3).
    cbn [item shape tmap view_col get_wls rescale_wls].
    rewrite Hr, Hk, Hs; cbn [nth].
    rewrite E1, E2, E3; reflexivity.
  - erewrite tmap2_ok by (simpl; rewrite Hs; bshape).
    cbn [bind].
    eexists; exists [0%nat]; split; [reflexivity |]; split; [reflexivity |].
    intros s i j Hlt Hi Hj.
    destruct (Hidx s i j Hlt Hi Hj) as (E1 & E2 & E3).
    cbn [item shape tmap view_col get_wls rescale_wls].
    rewrite Hr, Hk, Hs; cbn [nth].
    rewrite E1, E2, E3; reflexivity.
Qed.

Lemma get_filters_ok (self : Mono2D) (rows cols : nat) :
  well_formed self -> (1 <= rows)%nat -> (1 <= cols)%nat ->
  exists H lgf sidx,
    get_filters self rows cols = Ok (H, lgf)
    /\ shape H = [rows; cols]
    /\ shape lgf = [scales self; rows; cols]
    /\ (forall i j, (i < rows)%nat -> (j < cols)%nat ->
          item H [i; j]
          = cdiv (csub (cmul imag_unit
                          (of_real (item (mesh_u1 (rows, cols)) [i; j])))
                       (of_real (item (mesh_u2 (rows, cols)) [i; j])))
                 (of_real (item (patched_radius (rows, cols)) [i; j])))
    /\ (forall s i j,
          (s < scales self)%nat -> (i < rows)%nat -> (j < cols)%nat ->
          item lgf [s; i; j]
          = if ((s =? 0) && (i =? 0))%nat then Fin 0
            else fmul (logGabor_value self sidx s
                         (item (patched_radius (rows, cols)) [i; j]))
                      (lowpass_value 0.4 20
                         (item (mesh_radius (rows, cols)) [i; j]))).
Proof.
  intros Hwf Hrows Hcols.
  destruct (mesh_shapes rows cols) as (S1 & S2 & S3).
  assert (Hpr : shape (patched_radius (rows, cols)) = [rows; cols]) by exact S3.
  destruct (compute_logGabor_ok self (patched_radius (rows, cols)) rows cols
              Hwf Hpr) as (lg & sidx & Hlg & Slg & Ilg).
  pose proof Hwf as (Hw & _ & _ & _ & Hcut & Hg & _).
  destruct Hw as (k & Hk & Hpos).
  assert (Hsc : scales self = k) by (unfold scales; now rewrite Hk).
  unfold get_filters.
  rewrite mesh_range_eta.
  rewrite (setitem2_ok (mesh_radius (rows, cols)) 0 0 (Fin 1) rows cols [] S3)
    by lia.
  cbn [bind]; fold (patched_radius (rows, cols)).
  erewrite tmap2_ok by (cbn [shape tmap]; rewrite S1, S2; bshape).
  cbn [bind].
  erewrite tmap2_ok by (cbn [shape tmap]; rewrite Hpr; bshape).
  cbn [bind].
  rewrite Hcut, Hg.
  rewrite (lowpassfilter_ok rows cols 0.4 10 10)
    by (try reflexivity; unfold Qle; simpl; lia).
  cbn [bind].
  rewrite Hlg; cbn [bind].
  erewrite tmap2_ok by (cbn [shape tmap]; rewrite Slg, S3, Hsc; bshape).
  cbn [bind].
  erewrite setitem2_ok; [| cbn [shape]; reflexivity | lia | lia].
  cbn [bind].
  eexists; eexists; exists sidx.
  split; [reflexivity |]; split; [reflexivity |].
  split; [cbn [shape assigned]; now rewrite Hsc |]; split.
  - intros i j Hi Hj.
    cbn [item shape tmap]; rewrite S1, S2, Hpr.
    cbn [item shape tmap].
    rewrite !(bindex_same [rows; cols] [i; j]) by auto with shapes.
    reflexivity.
  - intros s i j Hs Hi Hj.
    cbn [item shape tmap assigned].
    destruct ((s =? 0) && (i =? 0))%nat; [reflexivity |].
    rewrite Slg, S3, Hsc.
    rewrite (bindex_same [k; rows; cols] [s; i; j])
      by (rewrite Hsc in Hs; auto with shapes).
    rewrite bindex_23 by assumption.
    rewrite Ilg by assumption.
    reflexivity.
Qed.

Lemma init_well_formed draws ns s0 w0 tr ph pa ori inp self :
  __init__ draws ns s0 w0 tr ph pa ori inp = Ok self ->
  w0 <> Some [] ->
  well_formed self.
Proof.
  intros Hinit Hne.
  destruct (init_inv _ _ _ _ _ _ _ _ _ _ Hinit)
    as (Hns & Hw & Hs & Hmin & Hmax & Hcut & Hg & HT & Heps & _).
  unfold well_formed; repeat split; try assumption.
  - unfold initialize_wls in Hw.
    destruct w0 as [ws |].
    + destruct (forallb _ ws); [| discriminate].
      injection Hw as <-; simpl.
      exists (length ws); rewrite length_map; split; [reflexivity |].
      destruct ws; [congruence | simpl; lia].
    + injection Hw as <-; simpl.
      exists (Z.to_nat ns); split; [reflexivity | lia].
  - unfold initialize_sigmaonf in Hs.
    destruct s0 as [b |].
    + destruct (Qlt_bool 0 b && Qlt_bool b 1); [| discriminate].
      injection Hs as <-; now left.
    + injection Hs as <-; now right.
Qed.

Lemma layer_of_init draws (ws : list Q) (b : Q) (ph pa ori inp : bool) :
  ws <> [] ->
  forallb (fun w => Qlt_bool 0 w) ws = true ->
  Qlt_bool 0 b && Qlt_bool b 1 = true ->
  __init__ draws (Z.of_nat (length ws)) (Some b) (Some ws) None ph pa ori inp
  = Ok (layer_of ws b ph pa ori inp).
Proof.
  intros Hne Hws Hb; unfold __init__.
  assert (H : (0 <? Z.of_nat (length ws))%Z = true).
  { apply Z.ltb_lt; destruct ws; [congruence | simpl; lia]. }
  rewrite H; cbn [negb].
  unfold initialize_wls, initialize_sigmaonf; rewrite Hws, Hb.
  reflexivity.
Qed.

Lemma layer_of_wf (ws : list Q) (b : Q) (ph pa ori inp : bool) :
  ws <> [] ->
  forallb (fun w => Qlt_bool 0 w) ws = true ->
  Qlt_bool 0 b && Qlt_bool b 1 = true ->
  well_formed (layer_of ws b ph pa ori inp).
Proof.
  intros Hne Hws Hb.
  apply (init_well_formed _ _ _ _ _ _ _ _ _ _
           (layer_of_init no_draws ws b ph pa ori inp Hne Hws Hb)).
  now intros [= ->].
Qed.

(** Wavelengths in (3, 128) and a bandwidth in (0, 1) are encoded as finite
    codes. *)
Lemma layer_of_finite_codes (ws : list Q) (b : Q) (ph pa ori inp : bool) :
  forallb (fun w => Qlt_bool 3 w && Qlt_bool w 128) ws = true ->
  Qlt_bool 0 b && Qlt_bool b 1 = true ->
  finite_codes (layer_of ws b ph pa ori inp).
Proof.
  intros Hws Hb; split.
  - intros s Hs.
    unfold scales in Hs; cbn [layer_of wls shape tmap of_list nth] in Hs.
    rewrite length_map in Hs.
    cbn [layer_of wls item tmap of_list nth].
    set (f := fun w : Q => fdiv (fsub (of_Q w) (of_Q 3)) (of_Q (128 - 3))).
    rewrite (nth_indep _ NaN (f 0%Q)) by (rewrite length_map; exact Hs).
    rewrite map_nth; subst f; cbv beta.
    rewrite forallb_forall in Hws.
    pose proof (Hws _ (nth_In ws 0%Q Hs)) as Hw.
    apply andb_true_iff in Hw as [Hlo Hhi].
    apply Qlt_bool_iff, Qlt_Rlt in Hlo, Hhi.
    assert (H128 : Q2R 128 = 128) by (unfold Q2R; simpl; lra).
    rewrite Q2R_3 in Hlo; rewrite H128 in Hhi.
    unfold of_Q; rewrite Q2R_3, Q2R_125; autorewrite with fin.
    rewrite fdiv_fin by lra.
    rewrite logit_fin; [exact I |].
    split.
    + apply Rdiv_lt_0_compat; lra.
    + apply Rmult_lt_reg_r with 125; [lra |].
      unfold Rdiv; rewrite Rmult_assoc, Rinv_l; lra.
  - intros idx; cbn [layer_of sigmaonf item tmap scalar].
    apply andb_true_iff in Hb as [Hlo Hhi].
    apply Qlt_bool_iff, Qlt_Rlt in Hlo, Hhi.
    rewrite Q2R_0 in Hlo; rewrite Q2R_1 in Hhi.
    unfold of_Q; rewrite logit_fin by lra.
    exact I.
Qed.

Lemma patched_radius_origin (size : nat * nat) :
  item (patched_radius size) [0; 0]%nat = Fin 1.
Proof. reflexivity. Qed.

(** C10 (amended to sizes of at least two samples per axis).  For every
    well-formed layer the filters are built without error and the packed
    quadrature filter is exactly zero at the zero-frequency bin. *)
Theorem quadrature_filter_zero_at_origin :
  forall self rows cols,
    well_formed self -> (2 <= rows)%nat -> (2 <= cols)%nat ->
    exists H lgf,
      get_filters self rows cols = Ok (H, lgf)
      /\ shape H = [rows; cols]
      /\ item H [0; 0]%nat = (Fin 0, Fin 0).
Proof.
  intros self rows cols Hwf Hr Hc.
  destruct (get_filters_ok self rows cols Hwf ltac:(lia) ltac:(lia))
    as (H & lgf & sidx & Hget & SH & _ & IH & _).
  exists H, lgf; repeat split; try assumption.
  rewrite IH by lia.
  rewrite mesh_u1_fin, mesh_u2_fin, !shifted_origin, patched_radius_origin by lia.
  unfold cdiv, csub, cmul, imag_unit, of_real; simpl fst; simpl snd.
  autorewrite with fin.
  rewrite !fdiv_fin by lra.
  f_equal; f_equal; field.
Qed.

Lemma quadrature_filter_zero_at_origin_witness :
  exists H lgf,
    get_filters one_scale_layer 2 3 = Ok (H, lgf)
    /\ shape H = [2; 3]%nat
    /\ item H [0; 0]%nat = (Fin 0, Fin 0).
Proof.
  apply (quadrature_filter_zero_at_origin one_scale_layer 2 3).
  - now apply layer_of_wf.
  - lia.
  - lia.
Defined.

(** C10 as stated fails on a one-sample grid: the coordinates at (0, 0) are
    NaN there, and so is the filter. *)
Lemma quadrature_filter_single_sample :
  exists H lgf,
    get_filters one_scale_layer 1 1 = Ok (H, lgf)
    /\ item H [0; 0]%nat = (NaN, NaN).
Proof.
  destruct (get_filters_ok one_scale_layer 1 1
              (layer_of_wf [10%Q] 0.55 true false false false
                 ltac:(discriminate) eq_refl eq_refl) ltac:(lia) ltac:(lia))
    as (H & lgf & sidx & Hget & _ & _ & IH & _).
  exists H, lgf; split; [assumption |].
  rewrite IH by lia.
  rewrite mesh_u1_item, mesh_u2_item.
  change ((0 + 1 / 2) mod 1)%nat with 0%nat.
  rewrite freq_axis_one, patched_radius_origin.
  reflexivity.
Qed.

(** ** The low-pass mask *)

Lemma even_pow_nonneg (x : R) (m : nat) : 0 <= x ^ (2 * m).
Proof.
  rewrite pow_mult.
  apply pow_le, pow2_ge_0.
Qed.

Lemma lowpass_value_fin (cutoff : Q) (m : nat) (r : R) :
  Q2R cutoff <> 0 ->
  lowpass_value cutoff (2 * m) (Fin r)
  = Fin (1 / (1 + (r / Q2R cutoff) ^ (2 * m))).
Proof.
  intros Hc; unfold lowpass_value, of_Q.
  rewrite fdiv_fin by assumption.
  rewrite fpow_fin, fadd_fin.
  apply fdiv_fin.
  pose proof (even_pow_nonneg (r / Q2R cutoff) m); lra.
Qed.

Lemma lowpass_range (t : R) : 0 <= t -> 0 < 1 / (1 + t) <= 1.
Proof.
  intros Ht; split.
  - apply Rdiv_lt_0_compat; lra.
  - apply Rmult_le_reg_r with (1 + t); [lra |].
    unfold Rdiv; rewrite Rmult_assoc, Rinv_l; lra.
Qed.




(** ** The log-Gabor bank *)

Lemma get_wls_fin (self : Mono2D) (idx : list nat) (c : R) :
  min_wl self = 3%Q -> max_wl self = 128%Q ->
  item (wls self) idx = Fin c ->
  exists x, item (get_wls self) idx = Fin x /\ 3 < x < 128.
Proof.
  intros Hmin Hmax Hc.
  unfold get_wls, rescale_wls; cbn [item tmap].
  rewrite Hc, sigmoid_fin, Hmin, Hmax; unfold of_Q.
  autorewrite with fin.
  eexists; split; [reflexivity |].
  apply decode_wavelength_range, sigmoid_range.
Qed.

Lemma ln_neg (x : R) : 0 < x < 1 -> ln x < 0.
Proof.
  intros [H0 H1]; rewrite <- ln_1.
  now apply ln_increasing.
Qed.

(** The mask value is the Gaussian on the logarithmic frequency axis, with
    centre frequency [1 / wl] and bandwidth [sigmoid b]. *)
Lemma logGabor_value_fin (self : Mono2D) (sidx : list nat) (s : nat)
  (r wl b : R) :
  item (get_wls self) [s] = Fin wl -> 0 < wl ->
  item (sigmaonf self) sidx = Fin b -> 0 < r ->
  logGabor_value self sidx s (Fin r)
  = Fin (exp (- ln (r / (1 / wl)) ^ 2
              / (2 * ln (1 / (1 + exp (- b))) ^ 2))).
Proof.
  intros Hwl Hpos Hb Hr.
  pose proof (sigmoid_range b) as Hsig.
  pose proof (ln_neg _ Hsig) as Hln.
  assert (Hfo : 0 < 1 / wl) by (apply Rdiv_lt_0_compat; lra).
  unfold logGabor_value.
  rewrite Hwl, Hb, sigmoid_fin.
  rewrite (fdiv_fin 1 wl) by lra.
  rewrite fdiv_fin by (apply Rgt_not_eq, Hfo).
  rewrite flog_fin by (apply Rdiv_lt_0_compat; assumption).
  rewrite flog_fin by apply Hsig.
  rewrite !fpow_fin; autorewrite with fin.
  rewrite fdiv_fin by nra.
  reflexivity.
Qed.

(** C6, second half, at a two-scale layer and a 2 x 2 grid: the assignment
    [lgf[0,0] = 0] addresses scale 0 and row 0 of the three-dimensional
    mask.  It clears the whole first row of scale 0 and leaves the
    zero-frequency entry of scale 1 at a strictly positive value. *)
Theorem zero_frequency_kept_beyond_first_scale :
  exists H lgf v,
    get_filters two_scale_layer 2 2 = Ok (H, lgf)
    /\ shape lgf = [2; 2; 2]%nat
    /\ item lgf [1; 0; 0]%nat = Fin v /\ 0 < v
    /\ item lgf [0; 0; 0]%nat = Fin 0
    /\ item lgf [0; 0; 1]%nat = Fin 0.
Proof.
  assert (Hwf : well_formed two_scale_layer) by now apply layer_of_wf.
  assert (Hcodes : finite_codes two_scale_layer)
    by now apply layer_of_finite_codes.
  destruct (get_filters_ok two_scale_layer 2 2 Hwf ltac:(lia) ltac:(lia))
    as (H & lgf & sidx & Hget & _ & Slgf & _ & Ilgf).
  assert (Hsc : scales two_scale_layer = 2%nat) by reflexivity.
  rewrite Hsc in Slgf, Ilgf.
  pose proof (Ilgf 1%nat 0%nat 0%nat ltac:(lia) ltac:(lia) ltac:(lia)) as I1.
  pose proof (Ilgf 0%nat 0%nat 0%nat ltac:(lia) ltac:(lia) ltac:(lia)) as I0.
  pose proof (Ilgf 0%nat 0%nat 1%nat ltac:(lia) ltac:(lia) ltac:(lia)) as I2.
  cbn [Nat.eqb andb] in I0, I1, I2.
  destruct Hcodes as [Hcw Hcs].
  destruct (finite_inv _ (Hcw 1%nat ltac:(rewrite Hsc; lia))) as (cw & Hcw').
  destruct (get_wls_fin two_scale_layer [1%nat] cw eq_refl eq_refl Hcw')
    as (wl & Hwl & Hrange).
  destruct (finite_inv _ (Hcs sidx)) as (b & Hb).
  rewrite patched_radius_origin in I1.
  rewrite (logGabor_value_fin _ _ _ 1 wl _ Hwl ltac:(lra) Hb ltac:(lra)) in I1.
  rewrite mesh_radius_fin, !shifted_origin in I1 by lia.
  replace (sqrt (0 ^ 2 + 0 ^ 2)) with 0 in I1
    by (replace (0 ^ 2 + 0 ^ 2) with 0 by ring; now rewrite sqrt_0).
  assert (Hc : Q2R 0.4 <> 0) by (unfold Q2R; simpl; lra).
  change (lowpass_value 0.4 20) with (lowpass_value 0.4 (2 * 10)) in I1.
  rewrite (lowpass_value_fin 0.4 10 0 Hc), fmul_fin in I1.
  exists H, lgf; eexists.
  repeat split; try eassumption.
  apply Rmult_lt_0_compat; [apply exp_pos |].
  apply lowpass_range, even_pow_nonneg.
Qed.

(** ** Finite elements *)

Lemma fadd_finite (a b : float) :
  is_finite a -> is_finite b -> is_finite (fadd a b).
Proof. destruct a, b; simpl; tauto. Qed.

Lemma fsub_finite (a b : float) :
  is_finite a -> is_finite b -> is_finite (fsub a b).
Proof. destruct a, b; simpl; tauto. Qed.

Lemma fmul_finite (a b : float) :
  is_finite a -> is_finite b -> is_finite (fmul a b).
Proof. destruct a, b; simpl; tauto. Qed.


Lemma cadd_finite (z w : complex) :
  cfinite z -> cfinite w -> cfinite (cadd z w).
Proof.
  intros [Hz1 Hz2] [Hw1 Hw2]; split; simpl; now apply fadd_finite.
Qed.

Lemma cmul_finite (z w : complex) :
  cfinite z -> cfinite w -> cfinite (cmul z w).
Proof.
  intros [Hz1 Hz2] [Hw1 Hw2]; split; simpl;
    [apply fsub_finite | apply fadd_finite]; now apply fmul_finite.
Qed.

Lemma of_real_finite (v : float) : is_finite v -> cfinite (of_real v).
Proof. intros H; split; simpl; [assumption | exact I]. Qed.

Lemma cis_finite (theta : R) : cfinite (cis theta).
Proof. split; exact I. Qed.

Lemma csum_upto_finite (n : nat) (f : nat -> complex) :
  (forall k, (k < n)%nat -> cfinite (f k)) -> cfinite (csum_upto n f).
Proof.
  intros Hf; unfold csum_upto.
  assert (Hin : forall k, In k (seq 0 n) -> cfinite (f k))
    by (intros k Hk; apply in_seq in Hk; apply Hf; lia).
  assert (H0 : cfinite (Fin 0, Fin 0)) by (split; exact I).
  revert H0 Hin; generalize (Fin 0, Fin 0); generalize (seq 0 n).
  induction l as [| k l IH]; intros acc Hacc Hin; simpl; [assumption |].
  apply IH.
  - apply cadd_finite; [assumption | apply Hin; now left].
  - intros k' Hk'; apply Hin; now right.
Qed.

Lemma in_range_4_inv (idx : list nat) (a b c d : nat) :
  in_range idx [a; b; c; d] ->
  exists i j k l,
    idx = [i; j; k; l]
    /\ (i < a)%nat /\ (j < b)%nat /\ (k < c)%nat /\ (l < d)%nat.
Proof.
  intros H.
  inversion H as [| i ? r1 ? Hi H1]; subst.
  inversion H1 as [| j ? r2 ? Hj H2]; subst.
  inversion H2 as [| k ? r3 ? Hk H3]; subst.
  inversion H3 as [| l ? r4 ? Hl H4]; subst.
  inversion H4; subst.
  exists i, j, k, l; repeat split; assumption.
Qed.

Lemma in_range_3_inv (idx : list nat) (a b c : nat) :
  in_range idx [a; b; c] ->
  exists i j k, idx = [i; j; k] /\ (i < a)%nat /\ (j < b)%nat /\ (k < c)%nat.
Proof.
  intros H.
  inversion H as [| i ? r1 ? Hi H1]; subst.
  inversion H1 as [| j ? r2 ? Hj H2]; subst.
  inversion H2 as [| k ? r3 ? Hk H3]; subst.
  inversion H3; subst.
  exists i, j, k; repeat split; assumption.
Qed.

Lemma in_range_2_inv (idx : list nat) (a b : nat) :
  in_range idx [a; b] ->
  exists i j, idx = [i; j] /\ (i < a)%nat /\ (j < b)%nat.
Proof.
  intros H.
  inversion H as [| i ? r1 ? Hi H1]; subst.
  inversion H1 as [| j ? r2 ? Hj H2]; subst.
  inversion H2; subst.
  exists i, j; repeat split; assumption.
Qed.

(** ** Finite filters *)

Lemma shifted_nonzero (n k : nat) :
  (2 <= n)%nat -> (k < n)%nat -> k <> 0%nat -> shifted n k <> 0.
Proof.
  intros Hn Hk Hk0; unfold shifted.
  pose proof (Nat.div_mod_eq n 2) as Hdm.
  pose proof (Nat.mod_upper_bound n 2 ltac:(lia)) as Hm2.
  set (q := (n / 2)%nat) in *.
  assert (Hq : (1 <= q)%nat) by lia.
  assert (HqR : 1 <= INR q) by (change 1 with (INR 1); now apply le_INR).
  pose proof (Nat.div_mod_eq (k + q) n) as Hdm'.
  pose proof (Nat.mod_upper_bound (k + q) n ltac:(lia)) as Hm.
  set (m := ((k + q) mod n)%nat) in *.
  assert (Hne : m <> q).
  { intros E; rewrite E in Hdm'.
    destruct ((k + q) / n)%nat as [| t]; nia. }
  apply not_INR in Hne.
  intros E.
  apply (Rmult_eq_compat_r (2 * INR q)) in E.
  unfold Rdiv in E; rewrite Rmult_assoc, Rinv_l in E by lra.
  lra.
Qed.

Lemma patched_radius_fin (rows cols i j : nat) :
  (2 <= rows)%nat -> (2 <= cols)%nat -> (i < rows)%nat -> (j < cols)%nat ->
  exists rho, item (patched_radius (rows, cols)) [i; j] = Fin rho /\ 0 < rho.
Proof.
  intros Hr Hc Hi Hj.
  unfold patched_radius, assigned; cbn [item].
  destruct ((i =? 0) && (j =? 0))%nat eqn:E.
  - exists 1; split; [reflexivity | lra].
  - rewrite mesh_radius_fin by assumption.
    eexists; split; [reflexivity |].
    apply sqrt_lt_R0.
    apply andb_false_iff in E as [E | E]; apply Nat.eqb_neq in E.
    + pose proof (shifted_nonzero rows i Hr Hi E) as Hnz.
      pose proof (pow2_ge_0 (shifted cols j)).
      assert (0 < shifted rows i ^ 2)
        by (rewrite <- Rsqr_pow2; apply Rsqr_pos_lt, Hnz).
      lra.
    + pose proof (shifted_nonzero cols j Hc Hj E) as Hnz.
      pose proof (pow2_ge_0 (shifted rows i)).
      assert (0 < shifted cols j ^ 2)
        by (rewrite <- Rsqr_pow2; apply Rsqr_pos_lt, Hnz).
      lra.
Qed.

Lemma get_filters_finite (self : Mono2D) (rows cols : nat)
  (H : tensor complex) (lgf : tensor float) :
  well_formed self -> finite_codes self ->
  (2 <= rows)%nat -> (2 <= cols)%nat ->
  get_filters self rows cols = Ok (H, lgf) ->
  cfin_on H /\ fin_on lgf.
Proof.
  intros Hwf [Hcw Hcs] Hr Hc Hget.
  destruct (get_filters_ok self rows cols Hwf ltac:(lia) ltac:(lia))
    as (H' & lgf' & sidx & Hget' & SH & Slgf & IH & Ilgf).
  rewrite Hget' in Hget; injection Hget as <- <-.
  pose proof Hwf as (_ & _ & Hmin & Hmax & _).
  split.
  - intros idx Hidx; rewrite SH in Hidx.
    apply in_range_2_inv in Hidx as (i & j & -> & Hi & Hj).
    rewrite IH by assumption.
    rewrite mesh_u1_fin, mesh_u2_fin by assumption.
    destruct (patched_radius_fin rows cols i j Hr Hc Hi Hj) as (rho & -> & Hpos).
    unfold cdiv, csub, cmul, imag_unit, of_real; simpl fst; simpl snd.
    autorewrite with fin.
    rewrite !fdiv_fin by nra.
    split; exact I.
  - intros idx Hidx; rewrite Slgf in Hidx.
    apply in_range_3_inv in Hidx as (s & i & j & -> & Hs & Hi & Hj).
    rewrite Ilgf by assumption.
    destruct ((s =? 0) && (i =? 0))%nat; [exact I |].
    destruct (finite_inv _ (Hcw s Hs)) as (cw & Hcw').
    destruct (get_wls_fin self [s] cw Hmin Hmax Hcw') as (wl & Hwl & Hrange).
    destruct (finite_inv _ (Hcs sidx)) as (b & Hb).
    destruct (patched_radius_fin rows cols i j Hr Hc Hi Hj) as (rho & -> & Hpos).
    rewrite (logGabor_value_fin self sidx s rho wl b Hwl ltac:(lra) Hb Hpos).
    rewrite mesh_radius_fin by assumption.
    change (lowpass_value 0.4 20) with (lowpass_value 0.4 (2 * 10)).
    rewrite lowpass_value_fin by (unfold Q2R; simpl; lra).
    exact I.
Qed.
(** ** The forward pass: shapes and elements *)

Lemma dft2_ok (sgn : R) (t : tensor complex) (n d h w : nat) :
  shape t = [n; d; h; w] -> (1 <= h)%nat -> (1 <= w)%nat ->
  exists s,
    dft2 sgn t = Ok s /\ shape s = [n; d; h; w] /\ (cfin_on t -> cfin_on s).
Proof.
  intros Hs Hh Hw; unfold dft2; rewrite Hs.
  cbn [length Nat.ltb Nat.leb Nat.sub nth].
  assert (E : ((h =? 0) || (w =? 0))%nat = false).
  { apply orb_false_iff; split; apply Nat.eqb_neq; lia. }
  rewrite E.
  eexists; split; [reflexivity |]; split; [reflexivity |].
  intros Hfin idx Hidx; cbn [shape] in Hidx; cbn [item].
  apply in_range_4_inv in Hidx as (b & c & i & j & -> & Hb & Hc & Hi & Hj).
  cbn [firstn nth app].
  apply csum_upto_finite; intros m Hm.
  apply csum_upto_finite; intros m' Hm'.
  apply cmul_finite; [| apply cis_finite].
  apply Hfin; rewrite Hs; auto with shapes.
Qed.

Lemma fft2_ok (t : tensor complex) (n d h w : nat) :
  shape t = [n; d; h; w] -> (1 <= h)%nat -> (1 <= w)%nat ->
  exists s,
    fft2 t = Ok s /\ shape s = [n; d; h; w] /\ (cfin_on t -> cfin_on s).
Proof. apply dft2_ok. Qed.

Lemma ifft2_ok (t : tensor complex) (n d h w : nat) :
  shape t = [n; d; h; w] -> (1 <= h)%nat -> (1 <= w)%nat ->
  exists s,
    ifft2 t = Ok s /\ shape s = [n; d; h; w] /\ (cfin_on t -> cfin_on s).
Proof.
  intros Hs Hh Hw; unfold ifft2.
  destruct (dft2_ok 1 t n d h w Hs Hh Hw) as (s & -> & Ss & Fs).
  cbn [bind]; eexists; split; [reflexivity |]; split; [exact Ss |].
  intros Hfin idx Hidx; cbn [shape tmap] in Hidx; cbn [item tmap].
  apply cmul_finite; [apply of_real_finite; exact I | now apply Fs].
Qed.

Lemma broadcast_channel (n c k d h w : nat) :
  bdim c k = Some d ->
  broadcast_shapes [n; c; h; w] [k; h; w] = Some [n; d; h; w].
Proof. intros Hd; unfold broadcast_shapes; simpl; rewrite !bdim_refl, Hd; reflexivity. Qed.

Lemma bcoord_lt_l (c k d e : nat) :
  bdim c k = Some d -> (e < d)%nat ->
  ((if (c =? 1)%nat then 0 else e) < c)%nat.
Proof.
  intros Hd He.
  destruct (c =? 1)%nat eqn:E;
    [apply Nat.eqb_eq in E; lia | apply Nat.eqb_neq in E].
  apply bdim_cases in Hd as [[_ ->] | [[? _] | [_ ->]]]; congruence || lia.
Qed.

Lemma bcoord_lt_r (c k d e : nat) :
  bdim c k = Some d -> (e < d)%nat ->
  ((if (k =? 1)%nat then 0 else e) < k)%nat.
Proof.
  intros Hd He.
  destruct (k =? 1)%nat eqn:E;
    [apply Nat.eqb_eq in E; lia | apply Nat.eqb_neq in E].
  apply bdim_cases in Hd as [[<- ->] | [[_ ->] | [? _]]]; congruence || lia.
Qed.

(** The element of the spectrum and of the mask that the product at an
    index of the broadcast result reads. *)
Lemma broadcast_channel_index (n c k d h w b e i j : nat) :
  bdim c k = Some d ->
  (b < n)%nat -> (e < d)%nat -> (i < h)%nat -> (j < w)%nat ->
  in_range (bindex [n; c; h; w] [b; e; i; j]) [n; c; h; w]
  /\ in_range (bindex [k; h; w] [b; e; i; j]) [k; h; w].
Proof.
  intros Hd Hb He Hi Hj.
  unfold bindex; simpl.
  rewrite (bcoord n b), (bcoord h i), (bcoord w j) by assumption.
  split.
  - apply in_range_4; try assumption; eapply bcoord_lt_l; eassumption.
  - apply in_range_3; try assumption; eapply bcoord_lt_r; eassumption.
Qed.

(** The per-scale responses exist for every four-dimensional input whose
    channel count broadcasts against the number of scales; dimension 1 of
    each response is that broadcast.  They are finite for a finite image,
    finite codes and at least two samples per axis. *)
Lemma monogenic_ok (self : Mono2D) (x : tensor float) (n c h w d : nat) :
  well_formed self ->
  shape x = [n; c; h; w] -> (1 <= h)%nat -> (1 <= w)%nat ->
  bdim c (scales self) = Some d ->
  exists r,
    monogenic self x = Ok r
    /\ shape (r_f r) = [n; d; h; w]
    /\ shape (r_h1 r) = [n; d; h; w]
    /\ shape (r_h2 r) = [n; d; h; w]
    /\ shape (r_h_Amp2 r) = [n; d; h; w]
    /\ shape (r_An r) = [n; d; h; w]
    /\ shape (r_symmetry_energy r) = [n; d; h; w]
    /\ (forall idx, in_range idx [n; d; h; w] ->
          item (r_h_Amp2 r) idx
          = fadd (sq (item (r_h1 r) idx)) (sq (item (r_h2 r) idx))
          /\ item (r_An r) idx
             = fsqrt (fadd (sq (item (r_f r) idx)) (item (r_h_Amp2 r) idx))
          /\ item (r_symmetry_energy r) idx
             = fsub (fsqrt (item (r_h_Amp2 r) idx)) (fabs (item (r_f r) idx)))
    /\ (fin_on x -> finite_codes self -> (2 <= h)%nat -> (2 <= w)%nat ->
        fin_on (r_f r) /\ fin_on (r_h1 r) /\ fin_on (r_h2 r)).
Proof.
  intros Hwf Hx Hh Hw Hd.
  destruct (get_filters_ok self h w Hwf Hh Hw)
    as (H & lgf & sidx & Hget & SH & Slgf & _).
  unfold monogenic; rewrite Hx; cbn [bind].
  destruct (fft2_ok (tmap of_real x) n c h w Hx Hh Hw) as (IM & -> & SIM & FIM).
  cbn [bind]; rewrite Hget; cbn [bind].
  rewrite (tmap2_ok cmul IM _ [n; d; h; w])
    by (cbn [shape tmap]; rewrite SIM, Slgf; apply broadcast_channel, Hd).
  cbn [bind].
  match goal with |- context [ifft2 ?t] => set (IMF := t) end.
  destruct (ifft2_ok IMF n d h w eq_refl Hh Hw) as (fc & -> & Sfc & Ffc).
  cbn [bind].
  rewrite (tmap2_ok cmul IMF H [n; d; h; w])
    by (cbn [shape]; rewrite SH; bshape).
  cbn [bind].
  match goal with |- context [ifft2 ?t] => set (IMFH := t) end.
  destruct (ifft2_ok IMFH n d h w eq_refl Hh Hw) as (hc & -> & Shc & Fhc).
  cbn [bind].
  erewrite tmap2_ok by (cbn [shape tmap]; rewrite Shc; bshape).
  cbn [bind].
  erewrite tmap2_ok by (cbn [shape tmap]; rewrite Sfc; bshape).
  cbn [bind].
  erewrite tmap2_ok by (cbn [shape tmap]; rewrite Sfc; bshape).
  cbn [bind].
  eexists; split; [reflexivity |].
  cbn [r_f r_h1 r_h2 r_h_Amp2 r_An r_symmetry_energy shape tmap item].
  repeat (split; [assumption || reflexivity |]).
  split.
  - intros idx Hidx.
    rewrite Shc, Sfc; cbn [shape tmap item].
    rewrite !(bindex_same _ _ Hidx).
    repeat split; reflexivity.
  - intros Fx Fcodes Hh2 Hw2.
    destruct (get_filters_finite self h w H lgf Hwf Fcodes Hh2 Hw2 Hget)
      as (FH & Flgf).
    assert (FIMF : cfin_on IMF).
    { intros idx Hidx; cbn [shape IMF] in Hidx.
      apply in_range_4_inv in Hidx as (b & e & i & j & -> & Hb & He & Hi & Hj).
      unfold IMF; cbn [item shape tmap]; rewrite SIM, Slgf.
      destruct (broadcast_channel_index n c (scales self) d h w b e i j
                  Hd Hb He Hi Hj) as (R1 & R2).
      apply cmul_finite.
      - apply FIM; [| rewrite SIM; exact R1].
        intros idx Hidx; cbn [tmap item]; apply of_real_finite.
        now apply Fx.
      - apply of_real_finite, Flgf; rewrite Slgf; exact R2. }
    assert (FIMFH : cfin_on IMFH).
    { intros idx Hidx; cbn [shape IMFH] in Hidx.
      pose proof Hidx as Hidx'.
      apply in_range_4_inv in Hidx' as (b & e & i & j & -> & Hb & He & Hi & Hj).
      unfold IMFH; cbn [item]; rewrite SH.
      change (shape IMF) with [n; d; h; w].
      rewrite (bindex_same _ _ Hidx), bindex_24 by assumption.
      apply cmul_finite; [now apply FIMF |].
      apply FH; rewrite SH; auto with shapes. }
    specialize (Ffc FIMF); specialize (Fhc FIMFH).
    repeat split; intros idx Hidx; cbn [shape tmap item] in *.
    + apply Ffc, Hidx.
    + apply Fhc, Hidx.
    + apply Fhc, Hidx.
Qed.

Lemma sum_dim1_ok (t : tensor float) (n d h w : nat) :
  shape t = [n; d; h; w] ->
  exists s,
    sum_dim 1 t = Ok s
    /\ shape s = [n; h; w]
    /\ forall b i j,
         item s [b; i; j] = fsum_upto d (fun k => item t [b; k; i; j]).
Proof.
  intros Hs.
  rewrite sum_dim_ok by (rewrite Hs; simpl; lia).
  eexists; split; [reflexivity |].
  cbn [shape item]; rewrite Hs.
  split; reflexivity.
Qed.

Lemma sum_scales_ok (r : responses) (n d h w : nat) :
  shape (r_f r) = [n; d; h; w] ->
  shape (r_h1 r) = [n; d; h; w] ->
  shape (r_h2 r) = [n; d; h; w] ->
  shape (r_h_Amp2 r) = [n; d; h; w] ->
  shape (r_An r) = [n; d; h; w] ->
  shape (r_symmetry_energy r) = [n; d; h; w] ->
  exists s,
    sum_scales r = Ok s
    /\ (shape (r_f s) = [n; h; w] /\ shape (r_h1 s) = [n; h; w]
        /\ shape (r_h2 s) = [n; h; w] /\ shape (r_h_Amp2 s) = [n; h; w]
        /\ shape (r_An s) = [n; h; w]
        /\ shape (r_symmetry_energy s) = [n; h; w])
    /\ forall b i j,
         item (r_f s) [b; i; j]
         = fsum_upto d (fun k => item (r_f r) [b; k; i; j])
         /\ item (r_h1 s) [b; i; j]
            = fsum_upto d (fun k => item (r_h1 r) [b; k; i; j])
         /\ item (r_h2 s) [b; i; j]
            = fsum_upto d (fun k => item (r_h2 r) [b; k; i; j])
         /\ item (r_h_Amp2 s) [b; i; j]
            = fsum_upto d (fun k => item (r_h_Amp2 r) [b; k; i; j])
         /\ item (r_An s) [b; i; j]
            = fsum_upto d (fun k => item (r_An r) [b; k; i; j])
         /\ item (r_symmetry_energy s) [b; i; j]
            = fsum_upto d (fun k => item (r_symmetry_energy r) [b; k; i; j]).
Proof.
  intros S1 S2 S3 S4 S5 S6.
  unfold sum_scales.
  destruct (sum_dim1_ok _ n d h w S1) as (t1 & -> & T1 & I1).
  destruct (sum_dim1_ok _ n d h w S2) as (t2 & -> & T2 & I2).
  destruct (sum_dim1_ok _ n d h w S3) as (t3 & -> & T3 & I3).
  destruct (sum_dim1_ok _ n d h w S4) as (t4 & -> & T4 & I4).
  destruct (sum_dim1_ok _ n d h w S5) as (t5 & -> & T5 & I5).
  destruct (sum_dim1_ok _ n d h w S6) as (t6 & -> & T6 & I6).
  cbn [bind].
  eexists; split; [reflexivity |].
  cbn [r_f r_h1 r_h2 r_h_Amp2 r_An r_symmetry_energy].
  split; [repeat split; assumption |].
  intros b i j; repeat split; auto.
Qed.

Lemma broadcast_same3 (n h w : nat) :
  broadcast_shapes [n; h; w] [n; h; w] = Some [n; h; w].
Proof. bshape. Qed.

Lemma broadcast_keepdim (n h w : nat) :
  broadcast_shapes [n; h; w] [n; 1; 1]%nat = Some [n; h; w].
Proof. bshape. Qed.

Lemma phase_asym_of_ok (self : Mono2D) (s : responses) (n h w : nat) :
  shape (r_symmetry_energy s) = [n; h; w] ->
  shape (r_An s) = [n; h; w] ->
  exists pa,
    phase_asym_of self s = Ok pa
    /\ shape pa = [n; h; w]
    /\ forall idx, in_range idx [n; h; w] ->
         item pa idx
         = fdiv (fclamp_min 0
                   (fsub (item (r_symmetry_energy s) idx) (of_Q (T self))))
                (fadd (item (r_An s) idx) (of_Q (episilon self))).
Proof.
  intros S1 S2; unfold phase_asym_of.
  erewrite tmap2_ok
    by (cbn [shape tmap]; rewrite S1, S2; apply broadcast_same3).
  eexists; split; [reflexivity |]; split; [reflexivity |].
  intros idx Hidx.
  cbn [item shape tmap]; rewrite S1, S2.
  now rewrite !(bindex_same _ _ Hidx).
Qed.

(** ** Min-max normalisation *)

Lemma fold_left_map_r {A B : Type} (op : A -> A -> A) (f : B -> A)
  (l : list B) (a : A) :
  fold_left (fun acc c => op acc (f c)) l a = fold_left op (map f l) a.
Proof. revert a; induction l as [| c l IH]; intros a; simpl; auto. Qed.

Lemma cells_nonempty (h w : nat) :
  (1 <= h)%nat -> (1 <= w)%nat -> cells h w <> [].
Proof.
  intros Hh Hw Hc.
  apply (f_equal (@length _)) in Hc.
  unfold cells in Hc; rewrite length_prod, !length_seq in Hc; simpl in Hc.
  nia.
Qed.

Lemma in_cells (h w : nat) (c : nat * nat) :
  In c (cells h w) <-> (fst c < h)%nat /\ (snd c < w)%nat.
Proof.
  destruct c as [i j]; unfold cells; rewrite in_prod_iff, !in_seq; simpl; lia.
Qed.

Lemma reduce_hw_ok (op : float -> float -> float) (x : tensor float)
  (n h w : nat) :
  shape x = [n; h; w] -> (1 <= h)%nat -> (1 <= w)%nat ->
  exists t,
    reduce_hw op x = Ok t
    /\ shape t = [n; 1; 1]%nat
    /\ forall b i j, item t [b; i; j] = reduce op (extent x [b] h w).
Proof.
  intros Hs Hh Hw; unfold reduce_hw; rewrite Hs.
  cbn [length Nat.ltb Nat.leb Nat.sub nth firstn app].
  pose proof (cells_nonempty h w Hh Hw) as Hne.
  unfold extent, reduce.
  destruct (cells h w) as [| c0 cs]; [congruence |].
  eexists; split; [reflexivity |]; split; [reflexivity |].
  intros b i j; cbn [item firstn map hd tl].
  apply fold_left_map_r.
Qed.

Lemma scale_max_min_ok (x : tensor float) (n h w : nat) :
  shape x = [n; h; w] -> (1 <= h)%nat -> (1 <= w)%nat ->
  exists y,
    scale_max_min x = Ok y
    /\ shape y = [n; h; w]
    /\ forall b i j, (b < n)%nat -> (i < h)%nat -> (j < w)%nat ->
         item y [b; i; j]
         = fdiv (fsub (item x [b; i; j]) (reduce fmin (extent x [b] h w)))
                (fsub (reduce fmax (extent x [b] h w))
                      (reduce fmin (extent x [b] h w))).
Proof.
  intros Hs Hh Hw; unfold scale_max_min, amin_hw, amax_hw.
  destruct (reduce_hw_ok fmin x n h w Hs Hh Hw) as (mn & -> & Smn & Imn).
  destruct (reduce_hw_ok fmax x n h w Hs Hh Hw) as (mx & -> & Smx & Imx).
  cbn [bind].
  rewrite (tmap2_ok fsub x mn [n; h; w])
    by (rewrite Hs, Smn; apply broadcast_keepdim).
  cbn [bind].
  rewrite (tmap2_ok fsub mx mn [n; 1; 1]%nat)
    by (rewrite Smx, Smn; bshape).
  cbn [bind].
  rewrite (tmap2_ok fdiv _ _ [n; h; w]) by apply broadcast_keepdim.
  eexists; split; [reflexivity |]; split; [reflexivity |].
  intros b i j Hb Hi Hj.
  cbn [item shape]; rewrite Hs, Smn, Smx.
  assert (E1 : bindex [n; h; w] [b; i; j] = [b; i; j])
    by (apply bindex_same; auto with shapes).
  assert (E2 : bindex [n; 1; 1]%nat [b; i; j] = [b; 0; 0]%nat)
    by (unfold bindex; simpl; now rewrite bcoord).
  assert (E3 : bindex [n; 1; 1]%nat [b; 0; 0]%nat = [b; 0; 0]%nat)
    by (unfold bindex; simpl; now rewrite bcoord).
  rewrite E1, E1, E2, E3, !Imn, Imx.
  reflexivity.
Qed.

Lemma fold_fmin_fin (l : list R) (a : R) :
  fold_left fmin (map Fin l) (Fin a) = Fin (fold_left Rmin l a).
Proof.
  revert a; induction l as [| b l IH]; intros a; simpl; [reflexivity |].
  unfold Rmin; destruct (Rle_dec a b); apply IH.
Qed.

Lemma fold_fmax_fin (l : list R) (a : R) :
  fold_left fmax (map Fin l) (Fin a) = Fin (fold_left Rmax l a).
Proof.
  revert a; induction l as [| b l IH]; intros a; simpl; [reflexivity |].
  unfold Rmax; destruct (Rle_dec a b); apply IH.
Qed.

Lemma fold_Rmin_spec (l : list R) (a : R) :
  In (fold_left Rmin l a) (a :: l)
  /\ forall x, In x (a :: l) -> fold_left Rmin l a <= x.
Proof.
  revert a; induction l as [| b l IH]; intros a; simpl.
  - split; [now left | intros x [<- | []]; lra].
  - destruct (IH (Rmin a b)) as [Hin Hle]; split.
    + destruct Hin as [Hin | Hin]; [| now right; right].
      rewrite <- Hin; unfold Rmin; destruct (Rle_dec a b); auto.
    + intros x [<- | [<- | Hx]].
      * apply Rle_trans with (Rmin a b); [apply Hle; now left | apply Rmin_l].
      * apply Rle_trans with (Rmin a b); [apply Hle; now left | apply Rmin_r].
      * apply Hle; now right.
Qed.

Lemma fold_Rmax_spec (l : list R) (a : R) :
  In (fold_left Rmax l a) (a :: l)
  /\ forall x, In x (a :: l) -> x <= fold_left Rmax l a.
Proof.
  revert a; induction l as [| b l IH]; intros a; simpl.
  - split; [now left | intros x [<- | []]; lra].
  - destruct (IH (Rmax a b)) as [Hin Hle]; split.
    + destruct Hin as [Hin | Hin]; [| now right; right].
      rewrite <- Hin; unfold Rmax; destruct (Rle_dec a b); auto.
    + intros x [<- | [<- | Hx]].
      * apply Rle_trans with (Rmax a b); [apply Rmax_l | apply Hle; now left].
      * apply Rle_trans with (Rmax a b); [apply Rmax_r | apply Hle; now left].
      * apply Hle; now right.
Qed.

(** The extent of a sample with finite values: its minimum and maximum are
    finite, bound every value, and are attained. *)
Lemma extent_finite (x : tensor float) (b h w : nat) :
  (1 <= h)%nat -> (1 <= w)%nat ->
  (forall i j, (i < h)%nat -> (j < w)%nat -> is_finite (item x [b; i; j])) ->
  exists m M,
    reduce fmin (extent x [b] h w) = Fin m
    /\ reduce fmax (extent x [b] h w) = Fin M
    /\ (forall i j, (i < h)%nat -> (j < w)%nat ->
          exists v, item x [b; i; j] = Fin v /\ m <= v <= M)
    /\ (exists i j, (i < h)%nat /\ (j < w)%nat /\ item x [b; i; j] = Fin m)
    /\ (exists i j, (i < h)%nat /\ (j < w)%nat /\ item x [b; i; j] = Fin M).
Proof.
  intros Hh Hw Hfin.
  set (val := fun c : nat * nat => real_of (item x [b; fst c; snd c])).
  assert (Hval : forall c, In c (cells h w) ->
                   item x [b; fst c; snd c] = Fin (val c)).
  { intros c Hc; apply in_cells in Hc as [Hi Hj].
    specialize (Hfin _ _ Hi Hj); unfold val.
    destruct (item x [b; fst c; snd c]); simpl in *; tauto. }
  assert (Hext : extent x [b] h w = map Fin (map val (cells h w))).
  { unfold extent; rewrite map_map; apply map_ext_in.
    intros c Hc; cbn [app]; now apply Hval. }
  pose proof (cells_nonempty h w Hh Hw) as Hne.
  rewrite Hext; unfold reduce.
  destruct (cells h w) as [| c0 cs] eqn:Hcells; [congruence |].
  cbn [map hd tl].
  rewrite fold_fmin_fin, fold_fmax_fin.
  destruct (fold_Rmin_spec (map val cs) (val c0)) as [Hmin_in Hmin_le].
  destruct (fold_Rmax_spec (map val cs) (val c0)) as [Hmax_in Hmax_le].
  change (val c0 :: map val cs) with (map val (c0 :: cs)) in *.
  exists (fold_left Rmin (map val cs) (val c0)),
         (fold_left Rmax (map val cs) (val c0)).
  repeat split.
  - intros i j Hi Hj.
    assert (Hc : In (i, j) (c0 :: cs)) by (rewrite <- Hcells; now apply in_cells).
    exists (val (i, j)); split; [apply (Hval (i, j)); exact Hc |].
    split; [apply Hmin_le | apply Hmax_le]; now apply in_map.
  - apply in_map_iff in Hmin_in as (c & Hc & Hin).
    assert (Hin' : In c (cells h w)) by now rewrite Hcells.
    exists (fst c), (snd c); apply in_cells in Hin' as [Hi Hj].
    repeat split; try assumption.
    rewrite <- Hc; apply Hval; exact Hin.
  - apply in_map_iff in Hmax_in as (c & Hc & Hin).
    assert (Hin' : In c (cells h w)) by now rewrite Hcells.
    exists (fst c), (snd c); apply in_cells in Hin' as [Hi Hj].
    repeat split; try assumption.
    rewrite <- Hc; apply Hval; exact Hin.
Qed.





(** ** Output assembly *)

Lemma orientation_of_ok (s : responses) (n h w : nat) :
  shape (r_h1 s) = [n; h; w] -> shape (r_h2 s) = [n; h; w] ->
  (1 <= h)%nat -> (1 <= w)%nat ->
  exists ori, orientation_of s = Ok ori /\ shape ori = [n; h; w].
Proof.
  intros S1 S2 Hh Hw; unfold orientation_of.
  rewrite (tmap2_ok fatan2 _ _ [n; h; w])
    by (cbn [shape tmap]; rewrite S1, S2; apply broadcast_same3).
  cbn [bind].
  match goal with
  | |- context [scale_max_min ?t] =>
      destruct (scale_max_min_ok t n h w eq_refl Hh Hw) as (y & Hy & Sy & _)
  end.
  exists y; split; assumption.
Qed.

Lemma phase_of_ok (s : responses) (n h w : nat) :
  shape (r_f s) = [n; h; w] ->
  shape (r_h1 s) = [n; h; w] -> shape (r_h2 s) = [n; h; w] ->
  (1 <= h)%nat -> (1 <= w)%nat ->
  exists ft, phase_of s = Ok ft /\ shape ft = [n; h; w].
Proof.
  intros S0 S1 S2 Hh Hw; unfold phase_of.
  rewrite (tmap2_ok fadd _ _ [n; h; w])
    by (cbn [shape tmap]; rewrite S1, S2; apply broadcast_same3).
  cbn [bind].
  rewrite (tmap2_ok fdiv _ _ [n; h; w])
    by (cbn [shape tmap]; rewrite S0; apply broadcast_same3).
  cbn [bind].
  match goal with
  | |- context [scale_max_min ?t] =>
      destruct (scale_max_min_ok t n h w eq_refl Hh Hw) as (y & Hy & Sy & _)
  end.
  exists y; split; assumption.
Qed.

Lemma shape_eqb_refl (s : list nat) : shape_eqb s s = true.
Proof.
  unfold shape_eqb.
  destruct (list_eq_dec Nat.eq_dec s s); [reflexivity | congruence].
Qed.

Lemma stack_ok {A : Type} (ts : list (tensor A)) (s : list nat) (d : nat)
  (dflt : tensor A) :
  ts <> [] -> (forall t, In t ts -> shape t = s) -> (d <= length s)%nat ->
  exists out,
    stack ts d = Ok out
    /\ shape out = insert_at d (length ts) s
    /\ forall idx, (nth d idx 0 < length ts)%nat ->
         item out idx = item (nth (nth d idx 0%nat) ts dflt) (remove_at d idx).
Proof.
  intros Hne Hall Hd.
  destruct ts as [| t0 rest]; [congruence |].
  unfold stack.
  assert (H0 : shape t0 = s) by (apply Hall; now left).
  assert (Hf : forallb (fun t => shape_eqb (shape t) (shape t0)) rest = true).
  { apply forallb_forall; intros t Ht.
    rewrite H0, (Hall t) by now right.
    apply shape_eqb_refl. }
  rewrite Hf, H0.
  apply Nat.leb_le in Hd; rewrite Hd.
  eexists; split; [reflexivity |]; split; [reflexivity |].
  intros idx Hidx; cbn [item].
  now rewrite (nth_indep _ t0 dflt Hidx).
Qed.

Lemma selected_restrict (self : Mono2D) (x ft ori pa : tensor float) :
  selected self x ft ori pa
  = restrict [(return_input self, x); (return_phase self, ft);
              (return_ori self, ori); (return_phase_asym self, pa)].
Proof.
  unfold selected, restrict; simpl.
  destruct (return_input self), (return_phase self), (return_ori self),
    (return_phase_asym self); reflexivity.
Qed.


Lemma selected_length (self : Mono2D) (x ft ori pa : tensor float) :
  length (selected self x ft ori pa) = enabled_count self.
Proof.
  unfold selected, enabled_count.
  destruct (return_input self), (return_phase self), (return_ori self),
    (return_phase_asym self); reflexivity.
Qed.




(** ** Aggregation over dimension 1 *)

(** C2 (amended: one sum, over the broadcast of channels and scales).  For
    an input of shape (N, C, H, W) whose channel count broadcasts against
    the number of scales to D (C = 1, one scale, or C equal to the number of
    scales), each of the six per-scale quantities has shape (N, D, H, W) and
    is summed once over dimension 1, so each aggregate is one (N, H, W) map
    per batch sample with [aggregate[b,i,j] = sum over k < D of
    quantity[b,k,i,j]].  With one input channel D is the number of scales;
    with one scale D is the number of channels. *)
Theorem responses_summed_over_dim1 :
  forall self x n c h w d,
    well_formed self ->
    shape x = [n; c; h; w] -> (1 <= h)%nat -> (1 <= w)%nat ->
    bdim c (scales self) = Some d ->
    (c = 1%nat -> d = scales self)
    /\ (scales self = 1%nat -> d = c)
    /\ exists r s,
         monogenic self x = Ok r
         /\ sum_scales r = Ok s
         /\ Forall (fun q => shape (q r) = [n; d; h; w] /\ shape (q s) = [n; h; w]
                             /\ forall b i j,
                                  item (q s) [b; i; j]
                                  = fsum_upto d (fun k => item (q r) [b; k; i; j]))
              [r_f; r_h1; r_h2; r_h_Amp2; r_An; r_symmetry_energy].
Proof.
  intros self x n c h w d Hwf Hx Hh Hw Hd.
  pose proof (proj1 (bdim_cases _ _ _) Hd) as Hcases.
  split; [| split].
  - intros ->.
    destruct Hcases as [[E ->] | [[_ ->] | [E ->]]]; congruence.
  - intros E; rewrite E in Hcases.
    destruct Hcases as [[E' ->] | [[E' ->] | [_ ->]]]; congruence.
  - destruct (monogenic_ok self x n c h w d Hwf Hx Hh Hw Hd)
      as (r & Hr & R1 & R2 & R3 & R4 & R5 & R6 & _).
    destruct (sum_scales_ok r n d h w R1 R2 R3 R4 R5 R6)
      as (s & Hs & (S1 & S2 & S3 & S4 & S5 & S6) & Isum).
    exists r, s; split; [assumption |]; split; [assumption |].
    repeat constructor; try assumption; intros b i j; apply Isum.
Qed.

Lemma responses_summed_over_dim1_witness :
  exists r s,
    monogenic three_scale_layer (full [2; 1; 4; 5]%nat (Fin 1)) = Ok r
    /\ sum_scales r = Ok s
    /\ shape (r_An r) = [2; 3; 4; 5]%nat
    /\ shape (r_An s) = [2; 4; 5]%nat
    /\ forall b i j,
         item (r_An s) [b; i; j]
         = fsum_upto 3 (fun k => item (r_An r) [b; k; i; j]).
Proof.
  destruct (responses_summed_over_dim1 three_scale_layer
              (full [2; 1; 4; 5]%nat (Fin 1)) 2 1 4 5 3)
    as (_ & _ & r & s & Hr & Hs & Hall).
  - now apply layer_of_wf.
  - reflexivity.
  - lia.
  - lia.
  - reflexivity.
  - exists r, s; split; [assumption |]; split; [assumption |].
    rewrite Forall_forall in Hall.
    destruct (Hall r_An) as (S1 & S2 & I); [simpl; tauto |].
    repeat split; assumption.
Defined.

(** C2 as stated fails for two input channels and three scales: channel and
    scale share dimension 1 and do not broadcast, so no aggregate is
    produced. *)
Lemma monogenic_channels_against_scales :
  __init__ no_draws 3 (Some 0.55%Q) (Some [6%Q; 30%Q; 60%Q]) None
           true false false false
  = Ok three_scale_layer
  /\ monogenic three_scale_layer (full [1; 2; 2; 2]%nat (Fin 0))
     = Raise RuntimeError
  /\ forward three_scale_layer (full [1; 2; 2; 2]%nat (Fin 0))
     = Raise RuntimeError.
Proof.
  split; [now apply (layer_of_init no_draws [6%Q; 30%Q; 60%Q] 0.55) |].
  split; vm_compute; reflexivity.
Qed.


(** ** Phase asymmetry *)









(** ** Further properties of the filters and of the output *)



(** The stages of [forward] up to the list handed to [torch.stack]. *)
Lemma forward_stages (self : Mono2D) (x : tensor float) (n c h w d : nat) :
  well_formed self ->
  shape x = [n; c; h; w] -> (1 <= h)%nat -> (1 <= w)%nat ->
  bdim c (scales self) = Some d ->
  exists pa ori ft,
    shape pa = [n; h; w] /\ shape ori = [n; h; w] /\ shape ft = [n; h; w]
    /\ forward self x = stack (selected self x ft ori pa) 1.
Proof.
  intros Hwf Hx Hh Hw Hd.
  destruct (monogenic_ok self x n c h w d Hwf Hx Hh Hw Hd)
    as (r & Hr & R1 & R2 & R3 & R4 & R5 & R6 & _).
  destruct (sum_scales_ok r n d h w R1 R2 R3 R4 R5 R6)
    as (s & Hs & (S1 & S2 & S3 & S4 & S5 & S6) & _).
  destruct (phase_asym_of_ok self s n h w S6 S5) as (pa & Hpa & Spa & _).
  destruct (orientation_of_ok s n h w S2 S3 Hh Hw) as (ori & Hori & Sori).
  destruct (phase_of_ok s n h w S1 S2 S3 Hh Hw) as (ft & Hft & Sft).
  exists pa, ori, ft; repeat (split; [assumption |]).
  unfold forward; rewrite Hr; cbn [bind].
  rewrite Hs; cbn [bind]; rewrite Hpa; cbn [bind].
  rewrite Hori; cbn [bind]; rewrite Hft; reflexivity.
Qed.

(** X2.  With the raw input as the only selected output, [forward] stacks the
    four-dimensional input alone: the result has five dimensions,
    (N, 1, C, H, W), and holds the input unchanged. *)
Theorem forward_input_alone :
  forall self x n c h w d,
    well_formed self ->
    shape x = [n; c; h; w] -> (1 <= h)%nat -> (1 <= w)%nat ->
    bdim c (scales self) = Some d ->
    return_input self = true -> return_phase self = false ->
    return_ori self = false -> return_phase_asym self = false ->
    exists out,
      forward self x = Ok out
      /\ shape out = [n; 1; c; h; w]%nat
      /\ forall b k i j, item out [b; 0; k; i; j]%nat = item x [b; k; i; j].
Proof.
  intros self x n c h w d Hwf Hx Hh Hw Hd Hin Hph Hori Hpa.
  destruct (forward_stages self x n c h w d Hwf Hx Hh Hw Hd)
    as (pa & ori & ft & _ & _ & _ & ->).
  unfold selected; rewrite Hin, Hph, Hori, Hpa; cbn [app].
  destruct (stack_ok [x] [n; c; h; w] 1 x) as (out & -> & Sout & Iout).
  - discriminate.
  - intros t [<- | []]; exact Hx.
  - simpl; lia.
  - exists out; split; [reflexivity |]; split; [exact Sout |].
    intros b k i j; rewrite Iout by (simpl; lia); reflexivity.
Qed.

Lemma forward_input_alone_witness :
  exists out,
    forward (layer_of [10%Q] 0.55 false false false true)
            (full [2; 1; 3; 3]%nat (Fin 1)) = Ok out
    /\ shape out = [2; 1; 1; 3; 3]%nat.
Proof.
  destruct (forward_input_alone (layer_of [10%Q] 0.55 false false false true)
              (full [2; 1; 3; 3]%nat (Fin 1)) 2 1 3 3 1)
    as (out & Hout & Sout & _); try reflexivity; try lia.
  - now apply layer_of_wf.
  - exists out; split; assumption.
Defined.



(** X4.  What the assignment [lgf[0,0] = 0] does to the combined mask of every
    well-formed layer: row 0 of scale 0 is cleared, and every other entry,
    the zero-frequency entries of the later scales included, is the product
    of the log-Gabor value on the patched radius and the low-pass value on
    the unpatched radius. *)
Theorem combined_mask_entries :
  forall self rows cols,
    well_formed self -> (1 <= rows)%nat -> (1 <= cols)%nat ->
    exists H lgf sidx,
      get_filters self rows cols = Ok (H, lgf)
      /\ shape lgf = [scales self; rows; cols]
      /\ (forall j, (j < cols)%nat -> item lgf [0; 0; j]%nat = Fin 0)
      /\ (forall s i j,
            (s < scales self)%nat -> (i < rows)%nat -> (j < cols)%nat ->
            (s <> 0 \/ i <> 0)%nat ->
            item lgf [s; i; j]
            = fmul (logGabor_value self sidx s
                      (item (patched_radius (rows, cols)) [i; j]))
                   (lowpass_value 0.4 20
                      (item (mesh_radius (rows, cols)) [i; j]))).
Proof.
  intros self rows cols Hwf Hr Hc.
  destruct (get_filters_ok self rows cols Hwf Hr Hc)
    as (H & lgf & sidx & Hget & _ & Slgf & _ & Ilgf).
  pose proof Hwf as ((k & Hk & Hpos) & _).
  assert (Hsc : scales self = k) by (unfold scales; now rewrite Hk).
  exists H, lgf, sidx; repeat (split; [assumption |]).
  split.
  - intros j Hj; rewrite Ilgf by (rewrite ?Hsc; lia); reflexivity.
  - intros s i j Hs Hi Hj Hne; rewrite Ilgf by assumption.
    destruct ((s =? 0) && (i =? 0))%nat eqn:E; [| reflexivity].
    apply andb_true_iff in E as [E1 E2].
    apply Nat.eqb_eq in E1, E2; lia.
Qed.

Lemma combined_mask_entries_witness :
  exists H lgf,
    get_filters two_scale_layer 3 3 = Ok (H, lgf)
    /\ shape lgf = [2; 3; 3]%nat
    /\ item lgf [0; 0; 2]%nat = Fin 0.
Proof.
  destruct (combined_mask_entries two_scale_layer 3 3)
    as (H & lgf & sidx & Hget & Slgf & Hrow & _).
  - now apply layer_of_wf.
  - lia.
  - lia.
  - exists H, lgf; repeat split; try assumption.
    apply Hrow; lia.
Defined.

(** ** Errors at the edges of the inputs *)

(** X5.  With a valid cut-off and order, [lowpassfilter] raises
    [UnboundLocalError] on a one-element size (it rebinds [sze] and then reads
    [rows], which was never assigned) and [IndexError] on an empty size; a
    size of more than two elements is read at its first two. *)
Theorem lowpassfilter_size_errors :
  forall cutoff n (k : positive),
    (0 <= cutoff)%Q -> (cutoff <= 1 # 2)%Q -> (n == inject_Z (Zpos k))%Q ->
    (forall m, lowpassfilter [m] cutoff n = Raise UnboundLocalError)
    /\ lowpassfilter [] cutoff n = Raise IndexError
    /\ (forall rows cols rest,
          lowpassfilter (rows :: cols :: rest) cutoff n
          = lowpassfilter [rows; cols] cutoff n
          /\ raises (lowpassfilter (rows :: cols :: rest) cutoff n) = false).
Proof.
  intros cutoff n k H0 H1 Hn.
  assert (Hg : negb (Qeq_bool (Qmod1 n) 0) || Qlt_bool n 1 = false)
    by (apply positive_integer_guard; now exists k).
  apply Qlt_bool_false_iff in H0 as H0', H1 as H1'.
  split; [| split; [| intros rows cols rest; split]].
  - intros m; unfold lowpassfilter; rewrite H0', H1', Hg; reflexivity.
  - unfold lowpassfilter; rewrite H0', H1', Hg; reflexivity.
  - unfold lowpassfilter; rewrite H0', H1', Hg.
    destruct rest; reflexivity.
  - unfold lowpassfilter; rewrite H0', H1', Hg.
    cbn [orb length Nat.eqb bind].
    destruct rest; cbn [length Nat.eqb bind];
      now destruct (mesh_range (rows, cols)) as [[u1 u2] radius].
Qed.

Lemma lowpassfilter_size_errors_witness :
  lowpassfilter [5%nat] 0.4 10 = Raise UnboundLocalError
  /\ lowpassfilter [] 0.4 10 = Raise IndexError
  /\ raises (lowpassfilter [2; 3; 4]%nat 0.4 10) = false.
Proof.
  destruct (lowpassfilter_size_errors 0.4 10 10) as (H1 & H2 & H3);
    try reflexivity; try (unfold Qle; simpl; lia).
  split; [apply H1 |]; split; [exact H2 | apply H3].
Defined.

(** X6.  [forward] unpacks [x.size()] into four names before anything else:
    an input that is not four-dimensional raises [ValueError], whatever the
    layer. *)
Theorem forward_needs_four_dimensions :
  forall self x,
    length (shape x) <> 4%nat -> forward self x = Raise ValueError.
Proof.
  intros self x Hlen; unfold forward, monogenic.
  destruct (shape x) as [| a [| b [| c [| d [| e l]]]]]; simpl in Hlen;
    try reflexivity.
  congruence.
Qed.

Lemma forward_needs_four_dimensions_witness :
  forward one_scale_layer (full [4; 4]%nat (Fin 1)) = Raise ValueError.
Proof.
  apply forward_needs_four_dimensions; simpl; lia.
Defined.

(** X7.  With every output flag off the list handed to [torch.stack] is
    empty, and [forward] raises [RuntimeError] after all the filtering has
    been done. *)
Theorem forward_nothing_selected :
  forall self x n c h w d,
    well_formed self ->
    shape x = [n; c; h; w] -> (1 <= h)%nat -> (1 <= w)%nat ->
    bdim c (scales self) = Some d ->
    enabled_count self = 0%nat ->
    forward self x = Raise RuntimeError.
Proof.
  intros self x n c h w d Hwf Hx Hh Hw Hd Hen.
  destruct (forward_stages self x n c h w d Hwf Hx Hh Hw Hd)
    as (pa & ori & ft & _ & _ & _ & ->).
  pose proof (selected_length self x ft ori pa) as Hlen; rewrite Hen in Hlen.
  destruct (selected self x ft ori pa); [reflexivity | discriminate].
Qed.

Lemma forward_nothing_selected_witness :
  forward (layer_of [10%Q] 0.55 false false false false)
          (full [1; 1; 2; 2]%nat (Fin 1)) = Raise RuntimeError.
Proof.
  apply (forward_nothing_selected _ _ 1 1 2 2 1); try reflexivity; try lia.
  now apply layer_of_wf.
Defined.

(** ** The frequency grid *)

Lemma shifted_bounds (n k : nat) :
  (2 <= n)%nat -> - (1 / 2) <= shifted n k <= 1 / 2.
Proof.
  intros Hn; unfold shifted.
  pose proof (Nat.div_mod_eq n 2) as Hdm.
  pose proof (Nat.mod_upper_bound n 2 ltac:(lia)) as Hm2.
  pose proof (Nat.mod_upper_bound (k + n / 2) n ltac:(lia)) as Hm.
  set (q := (n / 2)%nat) in *.
  set (m := ((k + q) mod n)%nat) in *.
  assert (Hq : (1 <= q)%nat) by lia.
  assert (HqR : 1 <= INR q) by (change 1 with (INR 1); now apply le_INR).
  assert (Hle : (m <= 2 * q)%nat) by lia.
  apply le_INR in Hle; rewrite mult_INR in Hle; simpl INR in Hle.
  pose proof (pos_INR m) as Hm0.
  assert (Hinv : 0 < / (2 * INR q)) by (apply Rinv_0_lt_compat; lra).
  assert (E : (INR m - INR q) / (2 * INR q) * (2 * INR q) = INR m - INR q)
    by (field; lra).
  split; apply Rmult_le_reg_r with (2 * INR q); try lra; rewrite E; lra.
Qed.

(** X8.  On a grid of at least two samples per axis the mesh coordinates
    are finite numbers in [-0.5, 0.5]; [u1] depends on the column only and
    [u2] on the row only; the radius is the Euclidean norm of the two and
    its square is at most 1/2. *)
Theorem mesh_coordinates_normalised :
  forall rows cols i j,
    (2 <= rows)%nat -> (2 <= cols)%nat ->
    exists a b,
      item (mesh_u1 (rows, cols)) [i; j] = Fin a
      /\ item (mesh_u2 (rows, cols)) [i; j] = Fin b
      /\ - (1 / 2) <= a <= 1 / 2
      /\ - (1 / 2) <= b <= 1 / 2
      /\ item (mesh_u1 (rows, cols)) [0%nat; j] = Fin a
      /\ item (mesh_u2 (rows, cols)) [i; 0%nat] = Fin b
      /\ item (mesh_radius (rows, cols)) [i; j] = Fin (sqrt (a ^ 2 + b ^ 2))
      /\ sqrt (a ^ 2 + b ^ 2) ^ 2 <= 1 / 2.
Proof.
  intros rows cols i j Hr Hc.
  exists (shifted cols j), (shifted rows i).
  pose proof (shifted_bounds cols j Hc) as Ha.
  pose proof (shifted_bounds rows i Hr) as Hb.
  rewrite !mesh_u1_fin, !mesh_u2_fin, mesh_radius_fin by assumption.
  repeat (split; [reflexivity || lra |]).
  rewrite <- Rsqr_pow2, Rsqr_sqrt by nra.
  nra.
Qed.

Lemma mesh_coordinates_normalised_witness :
  exists a b,
    item (mesh_u1 (4, 5)%nat) [3; 2]%nat = Fin a
    /\ item (mesh_u2 (4, 5)%nat) [3; 2]%nat = Fin b
    /\ - (1 / 2) <= a <= 1 / 2 /\ - (1 / 2) <= b <= 1 / 2.
Proof.
  destruct (mesh_coordinates_normalised 4 5 3 2 ltac:(lia) ltac:(lia))
    as (a & b & Ha & Hb & Ra & Rb & _).
  exists a, b; repeat split; assumption || apply Ra || apply Rb.
Defined.

(** X9.  On a grid of at least two samples per axis the radius vanishes at
    index (0, 0) and nowhere else, so the single assignment
    [radius[0,0] = 1.] leaves a strictly positive radius at every grid
    point, unchanged away from (0, 0). *)
Theorem radius_vanishes_only_at_origin :
  forall rows cols i j,
    (2 <= rows)%nat -> (2 <= cols)%nat ->
    (i < rows)%nat -> (j < cols)%nat ->
    exists rho prho,
      item (mesh_radius (rows, cols)) [i; j] = Fin rho
      /\ (rho = 0 <-> i = 0%nat /\ j = 0%nat)
      /\ item (patched_radius (rows, cols)) [i; j] = Fin prho
      /\ 0 < prho
      /\ (~ (i = 0%nat /\ j = 0%nat) -> prho = rho).
Proof.
  intros rows cols i j Hr Hc Hi Hj.
  destruct (patched_radius_fin rows cols i j Hr Hc Hi Hj)
    as (prho & Hprho & Hpos).
  exists (sqrt (shifted cols j ^ 2 + shifted rows i ^ 2)), prho.
  split; [now apply mesh_radius_fin |].
  split; [| split; [exact Hprho | split; [exact Hpos |]]].
  - split.
    + intros Hz.
      apply sqrt_eq_0 in Hz;
        [| pose proof (pow2_ge_0 (shifted cols j));
           pose proof (pow2_ge_0 (shifted rows i)); lra].
      assert (Hj0 : shifted cols j = 0).
      { pose proof (pow2_ge_0 (shifted cols j));
          pose proof (pow2_ge_0 (shifted rows i)).
        assert (E : shifted cols j ^ 2 = 0) by lra.
        rewrite <- Rsqr_pow2 in E; now apply Rsqr_0_uniq. }
      assert (Hi0 : shifted rows i = 0).
      { pose proof (pow2_ge_0 (shifted cols j));
          pose proof (pow2_ge_0 (shifted rows i)).
        assert (E : shifted rows i ^ 2 = 0) by lra.
        rewrite <- Rsqr_pow2 in E; now apply Rsqr_0_uniq. }
      split.
      * destruct (Nat.eq_dec i 0) as [| Hn]; [assumption |].
        exfalso; exact (shifted_nonzero rows i Hr Hi Hn Hi0).
      * destruct (Nat.eq_dec j 0) as [| Hn]; [assumption |].
        exfalso; exact (shifted_nonzero cols j Hc Hj Hn Hj0).
    + intros [-> ->].
      rewrite !shifted_origin by lia.
      replace (0 ^ 2 + 0 ^ 2) with 0 by ring; apply sqrt_0.
  - intros Hne.
    unfold patched_radius, assigned in Hprho; cbn [item] in Hprho.
    destruct ((i =? 0) && (j =? 0))%nat eqn:E.
    + apply andb_true_iff in E as [E1 E2].
      apply Nat.eqb_eq in E1, E2; tauto.
    + rewrite mesh_radius_fin in Hprho by assumption.
      now injection Hprho as <-.
Qed.

Lemma radius_vanishes_only_at_origin_witness :
  exists rho,
    item (mesh_radius (3, 4)%nat) [1; 0]%nat = Fin rho /\ rho <> 0.
Proof.
  destruct (radius_vanishes_only_at_origin 3 4 1 0)
    as (rho & prho & Hrho & Hz & _); try lia.
  exists rho; split; [exact Hrho |].
  intros E; apply Hz in E; lia.
Defined.

(** ** Profiles of the masks *)

Lemma lowpass_antitone (t t' : R) :
  0 <= t -> t <= t' -> 1 / (1 + t') <= 1 / (1 + t).
Proof.
  intros H0 Hle.
  unfold Rdiv; rewrite !Rmult_1_l.
  apply Rinv_le_contravar; lra.
Qed.

(** X10.  The low-pass mask as a function of the radius, for a cut-off in
    (0, 0.5], an integer order and at least two samples per axis: it is
    exactly 1 at the zero-frequency point, it never increases with the
    radius, and it is at least 1/2 exactly on the grid points whose radius
    does not exceed the cut-off. *)
Theorem lowpassfilter_decreasing :
  forall rows cols cutoff n (k : positive),
    (2 <= rows)%nat -> (2 <= cols)%nat ->
    (0 < cutoff)%Q -> (cutoff <= 1 # 2)%Q ->
    (n == inject_Z (Zpos k))%Q ->
    exists mask,
      lowpassfilter [rows; cols] cutoff n = Ok mask
      /\ item mask [0; 0]%nat = Fin 1
      /\ forall i j i' j',
           exists rho rho' v v',
             item (mesh_radius (rows, cols)) [i; j] = Fin rho
             /\ item (mesh_radius (rows, cols)) [i'; j'] = Fin rho'
             /\ item mask [i; j] = Fin v
             /\ item mask [i'; j'] = Fin v'
             /\ (rho <= rho' -> v' <= v)
             /\ (rho <= Q2R cutoff -> 1 / 2 <= v)
             /\ (Q2R cutoff < rho -> v < 1 / 2).
Proof.
  intros rows cols cutoff n k Hr Hc Hpos Hhalf Hn.
  assert (HcR : 0 < Q2R cutoff)
    by (rewrite <- Q2R_0; now apply Qlt_Rlt).
  rewrite (lowpassfilter_ok rows cols cutoff n k)
    by (auto using Qlt_le_weak).
  eexists; split; [reflexivity |]; split.
  - cbn [item tmap].
    rewrite mesh_radius_fin, !shifted_origin by lia.
    replace (sqrt (0 ^ 2 + 0 ^ 2)) with 0
      by (replace (0 ^ 2 + 0 ^ 2) with 0 by ring; now rewrite sqrt_0).
    rewrite lowpass_value_fin by lra.
    f_equal.
    unfold Rdiv at 2; rewrite Rmult_0_l, pow_i by lia.
    field.
  - intros i j i' j'.
    cbn [item tmap].
    rewrite !mesh_radius_fin by assumption.
    set (rho := sqrt (shifted cols j ^ 2 + shifted rows i ^ 2)).
    set (rho' := sqrt (shifted cols j' ^ 2 + shifted rows i' ^ 2)).
    assert (H0 : 0 <= rho) by apply sqrt_pos.
    assert (H0' : 0 <= rho') by apply sqrt_pos.
    assert (Hq : forall r, 0 <= r -> 0 <= r / Q2R cutoff).
    { intros r Hr0; apply Rmult_le_pos; [assumption |].
      left; now apply Rinv_0_lt_compat. }
    exists rho, rho',
      (1 / (1 + (rho / Q2R cutoff) ^ (2 * Pos.to_nat k))),
      (1 / (1 + (rho' / Q2R cutoff) ^ (2 * Pos.to_nat k))).
    rewrite !lowpass_value_fin by lra.
    repeat (split; [reflexivity |]).
    split; [| split].
    + intros Hle.
      apply lowpass_antitone; [apply even_pow_nonneg |].
      apply pow_incr; split; [now apply Hq |].
      apply Rmult_le_compat_r; [| assumption].
      left; now apply Rinv_0_lt_compat.
    + intros Hle.
      assert (Hone : (rho / Q2R cutoff) ^ (2 * Pos.to_nat k) <= 1).
      { rewrite <- (pow1 (2 * Pos.to_nat k)).
        apply pow_incr; split; [now apply Hq |].
        apply Rmult_le_reg_r with (Q2R cutoff); [assumption |].
        unfold Rdiv; rewrite Rmult_assoc, Rinv_l; lra. }
      replace (1 / 2) with (1 / (1 + 1)) by lra.
      apply lowpass_antitone; [apply even_pow_nonneg | assumption].
    + intros Hlt.
      assert (Hone : 1 < (rho / Q2R cutoff) ^ (2 * Pos.to_nat k)).
      { apply Rlt_pow_R1; [| pose proof (Pos2Nat.is_pos k); lia].
        apply Rmult_lt_reg_r with (Q2R cutoff); [assumption |].
        unfold Rdiv; rewrite Rmult_assoc, Rinv_l; lra. }
      replace (1 / 2) with (1 / (1 + 1)) by lra.
      unfold Rdiv; rewrite !Rmult_1_l.
      apply Rinv_lt_contravar; [| lra].
      apply Rmult_lt_0_compat; lra.
Qed.

Lemma lowpassfilter_decreasing_witness :
  exists mask,
    lowpassfilter [4; 4]%nat 0.4 10 = Ok mask
    /\ item mask [0; 0]%nat = Fin 1.
Proof.
  destruct (lowpassfilter_decreasing 4 4 0.4 10 10) as (mask & Hm & H0 & _);
    try reflexivity; try lia.
  - unfold Qle; simpl; lia.
  - exists mask; split; assumption.
Defined.








(** ** What the constructor lets through *)

Lemma init_wls_supplied draws ns s0 ws tr ph pa ori inp self :
  __init__ draws ns s0 (Some ws) tr ph pa ori inp = Ok self ->
  shape (wls self) = [length ws]
  /\ forall i, (i < length ws)%nat ->
       item (wls self) [i]
       = let v := fdiv (fsub (of_Q (nth i ws 0%Q)) (Fin 3)) (Fin 125) in
         flog (fdiv v (fsub (Fin 1) v)).
Proof.
  intros Hinit.
  destruct (init_inv _ _ _ _ _ _ _ _ _ _ Hinit) as (_ & Hw & _).
  unfold initialize_wls in Hw.
  destruct (forallb _ ws); [| discriminate].
  injection Hw as <-; split.
  - simpl; now rewrite length_map.
  - intros i Hi; cbn [item tmap of_list nth].
    set (f := fun w : Q => fdiv (fsub (of_Q w) (of_Q 3)) (of_Q (128 - 3))).
    rewrite (nth_indep _ NaN (f 0%Q)) by (rewrite length_map; exact Hi).
    rewrite map_nth; subst f; cbv beta zeta.
    unfold of_Q at 2 3 5 6; now rewrite Q2R_3, Q2R_125.
Qed.

(** X13.  The constructor stores [nscale] as given and never compares it
    with the supplied wavelengths: the filter bank has one scale per
    supplied wavelength, and [nscale] scales only when none is supplied.
    With at least one scale the filters are built, with that many masks. *)
Theorem scale_count_follows_wavelengths :
  forall draws ns s0 w0 tr ph pa ori inp self,
    __init__ draws ns s0 w0 tr ph pa ori inp = Ok self ->
    nscale self = ns
    /\ scales self = match w0 with
                     | Some ws => length ws
                     | None => Z.to_nat ns
                     end
    /\ forall rows cols,
         (1 <= scales self)%nat -> (1 <= rows)%nat -> (1 <= cols)%nat ->
         exists H lgf,
           get_filters self rows cols = Ok (H, lgf)
           /\ shape lgf = [scales self; rows; cols].
Proof.
  intros draws ns s0 w0 tr ph pa ori inp self Hinit.
  assert (Hsc : scales self = match w0 with
                              | Some ws => length ws
                              | None => Z.to_nat ns
                              end).
  { destruct w0 as [ws |].
    - destruct (init_wls_supplied _ _ _ _ _ _ _ _ _ _ Hinit) as (Hs & _).
      unfold scales; now rewrite Hs.
    - destruct (init_inv _ _ _ _ _ _ _ _ _ _ Hinit) as (_ & Hw & _).
      unfold scales; injection Hw as <-; reflexivity. }
  split; [| split; [exact Hsc |]].
  - unfold __init__ in Hinit.
    destruct (negb (0 <? ns)%Z); [discriminate |].
    destruct (initialize_wls _ _ _ _ _); [| discriminate].
    destruct (initialize_sigmaonf _ _); [| discriminate].
    cbn [bind] in Hinit; injection Hinit as <-; reflexivity.
  - intros rows cols Hk Hr Hc.
    assert (Hne : w0 <> Some []).
    { intros ->; rewrite Hsc in Hk; simpl in Hk; lia. }
    pose proof (init_well_formed _ _ _ _ _ _ _ _ _ _ Hinit Hne) as Hwf.
    destruct (get_filters_ok self rows cols Hwf Hr Hc)
      as (H & lgf & _ & Hget & _ & Slgf & _).
    exists H, lgf; split; assumption.
Qed.

Lemma scale_count_follows_wavelengths_witness :
  exists self,
    __init__ no_draws 5 (Some 0.55%Q) (Some [6%Q; 30%Q]) None
             true false false false = Ok self
    /\ nscale self = 5%Z /\ scales self = 2%nat.
Proof.
  eexists; split; [reflexivity |].
  match goal with
  | |- nscale ?m = _ /\ _ =>
      assert (Hinit : __init__ no_draws 5 (Some 0.55%Q) (Some [6%Q; 30%Q])
                        None true false false false = Ok m) by reflexivity
  end.
  destruct (scale_count_follows_wavelengths _ _ _ _ _ _ _ _ _ _ Hinit)
    as (Hn & Hs & _).
  split; [exact Hn | exact Hs].
Defined.

Lemma logit_below (v : R) :
  v < 0 -> flog (fdiv (Fin v) (fsub (Fin 1) (Fin v))) = NaN.
Proof.
  intros Hv; autorewrite with fin.
  rewrite fdiv_fin by lra.
  assert (Hneg : v / (1 - v) < 0).
  { unfold Rdiv.
    assert (0 < / (1 - v)) by (apply Rinv_0_lt_compat; lra).
    nra. }
  unfold flog; destruct (Rlt_dec (v / (1 - v)) 0); [reflexivity | lra].
Qed.

Lemma logit_above (v : R) :
  1 < v -> flog (fdiv (Fin v) (fsub (Fin 1) (Fin v))) = NaN.
Proof.
  intros Hv; autorewrite with fin.
  rewrite fdiv_fin by lra.
  assert (Hneg : v / (1 - v) < 0).
  { unfold Rdiv.
    assert (/ (1 - v) < 0) by (apply Rinv_lt_0_compat; lra).
    nra. }
  unfold flog; destruct (Rlt_dec (v / (1 - v)) 0); [reflexivity | lra].
Qed.

Lemma logit_zero : flog (fdiv (Fin 0) (fsub (Fin 1) (Fin 0))) = NInf.
Proof.
  autorewrite with fin; rewrite fdiv_fin by lra.
  replace (0 / (1 - 0)) with 0 by (field; lra).
  unfold flog.
  destruct (Rlt_dec 0 0); [lra |].
  destruct (Req_dec_T 0 0); [reflexivity | lra].
Qed.

Lemma logit_one : flog (fdiv (Fin 1) (fsub (Fin 1) (Fin 1))) = PInf.
Proof.
  autorewrite with fin.
  replace (1 - 1) with 0 by ring.
  unfold fdiv.
  destruct (Req_dec_T 0 0); [| lra].
  destruct (Req_dec_T 1 0); [lra |].
  unfold inf_of_sign; destruct (Rlt_dec 0 1); [reflexivity | lra].
Qed.

Lemma sigmoid_NInf : sigmoid NInf = Fin 0.
Proof. reflexivity. Qed.

Lemma sigmoid_PInf : sigmoid PInf = Fin 1.
Proof.
  change (sigmoid PInf) with (fdiv (Fin 1) (Fin (1 + 0))).
  rewrite fdiv_fin by lra; f_equal; field.
Qed.

(** X14.  Supplied wavelengths at and beyond the ends of [3, 128].  The
    constructor only asserts [wls > 0].  A wavelength of exactly 3 is
    stored as the code -inf and one of exactly 128 as +inf, and both
    decode to themselves; a wavelength below 3 or above 128 is accepted
    too, but its code is NaN and so is the wavelength read back. *)
Theorem wavelengths_at_and_beyond_the_ends :
  forall draws ns s0 ws tr ph pa ori inp self i,
    __init__ draws ns s0 (Some ws) tr ph pa ori inp = Ok self ->
    (i < length ws)%nat ->
    ((nth i ws 0 == 3)%Q ->
       item (wls self) [i] = NInf /\ item (get_wls self) [i] = Fin 3)
    /\ ((nth i ws 0 == 128)%Q ->
       item (wls self) [i] = PInf /\ item (get_wls self) [i] = Fin 128)
    /\ ((nth i ws 0 < 3)%Q \/ (128 < nth i ws 0)%Q ->
       item (wls self) [i] = NaN /\ item (get_wls self) [i] = NaN).
Proof.
  intros draws ns s0 ws tr ph pa ori inp self i Hinit Hi.
  destruct (init_wls_supplied _ _ _ _ _ _ _ _ _ _ Hinit) as (_ & Hitem).
  destruct (init_inv _ _ _ _ _ _ _ _ _ _ Hinit)
    as (_ & _ & _ & Hmin & Hmax & _).
  specialize (Hitem i Hi); cbv zeta in Hitem.
  assert (H128 : Q2R 128 = 128) by (unfold Q2R; simpl; lra).
  assert (Hdec : forall c,
             item (wls self) [i] = c ->
             item (get_wls self) [i]
             = fadd (Fin 3) (fmul (sigmoid c) (Fin 125))).
  { intros c Hc; unfold get_wls, rescale_wls; cbn [item tmap].
    rewrite Hc, Hmin, Hmax; unfold of_Q; now rewrite Q2R_3, Q2R_125. }
  unfold of_Q in Hitem; autorewrite with fin in Hitem.
  rewrite fdiv_fin in Hitem by lra.
  set (x := Q2R (nth i ws 0%Q)) in *.
  repeat split.
  - apply Qeq_eqR in H; fold x in H; rewrite Q2R_3 in H.
    rewrite Hitem, H.
    replace ((3 - 3) / 125) with 0 by (field; lra).
    pose proof logit_zero as L; autorewrite with fin in L; exact L.
  - apply Qeq_eqR in H; fold x in H; rewrite Q2R_3 in H.
    rewrite (Hdec NInf).
    + rewrite sigmoid_NInf; autorewrite with fin; f_equal; ring.
    + rewrite Hitem, H.
      replace ((3 - 3) / 125) with 0 by (field; lra).
      pose proof logit_zero as L; autorewrite with fin in L; exact L.
  - apply Qeq_eqR in H; fold x in H; rewrite H128 in H.
    rewrite Hitem, H.
    replace ((128 - 3) / 125) with 1 by (field; lra).
    pose proof logit_one as L; autorewrite with fin in L; exact L.
  - apply Qeq_eqR in H; fold x in H; rewrite H128 in H.
    rewrite (Hdec PInf).
    + rewrite sigmoid_PInf; autorewrite with fin; f_equal; ring.
    + rewrite Hitem, H.
      replace ((128 - 3) / 125) with 1 by (field; lra).
      pose proof logit_one as L; autorewrite with fin in L; exact L.
  - rewrite Hitem.
    destruct H as [H | H]; apply Qlt_Rlt in H; fold x in H;
      rewrite ?Q2R_3, ?H128 in H.
    + pose proof (logit_below ((x - 3) / 125)) as L.
      autorewrite with fin in L; apply L.
      unfold Rdiv; nra.
    + pose proof (logit_above ((x - 3) / 125)) as L.
      autorewrite with fin in L; apply L.
      apply Rmult_lt_reg_r with 125; [lra |].
      unfold Rdiv; rewrite Rmult_assoc, Rinv_l; lra.
  - assert (Hc : item (wls self) [i] = NaN).
    { rewrite Hitem.
      destruct H as [H | H]; apply Qlt_Rlt in H; fold x in H;
        rewrite ?Q2R_3, ?H128 in H.
      + pose proof (logit_below ((x - 3) / 125)) as L.
        autorewrite with fin in L; apply L.
        unfold Rdiv; nra.
      + pose proof (logit_above ((x - 3) / 125)) as L.
        autorewrite with fin in L; apply L.
        apply Rmult_lt_reg_r with 125; [lra |].
        unfold Rdiv; rewrite Rmult_assoc, Rinv_l; lra. }
    rewrite (Hdec NaN Hc); reflexivity.
Qed.

Lemma wavelengths_at_and_beyond_the_ends_witness :
  exists self,
    __init__ no_draws 3 (Some 0.55%Q) (Some [3%Q; 128%Q; 200%Q]) None
             true false false false = Ok self
    /\ item (get_wls self) [0%nat] = Fin 3
    /\ item (get_wls self) [1%nat] = Fin 128
    /\ item (get_wls self) [2%nat] = NaN.
Proof.
  eexists; split; [reflexivity |].
  match goal with
  | |- item (get_wls ?m) _ = _ /\ _ =>
      assert (Hinit : __init__ no_draws 3 (Some 0.55%Q)
                        (Some [3%Q; 128%Q; 200%Q])
                        None true false false false = Ok m) by reflexivity
  end.
  split; [| split].
  - apply (wavelengths_at_and_beyond_the_ends _ _ _ _ _ _ _ _ _ _ 0%nat Hinit);
      [simpl; lia | reflexivity].
  - apply (wavelengths_at_and_beyond_the_ends _ _ _ _ _ _ _ _ _ _ 1%nat Hinit);
      [simpl; lia | reflexivity].
  - apply (wavelengths_at_and_beyond_the_ends _ _ _ _ _ _ _ _ _ _ 2%nat Hinit);
      [simpl; lia | right; reflexivity].
Defined.





(** ** More on min-max normalisation *)

(** X16.  Min-max normalisation of a sample with finite values that are
    not all equal is the increasing affine map [(v - m) / (M - m)] for the
    sample's own minimum [m] and maximum [M]: the value 0 is taken at a
    minimum, the value 1 at a maximum, and the order of the pixels is
    kept. *)
Theorem scale_max_min_affine :
  forall x n h w b,
    shape x = [n; h; w] -> (1 <= h)%nat -> (1 <= w)%nat -> (b < n)%nat ->
    (forall i j, (i < h)%nat -> (j < w)%nat -> is_finite (item x [b; i; j])) ->
    (exists i j i' j',
        (i < h)%nat /\ (j < w)%nat /\ (i' < h)%nat /\ (j' < w)%nat
        /\ item x [b; i; j] <> item x [b; i'; j']) ->
    exists y m M,
      scale_max_min x = Ok y
      /\ m < M
      /\ (forall i j, (i < h)%nat -> (j < w)%nat ->
            exists v, item x [b; i; j] = Fin v /\ m <= v <= M
                      /\ item y [b; i; j] = Fin ((v - m) / (M - m)))
      /\ (exists i j, (i < h)%nat /\ (j < w)%nat
                      /\ item x [b; i; j] = Fin m /\ item y [b; i; j] = Fin 0)
      /\ (exists i j, (i < h)%nat /\ (j < w)%nat
                      /\ item x [b; i; j] = Fin M /\ item y [b; i; j] = Fin 1)
      /\ (forall i j i' j' v v' u u',
            (i < h)%nat -> (j < w)%nat -> (i' < h)%nat -> (j' < w)%nat ->
            item x [b; i; j] = Fin v -> item x [b; i'; j'] = Fin v' ->
            item y [b; i; j] = Fin u -> item y [b; i'; j'] = Fin u' ->
            v <= v' -> u <= u').
Proof.
  intros x n h w b Hs Hh Hw Hb Hfin
    (i0 & j0 & i1 & j1 & Hi0 & Hj0 & Hi1 & Hj1 & Hdiff).
  destruct (scale_max_min_ok x n h w Hs Hh Hw) as (y & Hy & Sy & Iy).
  destruct (extent_finite x b h w Hh Hw Hfin)
    as (m & M & Hm & HM & Hbound & Hmin & Hmax).
  assert (HmM : m < M).
  { destruct (Hbound i0 j0 Hi0 Hj0) as (v0 & Hv0 & Hvm0).
    destruct (Hbound i1 j1 Hi1 Hj1) as (v1 & Hv1 & Hvm1).
    destruct (Rlt_dec m M) as [| Hn]; [assumption |].
    exfalso; apply Hdiff; rewrite Hv0, Hv1; f_equal; lra. }
  assert (Hval : forall i j v, (i < h)%nat -> (j < w)%nat ->
             item x [b; i; j] = Fin v ->
             item y [b; i; j] = Fin ((v - m) / (M - m))).
  { intros i j v Hi Hj Hv.
    rewrite Iy, Hm, HM, Hv by assumption.
    autorewrite with fin; apply fdiv_fin; lra. }
  exists y, m, M; split; [assumption |]; split; [assumption |].
  split; [| split; [| split]].
  - intros i j Hi Hj.
    destruct (Hbound i j Hi Hj) as (v & Hv & Hvm).
    exists v; repeat split; try assumption || apply Hvm.
    now apply Hval.
  - destruct Hmin as (i & j & Hi & Hj & Hv).
    exists i, j; repeat split; try assumption.
    rewrite (Hval i j m Hi Hj Hv); f_equal; field; lra.
  - destruct Hmax as (i & j & Hi & Hj & Hv).
    exists i, j; repeat split; try assumption.
    rewrite (Hval i j M Hi Hj Hv); f_equal; field; lra.
  - intros i j i' j' v v' u u' Hi Hj Hi' Hj' Hv Hv' Hu Hu' Hle.
    rewrite (Hval i j v Hi Hj Hv) in Hu; injection Hu as <-.
    rewrite (Hval i' j' v' Hi' Hj' Hv') in Hu'; injection Hu' as <-.
    apply Rmult_le_compat_r; [| lra].
    left; apply Rinv_0_lt_compat; lra.
Qed.

Lemma scale_max_min_affine_witness :
  exists y,
    scale_max_min ramp = Ok y
    /\ (exists i j, item y [0; i; j]%nat = Fin 0)
    /\ (exists i j, item y [0; i; j]%nat = Fin 1).
Proof.
  destruct (scale_max_min_affine ramp 1 1 2 0 eq_refl
              ltac:(lia) ltac:(lia) ltac:(lia))
    as (y & m & M & Hy & _ & _ & H0 & H1 & _).
  - intros; exact I.
  - exists 0%nat, 0%nat, 0%nat, 1%nat; repeat split; try lia.
    unfold ramp; cbn [item nth]; intros [= E]; simpl in E; lra.
  - exists y; split; [assumption |]; split.
    + destruct H0 as (i & j & _ & _ & _ & E); now exists i, j.
    + destruct H1 as (i & j & _ & _ & _ & E); now exists i, j.
Defined.

Lemma fold_fmin_NaN (l : list float) : fold_left fmin l NaN = NaN.
Proof. induction l as [| c l IH]; [reflexivity | exact IH]. Qed.

Lemma fold_fmin_poisoned (l : list float) (a : float) :
  In NaN l -> fold_left fmin l a = NaN.
Proof.
  revert a; induction l as [| c l IH]; intros a Hin; [destruct Hin |].
  destruct Hin as [-> | Hin]; [| now apply IH].
  cbn [fold_left].
  replace (fmin a NaN) with NaN by (destruct a; reflexivity).
  apply fold_fmin_NaN.
Qed.

Lemma reduce_fmin_poisoned (vals : list float) :
  In NaN vals -> reduce fmin vals = NaN.
Proof.
  unfold reduce; destruct vals as [| a l]; [intros [] |].
  intros [-> | Hin]; cbn [hd tl].
  - apply fold_fmin_NaN.
  - now apply fold_fmin_poisoned.
Qed.

(** X17.  Min-max normalisation does not contain a NaN: one NaN pixel
    makes the minimum of its sample NaN, and with it every normalised
    value of that sample. *)
Theorem scale_max_min_nan_spreads :
  forall x n h w b i0 j0,
    shape x = [n; h; w] -> (b < n)%nat -> (i0 < h)%nat -> (j0 < w)%nat ->
    item x [b; i0; j0] = NaN ->
    exists y,
      scale_max_min x = Ok y
      /\ shape y = [n; h; w]
      /\ forall i j, (i < h)%nat -> (j < w)%nat -> item y [b; i; j] = NaN.
Proof.
  intros x n h w b i0 j0 Hs Hb Hi0 Hj0 Hnan.
  destruct (scale_max_min_ok x n h w Hs ltac:(lia) ltac:(lia))
    as (y & Hy & Sy & Iy).
  exists y; split; [assumption |]; split; [assumption |].
  intros i j Hi Hj.
  rewrite Iy by assumption.
  assert (Hmin : reduce fmin (extent x [b] h w) = NaN).
  { apply reduce_fmin_poisoned.
    unfold extent; apply in_map_iff.
    exists (i0, j0); split; [exact Hnan |].
    now apply in_cells. }
  rewrite Hmin.
  destruct (item x [b; i; j]), (reduce fmax (extent x [b] h w)); reflexivity.
Qed.

Lemma scale_max_min_nan_spreads_witness :
  exists y,
    scale_max_min (full [1; 2; 2]%nat NaN) = Ok y
    /\ item y [0; 1; 1]%nat = NaN.
Proof.
  destruct (scale_max_min_nan_spreads (full [1; 2; 2]%nat NaN) 1 2 2 0 0 0
              eq_refl ltac:(lia) ltac:(lia) ltac:(lia) eq_refl)
    as (y & Hy & _ & Hall).
  exists y; split; [assumption | apply Hall; lia].
Defined.

(** ** The parameter report *)

Lemma map_seq_nth {A B : Type} (f : nat -> B) (g : A -> B) (l : list A)
  (d : A) (k : nat) :
  (forall i, (i < length l)%nat -> f (k + i)%nat = g (nth i l d)) ->
  map f (seq k (length l)) = map g l.
Proof.
  revert k; induction l as [| a l IH]; intros k Hall; [reflexivity |].
  cbn [length seq map]; f_equal.
  - rewrite <- (Nat.add_0_r k); apply (Hall 0%nat); simpl; lia.
  - apply IH; intros i Hi.
    replace (S k + i)%nat with (k + S i)%nat by lia.
    apply (Hall (S i)); simpl; lia.
Qed.

Lemma decode_supplied_wavelength draws ns s0 ws tr ph pa ori inp self i :
  __init__ draws ns s0 (Some ws) tr ph pa ori inp = Ok self ->
  (i < length ws)%nat ->
  (3 < nth i ws 0)%Q -> (nth i ws 0 < 128)%Q ->
  item (get_wls self) [i] = of_Q (nth i ws 0%Q).
Proof.
  intros Hinit Hi Hlo Hhi.
  destruct (init_wls_supplied _ _ _ _ _ _ _ _ _ _ Hinit) as (_ & Hitem).
  destruct (init_inv _ _ _ _ _ _ _ _ _ _ Hinit)
    as (_ & _ & _ & Hmin & Hmax & _).
  specialize (Hitem i Hi); cbv zeta in Hitem.
  unfold get_wls, rescale_wls; cbn [item tmap].
  rewrite Hitem, Hmin, Hmax.
  apply Qlt_Rlt in Hlo, Hhi.
  assert (H128 : Q2R 128 = 128) by (unfold Q2R; simpl; lra).
  rewrite Q2R_3 in Hlo; rewrite H128 in Hhi.
  unfold of_Q; rewrite Q2R_3, Q2R_125.
  set (x := Q2R (nth i ws 0%Q)) in *.
  autorewrite with fin.
  rewrite fdiv_fin by lra.
  assert (Hp : 0 < (x - 3) / 125 < 1).
  { split.
    - apply Rdiv_lt_0_compat; lra.
    - apply Rmult_lt_reg_r with 125; [lra |].
      unfold Rdiv; rewrite Rmult_assoc, Rinv_l; lra. }
  rewrite logit_fin, sigmoid_fin, sigmoid_logit by exact Hp.
  autorewrite with fin; f_equal; field.
Qed.

(** X18.  [get_params] on a constructed layer never raises and reports, in
    this order, [nscale] as it was passed, the upper wavelength bound 128
    (the lower bound is not reported), the decoded wavelengths, the decoded
    bandwidth, the five flags and the constants 0.4, 10 and 0.  There is
    one decoded wavelength per scale; supplied wavelengths strictly between
    3 and 128 and a supplied bandwidth are reported as they were passed
    (exactly here, up to rounding in floating point). *)
Theorem get_params_reports_construction :
  forall draws ns s0 w0 tr ph pa ori inp self,
    __init__ draws ns s0 w0 tr ph pa ori inp = Ok self ->
    exists wl sg,
      get_params self
      = Ok [("nscale"%string, PyInt ns);
            ("self.max_wl"%string, PyNum 128);
            ("wls"%string, PyList wl);
            ("sigmaonf"%string, PyFloat sg);
            ("trainable"%string,
             PyBool match tr with None => true | Some t => t end);
            ("return_phase"%string, PyBool ph);
            ("return_phase_asym"%string, PyBool pa);
            ("return_ori"%string, PyBool ori);
            ("return_input"%string, PyBool inp);
            ("self.cut_off"%string, PyNum 0.4);
            ("self.g"%string, PyNum 10);
            ("self.T"%string, PyNum 0)]
      /\ length wl = scales self
      /\ (forall ws, w0 = Some ws ->
            (forall w, In w ws -> (3 < w)%Q /\ (w < 128)%Q) ->
            wl = map of_Q ws)
      /\ (forall b, s0 = Some b -> sg = of_Q b).
Proof.
  intros draws ns s0 w0 tr ph pa ori inp self Hinit.
  assert (Hfields : nscale self = ns
                    /\ trainable self
                       = match tr with None => true | Some t => t end).
  { unfold __init__ in Hinit.
    destruct (negb (0 <? ns)%Z); [discriminate |].
    destruct (initialize_wls _ _ _ _ _); [| discriminate].
    destruct (initialize_sigmaonf _ _); [| discriminate].
    cbn [bind] in Hinit; injection Hinit as <-; split; reflexivity. }
  destruct Hfields as (Hns & Htr).
  destruct (init_inv _ _ _ _ _ _ _ _ _ _ Hinit)
    as (_ & Hw & Hs & _ & Hmax & Hcut & Hg & HT & _ & Hph & Hpa & Hori & Hinp).
  assert (Hsg : exists sg,
             item_scalar (get_sigmaonf self) = Ok sg
             /\ forall b, s0 = Some b -> sg = of_Q b).
  { unfold initialize_sigmaonf in Hs.
    destruct s0 as [b |].
    - destruct (Qlt_bool 0 b && Qlt_bool b 1) eqn:Hb; [| discriminate].
      apply andb_true_iff in Hb as [Hlo Hhi].
      apply Qlt_bool_iff, Qlt_Rlt in Hlo, Hhi.
      rewrite Q2R_0 in Hlo; rewrite Q2R_1 in Hhi.
      injection Hs as Hs.
      exists (of_Q b); split; [| now intros b' [= ->]].
      unfold item_scalar, get_sigmaonf; rewrite <- Hs.
      cbn [shape tmap scalar numel fold_right Nat.eqb length repeat item].
      unfold of_Q.
      rewrite logit_fin, sigmoid_fin, sigmoid_logit by lra.
      reflexivity.
    - injection Hs as Hs.
      eexists; split; [| intros b [=]].
      unfold item_scalar, get_sigmaonf; rewrite <- Hs.
      reflexivity. }
  destruct Hsg as (sg & Hsg & Hsgb).
  exists (tolist (get_wls self)), sg.
  split; [| split; [| split; [| exact Hsgb]]].
  - unfold get_params; rewrite Hsg; cbn [bind].
    now rewrite Hns, Htr, Hmax, Hcut, Hg, HT, Hph, Hpa, Hori, Hinp.
  - unfold tolist; rewrite length_map, length_seq; reflexivity.
  - intros ws -> Hrange.
    destruct (init_wls_supplied _ _ _ _ _ _ _ _ _ _ Hinit) as (Hshape & _).
    unfold tolist.
    change (shape (get_wls self)) with (shape (wls self)).
    rewrite Hshape; cbn [nth].
    apply (map_seq_nth (fun i => item (get_wls self) [i]) of_Q ws 0%Q 0).
    intros i Hi; cbn [Nat.add].
    destruct (Hrange (nth i ws 0%Q) (nth_In ws 0%Q Hi)) as [Hlo Hhi].
    now apply (decode_supplied_wavelength draws ns s0 ws tr ph pa ori inp).
Qed.

Lemma get_params_reports_construction_witness :
  exists self,
    __init__ no_draws 2 (Some 0.55%Q) (Some [6%Q; 30%Q]) (Some false)
             true false true false = Ok self
    /\ get_params self
       = Ok [("nscale"%string, PyInt 2);
             ("self.max_wl"%string, PyNum 128);
             ("wls"%string, PyList [of_Q 6; of_Q 30]);
             ("sigmaonf"%string, PyFloat (of_Q 0.55));
             ("trainable"%string, PyBool false);
             ("return_phase"%string, PyBool true);
             ("return_phase_asym"%string, PyBool false);
             ("return_ori"%string, PyBool true);
             ("return_input"%string, PyBool false);
             ("self.cut_off"%string, PyNum 0.4);
             ("self.g"%string, PyNum 10);
             ("self.T"%string, PyNum 0)].
Proof.
  eexists; split; [reflexivity |].
  match goal with
  | |- get_params ?m = _ =>
      assert (Hinit : __init__ no_draws 2 (Some 0.55%Q) (Some [6%Q; 30%Q])
                        (Some false) true false true false = Ok m)
        by reflexivity
  end.
  destruct (get_params_reports_construction _ _ _ _ _ _ _ _ _ _ Hinit)
    as (wl & sg & Hget & _ & Hwl & Hsg).
  rewrite Hget.
  rewrite (Hwl [6%Q; 30%Q] eq_refl), (Hsg 0.55%Q eq_refl); [reflexivity |].
  intros w [<- | [<- | []]]; split; reflexivity.
Defined.

(** ** Scaling the image *)

Lemma fscaled_zero (a : R) : fscaled a (Fin 0) (Fin 0).
Proof. exists 0; split; [reflexivity | f_equal; ring]. Qed.

Lemma fscaled_finite (a : R) (v v' : float) :
  fscaled a v v' -> is_finite v /\ is_finite v'.
Proof. intros (p & -> & ->); split; exact I. Qed.

Lemma fadd_scaled (a : R) (v v' u u' : float) :
  fscaled a v v' -> fscaled a u u' -> fscaled a (fadd v u) (fadd v' u').
Proof.
  intros (p & -> & ->) (q & -> & ->); autorewrite with fin.
  exists (p + q); split; [reflexivity | f_equal; ring].
Qed.

Lemma cadd_scaled (a : R) (z z' w w' : complex) :
  cscaled a z z' -> cscaled a w w' -> cscaled a (cadd z w) (cadd z' w').
Proof.
  intros [Hz1 Hz2] [Hw1 Hw2]; split; cbn [cadd fst snd];
    now apply fadd_scaled.
Qed.

Lemma cmul_scaled_l (a : R) (z z' w : complex) :
  cscaled a z z' -> cfinite w -> cscaled a (cmul z w) (cmul z' w).
Proof.
  destruct z as [z1 z2], z' as [z1' z2'], w as [w1 w2].
  intros [(p & E1 & E1') (q & E2 & E2')] [F1 F2]; cbn [fst snd] in *.
  destruct (finite_inv _ F1) as (u & ->), (finite_inv _ F2) as (v & ->).
  subst; unfold cmul; cbn [fst snd]; autorewrite with fin.
  split; cbn [fst snd]; eexists; (split; [reflexivity | f_equal; ring]).
Qed.

Lemma cmul_scaled_r (a : R) (z z' w : complex) :
  cfinite w -> cscaled a z z' -> cscaled a (cmul w z) (cmul w z').
Proof.
  destruct z as [z1 z2], z' as [z1' z2'], w as [w1 w2].
  intros [F1 F2] [(p & E1 & E1') (q & E2 & E2')]; cbn [fst snd] in *.
  destruct (finite_inv _ F1) as (u & ->), (finite_inv _ F2) as (v & ->).
  subst; unfold cmul; cbn [fst snd]; autorewrite with fin.
  split; cbn [fst snd]; eexists; (split; [reflexivity | f_equal; ring]).
Qed.

Lemma csum_upto_scaled (a : R) (n : nat) (f f' : nat -> complex) :
  (forall k, (k < n)%nat -> cscaled a (f k) (f' k)) ->
  cscaled a (csum_upto n f) (csum_upto n f').
Proof.
  intros Hf; unfold csum_upto.
  assert (Hin : forall k, In k (seq 0 n) -> cscaled a (f k) (f' k))
    by (intros k Hk; apply in_seq in Hk; apply Hf; lia).
  assert (H0 : cscaled a (Fin 0, Fin 0) (Fin 0, Fin 0))
    by (split; apply fscaled_zero).
  revert H0 Hin.
  generalize (Fin 0, Fin 0) at 1 3; generalize (Fin 0, Fin 0).
  generalize (seq 0 n).
  induction l as [| k l IH]; intros acc' acc Hacc Hin; simpl; [assumption |].
  apply IH.
  - apply cadd_scaled; [assumption | apply Hin; now left].
  - intros k' Hk'; apply Hin; now right.
Qed.

Lemma fsum_upto_scaled (a : R) (n : nat) (f f' : nat -> float) :
  (forall k, (k < n)%nat -> fscaled a (f k) (f' k)) ->
  fscaled a (fsum_upto n f) (fsum_upto n f').
Proof.
  intros Hf; unfold fsum_upto.
  assert (Hin : forall k, In k (seq 0 n) -> fscaled a (f k) (f' k))
    by (intros k Hk; apply in_seq in Hk; apply Hf; lia).
  pose proof (fscaled_zero a) as H0.
  revert H0 Hin.
  generalize (Fin 0) at 1 3; generalize (Fin 0).
  generalize (seq 0 n).
  induction l as [| k l IH]; intros acc' acc Hacc Hin; simpl; [assumption |].
  apply IH.
  - apply fadd_scaled; [assumption | apply Hin; now left].
  - intros k' Hk'; apply Hin; now right.
Qed.

Lemma dft2_scaled (a sgn : R) (t t' s s' : tensor complex) (n d h w : nat) :
  shape t = [n; d; h; w] -> shape t' = [n; d; h; w] ->
  (forall idx, in_range idx [n; d; h; w] ->
     cscaled a (item t idx) (item t' idx)) ->
  dft2 sgn t = Ok s -> dft2 sgn t' = Ok s' ->
  forall idx, in_range idx [n; d; h; w] ->
    cscaled a (item s idx) (item s' idx).
Proof.
  intros Hs Hs' Hrel; unfold dft2; rewrite Hs, Hs'.
  cbn [length Nat.ltb Nat.leb Nat.sub nth].
  destruct ((h =? 0) || (w =? 0))%nat; [discriminate |].
  intros [= <-] [= <-] idx Hidx; cbn [item].
  apply in_range_4_inv in Hidx as (b & c & i & j & -> & Hb & Hc & Hi & Hj).
  cbn [firstn nth app].
  apply csum_upto_scaled; intros m Hm.
  apply csum_upto_scaled; intros m' Hm'.
  apply cmul_scaled_l; [| apply cis_finite].
  apply Hrel; auto with shapes.
Qed.

Lemma ifft2_scaled (a : R) (t t' s s' : tensor complex) (n d h w : nat) :
  shape t = [n; d; h; w] -> shape t' = [n; d; h; w] ->
  (forall idx, in_range idx [n; d; h; w] ->
     cscaled a (item t idx) (item t' idx)) ->
  ifft2 t = Ok s -> ifft2 t' = Ok s' ->
  forall idx, in_range idx [n; d; h; w] ->
    cscaled a (item s idx) (item s' idx).
Proof.
  intros Hs Hs' Hrel; unfold ifft2.
  destruct (dft2 1 t) as [u |] eqn:Hu; [| discriminate].
  destruct (dft2 1 t') as [u' |] eqn:Hu'; [| discriminate].
  cbn [bind]; intros [= <-] [= <-] idx Hidx; cbn [item tmap].
  rewrite Hs, Hs'.
  apply cmul_scaled_r; [apply of_real_finite; exact I |].
  now apply (dft2_scaled a 1 t t' u u' n d h w).
Qed.

(** The frequency-domain steps of [monogenic], with the tensors they
    produce. *)
Lemma monogenic_unfold (self : Mono2D) (x : tensor float) (n c h w d : nat) :
  well_formed self ->
  shape x = [n; c; h; w] -> (1 <= h)%nat -> (1 <= w)%nat ->
  bdim c (scales self) = Some d ->
  exists H lgf IM IMF fc IMFH hc r,
    get_filters self h w = Ok (H, lgf)
    /\ fft2 (tmap of_real x) = Ok IM
    /\ shape IM = [n; c; h; w]
    /\ shape IMF = [n; d; h; w]
    /\ (forall b e i j,
          (b < n)%nat -> (e < d)%nat -> (i < h)%nat -> (j < w)%nat ->
          item IMF [b; e; i; j]
          = cmul (item IM (bindex [n; c; h; w] [b; e; i; j]))
                 (of_real (item lgf (bindex [scales self; h; w]
                                       [b; e; i; j]))))
    /\ ifft2 IMF = Ok fc
    /\ shape IMFH = [n; d; h; w]
    /\ (forall b e i j,
          (b < n)%nat -> (e < d)%nat -> (i < h)%nat -> (j < w)%nat ->
          item IMFH [b; e; i; j]
          = cmul (item IMF [b; e; i; j]) (item H [i; j]))
    /\ ifft2 IMFH = Ok hc
    /\ monogenic self x = Ok r
    /\ r_f r = tmap creal fc
    /\ r_h1 r = tmap creal hc
    /\ r_h2 r = tmap cimag hc.
Proof.
  intros Hwf Hx Hh Hw Hd.
  destruct (get_filters_ok self h w Hwf Hh Hw)
    as (H & lgf & sidx & Hget & SH & Slgf & _).
  unfold monogenic; rewrite Hx; cbn [bind].
  destruct (fft2_ok (tmap of_real x) n c h w Hx Hh Hw) as (IM & HIM & SIM & _).
  rewrite HIM; cbn [bind]; rewrite Hget; cbn [bind].
  rewrite (tmap2_ok cmul IM _ [n; d; h; w])
    by (cbn [shape tmap]; rewrite SIM, Slgf; apply broadcast_channel, Hd).
  cbn [bind].
  match goal with |- context [ifft2 ?t] => set (IMF := t) end.
  destruct (ifft2_ok IMF n d h w eq_refl Hh Hw) as (fc & Hfc & Sfc & _).
  rewrite Hfc; cbn [bind].
  rewrite (tmap2_ok cmul IMF H [n; d; h; w])
    by (cbn [shape]; rewrite SH; bshape).
  cbn [bind].
  match goal with |- context [ifft2 ?t] => set (IMFH := t) end.
  destruct (ifft2_ok IMFH n d h w eq_refl Hh Hw) as (hc & Hhc & Shc & _).
  rewrite Hhc; cbn [bind].
  erewrite tmap2_ok by (cbn [shape tmap]; rewrite Shc; bshape).
  cbn [bind].
  erewrite tmap2_ok by (cbn [shape tmap]; rewrite Sfc; bshape).
  cbn [bind].
  erewrite tmap2_ok by (cbn [shape tmap]; rewrite Sfc; bshape).
  cbn [bind].
  exists H, lgf, IM, IMF, fc, IMFH, hc; eexists.
  split; [reflexivity |].
  split; [reflexivity |].
  split; [exact SIM |].
  split; [reflexivity |].
  split.
  { intros b e i j Hb He Hi Hj.
    unfold IMF; cbn [item shape tmap]; rewrite SIM, Slgf; reflexivity. }
  split; [exact Hfc |].
  split; [reflexivity |].
  split.
  { intros b e i j Hb He Hi Hj.
    unfold IMFH; cbn [item]; rewrite SH.
    change (shape IMF) with [n; d; h; w].
    rewrite (bindex_same [n; d; h; w] [b; e; i; j]) by auto with shapes.
    rewrite bindex_24 by assumption.
    reflexivity. }
  split; [exact Hhc |].
  split; [reflexivity |].
  cbn [r_f r_h1 r_h2]; repeat split; reflexivity.
Qed.

Lemma monogenic_scaled (a : R) (self : Mono2D) (x x' : tensor float)
  (n c h w d : nat) :
  well_formed self -> finite_codes self ->
  shape x = [n; c; h; w] -> shape x' = [n; c; h; w] ->
  (2 <= h)%nat -> (2 <= w)%nat ->
  bdim c (scales self) = Some d ->
  (forall idx, in_range idx [n; c; h; w] ->
     fscaled a (item x idx) (item x' idx)) ->
  exists r r',
    monogenic self x = Ok r /\ monogenic self x' = Ok r'
    /\ forall idx, in_range idx [n; d; h; w] ->
         fscaled a (item (r_f r) idx) (item (r_f r') idx)
         /\ fscaled a (item (r_h1 r) idx) (item (r_h1 r') idx)
         /\ fscaled a (item (r_h2 r) idx) (item (r_h2 r') idx).
Proof.
  intros Hwf Fcodes Hx Hx' Hh Hw Hd Hrel.
  assert (Hh1 : (1 <= h)%nat) by lia.
  assert (Hw1 : (1 <= w)%nat) by lia.
  destruct (monogenic_unfold self x n c h w d Hwf Hx Hh1 Hw1 Hd)
    as (H & lgf & IM & IMF & fc & IMFH & hc & r
        & Hget & HIM & SIM & SIMF & IIMF & Hfc & SIMFH & IIMFH & Hhc
        & Hr & Rf & Rh1 & Rh2).
  destruct (monogenic_unfold self x' n c h w d Hwf Hx' Hh1 Hw1 Hd)
    as (H' & lgf' & IM' & IMF' & fc' & IMFH' & hc' & r'
        & Hget' & HIM' & SIM' & SIMF' & IIMF' & Hfc' & SIMFH' & IIMFH' & Hhc'
        & Hr' & Rf' & Rh1' & Rh2').
  rewrite Hget in Hget'; injection Hget' as <- <-.
  destruct (get_filters_ok self h w Hwf Hh1 Hw1)
    as (H0 & lgf0 & sidx & Hget0 & SH & Slgf & _).
  rewrite Hget in Hget0; injection Hget0 as <- <-.
  destruct (get_filters_finite self h w H lgf Hwf Fcodes Hh Hw Hget)
    as (FH & Flgf).
  assert (RIM : forall idx, in_range idx [n; c; h; w] ->
            cscaled a (item IM idx) (item IM' idx)).
  { apply (dft2_scaled a (-1) (tmap of_real x) (tmap of_real x') IM IM'
             n c h w); try assumption.
    intros idx Hidx; cbn [item tmap of_real]; split; cbn [fst snd].
    - now apply Hrel.
    - apply fscaled_zero. }
  assert (RIMF : forall idx, in_range idx [n; d; h; w] ->
            cscaled a (item IMF idx) (item IMF' idx)).
  { intros idx Hidx.
    apply in_range_4_inv in Hidx as (b & e & i & j & -> & Hb & He & Hi & Hj).
    rewrite IIMF, IIMF' by assumption.
    destruct (broadcast_channel_index n c (scales self) d h w b e i j
                Hd Hb He Hi Hj) as (R1 & R2).
    apply cmul_scaled_l; [now apply RIM |].
    apply of_real_finite, Flgf; rewrite Slgf; exact R2. }
  assert (RIMFH : forall idx, in_range idx [n; d; h; w] ->
            cscaled a (item IMFH idx) (item IMFH' idx)).
  { intros idx Hidx; pose proof Hidx as Hidx'.
    apply in_range_4_inv in Hidx' as (b & e & i & j & -> & Hb & He & Hi & Hj).
    rewrite IIMFH, IIMFH' by assumption.
    apply cmul_scaled_l; [now apply RIMF |].
    apply FH; rewrite SH; auto with shapes. }
  pose proof (ifft2_scaled a IMF IMF' fc fc' n d h w SIMF SIMF' RIMF Hfc Hfc')
    as Rfc.
  pose proof (ifft2_scaled a IMFH IMFH' hc hc' n d h w SIMFH SIMFH' RIMFH
                Hhc Hhc') as Rhc.
  exists r, r'; split; [assumption |]; split; [assumption |].
  intros idx Hidx.
  rewrite Rf, Rf', Rh1, Rh1', Rh2, Rh2'; cbn [item tmap].
  destruct (Rfc idx Hidx) as [F1 _].
  destruct (Rhc idx Hidx) as [G1 G2].
  repeat split; assumption.
Qed.

Lemma phase_of_value (s : responses) (n h w : nat) :
  shape (r_f s) = [n; h; w] ->
  shape (r_h1 s) = [n; h; w] -> shape (r_h2 s) = [n; h; w] ->
  (1 <= h)%nat -> (1 <= w)%nat ->
  exists P ft,
    shape P = [n; h; w]
    /\ (forall b i j, (b < n)%nat -> (i < h)%nat -> (j < w)%nat ->
          item P [b; i; j]
          = fatan (fdiv (item (r_f s) [b; i; j])
                     (fsqrt (fadd (sq (item (r_h1 s) [b; i; j]))
                                  (sq (item (r_h2 s) [b; i; j]))))))
    /\ scale_max_min P = Ok ft
    /\ shape ft = [n; h; w]
    /\ phase_of s = Ok ft.
Proof.
  intros S0 S1 S2 Hh Hw; unfold phase_of.
  rewrite (tmap2_ok fadd _ _ [n; h; w])
    by (cbn [shape tmap]; rewrite S1, S2; apply broadcast_same3).
  cbn [bind].
  rewrite (tmap2_ok fdiv _ _ [n; h; w])
    by (cbn [shape tmap]; rewrite S0; apply broadcast_same3).
  cbn [bind].
  match goal with
  | |- context [scale_max_min ?t] =>
      set (P := t);
      destruct (scale_max_min_ok P n h w eq_refl Hh Hw) as (y & Hy & Sy & _)
  end.
  exists P, y; split; [reflexivity |]; split; [| now rewrite Hy].
  intros b i j Hb Hi Hj.
  unfold P; cbn [item shape tmap]; rewrite S0, S1, S2.
  rewrite !(bindex_same [n; h; w] [b; i; j]) by auto with shapes.
  reflexivity.
Qed.

Lemma orientation_of_value (s : responses) (n h w : nat) :
  shape (r_h1 s) = [n; h; w] -> shape (r_h2 s) = [n; h; w] ->
  (1 <= h)%nat -> (1 <= w)%nat ->
  exists O ori,
    shape O = [n; h; w]
    /\ (forall b i j, (b < n)%nat -> (i < h)%nat -> (j < w)%nat ->
          item O [b; i; j]
          = fatan2 (fneg (item (r_h2 s) [b; i; j])) (item (r_h1 s) [b; i; j]))
    /\ scale_max_min O = Ok ori
    /\ shape ori = [n; h; w]
    /\ orientation_of s = Ok ori.
Proof.
  intros S1 S2 Hh Hw; unfold orientation_of.
  rewrite (tmap2_ok fatan2 _ _ [n; h; w])
    by (cbn [shape tmap]; rewrite S1, S2; apply broadcast_same3).
  cbn [bind].
  match goal with
  | |- context [scale_max_min ?t] =>
      set (O := t);
      destruct (scale_max_min_ok O n h w eq_refl Hh Hw) as (y & Hy & Sy & _)
  end.
  exists O, y; split; [reflexivity |]; split; [| now rewrite Hy].
  intros b i j Hb Hi Hj.
  unfold O; cbn [item shape tmap]; rewrite S1, S2.
  rewrite !(bindex_same [n; h; w] [b; i; j]) by auto with shapes.
  reflexivity.
Qed.

Lemma extent_ext (x x' : tensor float) (b h w : nat) :
  (forall i j, (i < h)%nat -> (j < w)%nat ->
     item x [b; i; j] = item x' [b; i; j]) ->
  extent x [b] h w = extent x' [b] h w.
Proof.
  intros Heq; unfold extent; apply map_ext_in.
  intros c Hc; apply in_cells in Hc as [Hi Hj]; cbn [app].
  now apply Heq.
Qed.

Lemma scale_max_min_ext (x x' y y' : tensor float) (n h w : nat) :
  shape x = [n; h; w] -> shape x' = [n; h; w] ->
  (1 <= h)%nat -> (1 <= w)%nat ->
  (forall b i j, (b < n)%nat -> (i < h)%nat -> (j < w)%nat ->
     item x [b; i; j] = item x' [b; i; j]) ->
  scale_max_min x = Ok y -> scale_max_min x' = Ok y' ->
  forall b i j, (b < n)%nat -> (i < h)%nat -> (j < w)%nat ->
    item y [b; i; j] = item y' [b; i; j].
Proof.
  intros Hs Hs' Hh Hw Heq Hy Hy' b i j Hb Hi Hj.
  destruct (scale_max_min_ok x n h w Hs Hh Hw) as (z & Hz & _ & Iz).
  destruct (scale_max_min_ok x' n h w Hs' Hh Hw) as (z' & Hz' & _ & Iz').
  rewrite Hy in Hz; injection Hz as <-.
  rewrite Hy' in Hz'; injection Hz' as <-.
  rewrite Iz, Iz' by assumption.
  rewrite (extent_ext x x' b h w) by (intros; now apply Heq).
  now rewrite Heq.
Qed.

Lemma Ratan2_scale (a y x : R) :
  0 < a -> Ratan2 (a * y) (a * x) = Ratan2 y x.
Proof.
  intros Ha; unfold Ratan2.
  assert (Hq : x <> 0 -> a * y / (a * x) = y / x) by (intros; field; lra).
  destruct (Rlt_dec 0 (a * x)), (Rlt_dec 0 x); try (exfalso; nra).
  - rewrite Hq by lra; reflexivity.
  - destruct (Rlt_dec (a * x) 0), (Rlt_dec x 0); try (exfalso; nra).
    + rewrite Hq by lra.
      destruct (Rle_dec 0 (a * y)), (Rle_dec 0 y); try (exfalso; nra);
        reflexivity.
    + destruct (Rlt_dec 0 (a * y)), (Rlt_dec 0 y); try (exfalso; nra);
        [reflexivity |].
      destruct (Rlt_dec (a * y) 0), (Rlt_dec y 0); try (exfalso; nra);
        reflexivity.
Qed.

Lemma orientation_pointwise (a h1 h2 : R) :
  0 < a ->
  fatan2 (fneg (Fin (a * h2))) (Fin (a * h1))
  = fatan2 (fneg (Fin h2)) (Fin h1).
Proof.
  intros Ha; autorewrite with fin; unfold fatan2.
  replace (- (a * h2)) with (a * - h2) by ring.
  now rewrite Ratan2_scale.
Qed.

Lemma phase_pointwise (a f h1 h2 : R) :
  0 < a ->
  fatan (fdiv (Fin (a * f))
           (fsqrt (fadd (sq (Fin (a * h1))) (sq (Fin (a * h2))))))
  = fatan (fdiv (Fin f) (fsqrt (fadd (sq (Fin h1)) (sq (Fin h2))))).
Proof.
  intros Ha; f_equal.
  unfold sq; rewrite !fpow_fin; autorewrite with fin.
  set (e := h1 ^ 2 + h2 ^ 2).
  assert (He : 0 <= e) by (unfold e; nra).
  replace ((a * h1) ^ 2 + (a * h2) ^ 2) with (a ^ 2 * e)
    by (unfold e; ring).
  rewrite !fsqrt_fin by nra.
  assert (Hsq : sqrt (a ^ 2 * e) = a * sqrt e).
  { rewrite sqrt_mult by nra.
    replace (a ^ 2) with (a * a) by ring.
    rewrite sqrt_square by lra; reflexivity. }
  rewrite Hsq.
  destruct (Req_dec (sqrt e) 0) as [Hz | Hnz].
  - rewrite Hz, Rmult_0_r; unfold fdiv.
    destruct (Req_dec_T 0 0); [| lra].
    destruct (Req_dec_T (a * f) 0), (Req_dec_T f 0);
      try (exfalso; nra); [reflexivity |].
    unfold inf_of_sign.
    destruct (Rlt_dec 0 (a * f)), (Rlt_dec 0 f); try (exfalso; nra);
      reflexivity.
  - rewrite !fdiv_fin by nra.
    f_equal; field; split; lra.
Qed.

(** The summed responses of an image and of its multiple by [a]. *)
Lemma summed_scaled (a : R) (self : Mono2D) (x x' : tensor float)
  (n c h w d : nat) :
  well_formed self -> finite_codes self ->
  shape x = [n; c; h; w] -> shape x' = [n; c; h; w] ->
  (2 <= h)%nat -> (2 <= w)%nat ->
  bdim c (scales self) = Some d ->
  (forall idx, in_range idx [n; c; h; w] ->
     fscaled a (item x idx) (item x' idx)) ->
  exists r r' s s',
    monogenic self x = Ok r /\ monogenic self x' = Ok r'
    /\ sum_scales r = Ok s /\ sum_scales r' = Ok s'
    /\ (shape (r_f s) = [n; h; w] /\ shape (r_h1 s) = [n; h; w]
        /\ shape (r_h2 s) = [n; h; w]
        /\ shape (r_An s) = [n; h; w]
        /\ shape (r_symmetry_energy s) = [n; h; w])
    /\ (shape (r_f s') = [n; h; w] /\ shape (r_h1 s') = [n; h; w]
        /\ shape (r_h2 s') = [n; h; w]
        /\ shape (r_An s') = [n; h; w]
        /\ shape (r_symmetry_energy s') = [n; h; w])
    /\ forall b i j, (b < n)%nat -> (i < h)%nat -> (j < w)%nat ->
         fscaled a (item (r_f s) [b; i; j]) (item (r_f s') [b; i; j])
         /\ fscaled a (item (r_h1 s) [b; i; j]) (item (r_h1 s') [b; i; j])
         /\ fscaled a (item (r_h2 s) [b; i; j]) (item (r_h2 s') [b; i; j]).
Proof.
  intros Hwf Fcodes Hx Hx' Hh Hw Hd Hrel.
  assert (Hh1 : (1 <= h)%nat) by lia.
  assert (Hw1 : (1 <= w)%nat) by lia.
  destruct (monogenic_scaled a self x x' n c h w d Hwf Fcodes Hx Hx' Hh Hw
              Hd Hrel) as (r & r' & Hr & Hr' & Rrel).
  destruct (monogenic_ok self x n c h w d Hwf Hx Hh1 Hw1 Hd)
    as (r0 & Hr0 & R1 & R2 & R3 & R4 & R5 & R6 & _).
  rewrite Hr in Hr0; injection Hr0 as <-.
  destruct (monogenic_ok self x' n c h w d Hwf Hx' Hh1 Hw1 Hd)
    as (r0 & Hr0 & R1' & R2' & R3' & R4' & R5' & R6' & _).
  rewrite Hr' in Hr0; injection Hr0 as <-.
  destruct (sum_scales_ok r n d h w R1 R2 R3 R4 R5 R6)
    as (s & Hs & (S1 & S2 & S3 & S4 & S5 & S6) & Is).
  destruct (sum_scales_ok r' n d h w R1' R2' R3' R4' R5' R6')
    as (s' & Hs' & (S1' & S2' & S3' & S4' & S5' & S6') & Is').
  exists r, r', s, s'.
  repeat (split; [assumption |]).
  split; [repeat split; assumption |].
  split; [repeat split; assumption |].
  intros b i j Hb Hi Hj.
  destruct (Is b i j) as (E1 & E2 & E3 & _).
  destruct (Is' b i j) as (E1' & E2' & E3' & _).
  rewrite E1, E2, E3, E1', E2', E3'.
  repeat split; apply fsum_upto_scaled; intros k Hk;
    apply Rrel; auto with shapes.
Qed.

Lemma features_scaled (a : R) (self : Mono2D) (x x' : tensor float)
  (n c h w d : nat) :
  0 < a ->
  well_formed self -> finite_codes self ->
  shape x = [n; c; h; w] -> shape x' = [n; c; h; w] ->
  (2 <= h)%nat -> (2 <= w)%nat ->
  bdim c (scales self) = Some d ->
  (forall idx, in_range idx [n; c; h; w] ->
     fscaled a (item x idx) (item x' idx)) ->
  exists pa ori ft pa' ori' ft',
    forward self x = stack (selected self x ft ori pa) 1
    /\ forward self x' = stack (selected self x' ft' ori' pa') 1
    /\ (shape ft = [n; h; w] /\ shape ori = [n; h; w])
    /\ (shape ft' = [n; h; w] /\ shape ori' = [n; h; w])
    /\ forall b i j, (b < n)%nat -> (i < h)%nat -> (j < w)%nat ->
         item ft' [b; i; j] = item ft [b; i; j]
         /\ item ori' [b; i; j] = item ori [b; i; j].
Proof.
  intros Ha Hwf Fcodes Hx Hx' Hh Hw Hd Hrel.
  assert (Hh1 : (1 <= h)%nat) by lia.
  assert (Hw1 : (1 <= w)%nat) by lia.
  destruct (summed_scaled a self x x' n c h w d Hwf Fcodes Hx Hx' Hh Hw
              Hd Hrel)
    as (r & r' & s & s' & Hr & Hr' & Hs & Hs'
        & (S1 & S2 & S3 & S5 & S6) & (S1' & S2' & S3' & S5' & S6') & Srel).
  destruct (phase_asym_of_ok self s n h w S6 S5) as (pa & Hpa & _).
  destruct (phase_asym_of_ok self s' n h w S6' S5') as (pa' & Hpa' & _).
  destruct (orientation_of_value s n h w S2 S3 Hh1 Hw1)
    as (O & ori & SO & IO & HO & Sori & Hori).
  destruct (orientation_of_value s' n h w S2' S3' Hh1 Hw1)
    as (O' & ori' & SO' & IO' & HO' & Sori' & Hori').
  destruct (phase_of_value s n h w S1 S2 S3 Hh1 Hw1)
    as (P & ft & SP & IP & HP & Sft & Hft).
  destruct (phase_of_value s' n h w S1' S2' S3' Hh1 Hw1)
    as (P' & ft' & SP' & IP' & HP' & Sft' & Hft').
  exists pa, ori, ft, pa', ori', ft'.
  split.
  { unfold forward; rewrite Hr; cbn [bind].
    rewrite Hs; cbn [bind]; rewrite Hpa; cbn [bind].
    rewrite Hori; cbn [bind]; rewrite Hft; reflexivity. }
  split.
  { unfold forward; rewrite Hr'; cbn [bind].
    rewrite Hs'; cbn [bind]; rewrite Hpa'; cbn [bind].
    rewrite Hori'; cbn [bind]; rewrite Hft'; reflexivity. }
  split; [split; assumption |].
  split; [split; assumption |].
  intros b i j Hb Hi Hj; split.
  - apply (scale_max_min_ext P' P ft' ft n h w); try assumption.
    intros b0 i0 j0 Hb0 Hi0 Hj0.
    rewrite IP, IP' by assumption.
    destruct (Srel b0 i0 j0 Hb0 Hi0 Hj0)
      as ((f & -> & ->) & (h1 & -> & ->) & (h2 & -> & ->)).
    now apply phase_pointwise.
  - apply (scale_max_min_ext O' O ori' ori n h w); try assumption.
    intros b0 i0 j0 Hb0 Hi0 Hj0.
    rewrite IO, IO' by assumption.
    destruct (Srel b0 i0 j0 Hb0 Hi0 Hj0)
      as (_ & (h1 & -> & ->) & (h2 & -> & ->)).
    now apply orientation_pointwise.
Qed.

(** X19.  Contrast invariance.  For a finite image with at least two
    samples per axis, multiplying the image by a positive constant leaves
    the phase map and the orientation map as they are (in exact
    arithmetic): with phase, orientation or both selected, [forward]
    returns the same values for [x] and for [a * x]. *)
Theorem phase_and_orientation_contrast_invariant :
  forall self x n c h w d a,
    well_formed self -> finite_codes self ->
    shape x = [n; c; h; w] -> (2 <= h)%nat -> (2 <= w)%nat ->
    bdim c (scales self) = Some d ->
    fin_on x -> 0 < a ->
    return_input self = false -> return_phase_asym self = false ->
    return_phase self = true \/ return_ori self = true ->
    exists out out',
      forward self x = Ok out
      /\ forward self (tmap (fmul (Fin a)) x) = Ok out'
      /\ shape out = [n; enabled_count self; h; w]
      /\ shape out' = [n; enabled_count self; h; w]
      /\ forall b k i j,
           (b < n)%nat -> (k < enabled_count self)%nat ->
           (i < h)%nat -> (j < w)%nat ->
           item out' [b; k; i; j] = item out [b; k; i; j].
Proof.
  intros self x n c h w d a Hwf Fcodes Hx Hh Hw Hd Fx Ha Hinp Hpa Hsel.
  set (x' := tmap (fmul (Fin a)) x).
  assert (Hx' : shape x' = [n; c; h; w]) by exact Hx.
  assert (Hrel : forall idx, in_range idx [n; c; h; w] ->
             fscaled a (item x idx) (item x' idx)).
  { intros idx Hidx; unfold x'; cbn [item tmap].
    destruct (finite_inv _ (Fx idx ltac:(now rewrite Hx))) as (p & ->).
    exists p; split; reflexivity. }
  destruct (features_scaled a self x x' n c h w d Ha Hwf Fcodes Hx Hx' Hh Hw
              Hd Hrel)
    as (pa & ori & ft & pa' & ori' & ft' & Hf & Hf'
        & (Sft & Sori) & (Sft' & Sori') & Heq).
  rewrite Hf, Hf'.
  unfold selected, enabled_count; rewrite Hinp, Hpa.
  destruct (return_phase self) eqn:Eph, (return_ori self) eqn:Eori;
    cbn [app Nat.b2n Nat.add];
    try (destruct Hsel; discriminate).
  - destruct (stack_ok [ft; ori] [n; h; w] 1 ft ltac:(discriminate))
      as (out & Hout & Sout & Iout);
      [intros t [<- | [<- | []]]; assumption | simpl; lia |].
    destruct (stack_ok [ft'; ori'] [n; h; w] 1 ft' ltac:(discriminate))
      as (out' & Hout' & Sout' & Iout');
      [intros t [<- | [<- | []]]; assumption | simpl; lia |].
    exists out, out'; repeat (split; [assumption |]).
    intros b k i j Hb Hk Hi Hj.
    rewrite Iout, Iout' by (simpl; lia).
    cbn [nth remove_at firstn skipn app].
    destruct (Heq b i j Hb Hi Hj) as (E1 & E2).
    destruct k as [| [| k]]; [exact E1 | exact E2 | lia].
  - destruct (stack_ok [ft] [n; h; w] 1 ft ltac:(discriminate))
      as (out & Hout & Sout & Iout);
      [intros t [<- | []]; assumption | simpl; lia |].
    destruct (stack_ok [ft'] [n; h; w] 1 ft' ltac:(discriminate))
      as (out' & Hout' & Sout' & Iout');
      [intros t [<- | []]; assumption | simpl; lia |].
    exists out, out'; repeat (split; [assumption |]).
    intros b k i j Hb Hk Hi Hj.
    rewrite Iout, Iout' by (simpl; lia).
    cbn [nth remove_at firstn skipn app].
    destruct (Heq b i j Hb Hi Hj) as (E1 & E2).
    destruct k as [| k]; [exact E1 | lia].
  - destruct (stack_ok [ori] [n; h; w] 1 ori ltac:(discriminate))
      as (out & Hout & Sout & Iout);
      [intros t [<- | []]; assumption | simpl; lia |].
    destruct (stack_ok [ori'] [n; h; w] 1 ori' ltac:(discriminate))
      as (out' & Hout' & Sout' & Iout');
      [intros t [<- | []]; assumption | simpl; lia |].
    exists out, out'; repeat (split; [assumption |]).
    intros b k i j Hb Hk Hi Hj.
    rewrite Iout, Iout' by (simpl; lia).
    cbn [nth remove_at firstn skipn app].
    destruct (Heq b i j Hb Hi Hj) as (E1 & E2).
    destruct k as [| k]; [exact E2 | lia].
Qed.

Lemma phase_and_orientation_contrast_invariant_witness :
  exists out out',
    forward (layer_of [10%Q] 0.55 true false true false)
      (full [1; 1; 2; 2]%nat (Fin 1)) = Ok out
    /\ forward (layer_of [10%Q] 0.55 true false true false)
         (tmap (fmul (Fin 3)) (full [1; 1; 2; 2]%nat (Fin 1))) = Ok out'
    /\ item out' [0; 1; 1; 0]%nat = item out [0; 1; 1; 0]%nat.
Proof.
  destruct (phase_and_orientation_contrast_invariant
              (layer_of [10%Q] 0.55 true false true false)
              (full [1; 1; 2; 2]%nat (Fin 1)) 1 1 2 2 1 3)
    as (out & out' & Hout & Hout' & _ & _ & Heq).
  - now apply layer_of_wf.
  - now apply layer_of_finite_codes.
  - reflexivity.
  - lia.
  - lia.
  - reflexivity.
  - intros idx _; exact I.
  - lra.
  - reflexivity.
  - reflexivity.
  - now left.
  - exists out, out'; split; [assumption |]; split; [assumption |].
    apply Heq; unfold enabled_count; simpl; lia.
Defined.

(** ** A blank image *)





(** ** The range of the phase asymmetry *)





(** ** Inverting the image *)

Lemma fsum_upto_ext (n : nat) (f g : nat -> float) :
  (forall k, (k < n)%nat -> f k = g k) -> fsum_upto n f = fsum_upto n g.
Proof.
  intros Hf; unfold fsum_upto.
  assert (Hin : forall k, In k (seq 0 n) -> f k = g k)
    by (intros k Hk; apply in_seq in Hk; apply Hf; lia).
  revert Hin; generalize (Fin 0); generalize (seq 0 n).
  induction l as [| k l IH]; intros acc Hin; cbn [fold_left]; [reflexivity |].
  rewrite (Hin k) by now left.
  apply IH; intros k' Hk'; apply Hin; now right.
Qed.

Lemma inverted_amplitudes (f f' h1 h1' h2 h2' : float) :
  fscaled (-1) f f' -> fscaled (-1) h1 h1' -> fscaled (-1) h2 h2' ->
  fsqrt (fadd (sq f') (fadd (sq h1') (sq h2')))
  = fsqrt (fadd (sq f) (fadd (sq h1) (sq h2)))
  /\ fsub (fsqrt (fadd (sq h1') (sq h2'))) (fabs f')
     = fsub (fsqrt (fadd (sq h1) (sq h2))) (fabs f).
Proof.
  intros (p & -> & ->) (q1 & -> & ->) (q2 & -> & ->).
  unfold sq; rewrite !fpow_fin; autorewrite with fin.
  replace ((-1 * p) ^ 2) with (p ^ 2) by ring.
  replace ((-1 * q1) ^ 2) with (q1 ^ 2) by ring.
  replace ((-1 * q2) ^ 2) with (q2 ^ 2) by ring.
  replace (-1 * p) with (- p) by ring.
  now rewrite Rabs_Ropp.
Qed.

(** X22.  Contrast inversion.  For a finite image with at least two
    samples per axis the phase-asymmetry map of [-x] is that of [x]: the
    symmetry energy and the amplitude of every scale depend on the
    responses through their squares and absolute values only. *)
Theorem phase_asymmetry_inversion_invariant :
  forall self x n c h w d,
    well_formed self -> finite_codes self ->
    shape x = [n; c; h; w] -> (2 <= h)%nat -> (2 <= w)%nat ->
    bdim c (scales self) = Some d ->
    fin_on x ->
    return_phase_asym self = true -> return_input self = false ->
    return_phase self = false -> return_ori self = false ->
    exists out out',
      forward self x = Ok out
      /\ forward self (tmap fneg x) = Ok out'
      /\ shape out = [n; 1; h; w]%nat
      /\ shape out' = [n; 1; h; w]%nat
      /\ forall b i j, (b < n)%nat -> (i < h)%nat -> (j < w)%nat ->
           item out' [b; 0; i; j]%nat = item out [b; 0; i; j]%nat.
Proof.
  intros self x n c h w d Hwf Fcodes Hx Hh Hw Hd Fx Hpas Hinp Hph Hor.
  assert (Hh1 : (1 <= h)%nat) by lia.
  assert (Hw1 : (1 <= w)%nat) by lia.
  set (x' := tmap fneg x).
  assert (Hx' : shape x' = [n; c; h; w]) by exact Hx.
  assert (Hrel : forall idx, in_range idx [n; c; h; w] ->
             fscaled (-1) (item x idx) (item x' idx)).
  { intros idx Hidx; unfold x'; cbn [item tmap].
    destruct (finite_inv _ (Fx idx ltac:(now rewrite Hx))) as (p & ->).
    exists p; split; [reflexivity |].
    autorewrite with fin; f_equal; ring. }
  destruct (monogenic_scaled (-1) self x x' n c h w d Hwf Fcodes Hx Hx' Hh Hw
              Hd Hrel) as (r & r' & Hr & Hr' & Rrel).
  destruct (monogenic_ok self x n c h w d Hwf Hx Hh1 Hw1 Hd)
    as (r0 & Hr0 & R1 & R2 & R3 & R4 & R5 & R6 & Rval & _).
  rewrite Hr in Hr0; injection Hr0 as <-.
  destruct (monogenic_ok self x' n c h w d Hwf Hx' Hh1 Hw1 Hd)
    as (r0 & Hr0 & R1' & R2' & R3' & R4' & R5' & R6' & Rval' & _).
  rewrite Hr' in Hr0; injection Hr0 as <-.
  destruct (sum_scales_ok r n d h w R1 R2 R3 R4 R5 R6)
    as (s & Hs & (S1 & S2 & S3 & S4 & S5 & S6) & Is).
  destruct (sum_scales_ok r' n d h w R1' R2' R3' R4' R5' R6')
    as (s' & Hs' & (S1' & S2' & S3' & S4' & S5' & S6') & Is').
  destruct (phase_asym_of_ok self s n h w S6 S5) as (pa & Hpa & Spa & Ipa).
  destruct (phase_asym_of_ok self s' n h w S6' S5')
    as (pa' & Hpa' & Spa' & Ipa').
  destruct (orientation_of_ok s n h w S2 S3 Hh1 Hw1) as (ori & Hori & _).
  destruct (orientation_of_ok s' n h w S2' S3' Hh1 Hw1) as (ori' & Hori' & _).
  destruct (phase_of_ok s n h w S1 S2 S3 Hh1 Hw1) as (ft & Hft & _).
  destruct (phase_of_ok s' n h w S1' S2' S3' Hh1 Hw1) as (ft' & Hft' & _).
  assert (Heq : forall b i j, (b < n)%nat -> (i < h)%nat -> (j < w)%nat ->
             item pa' [b; i; j] = item pa [b; i; j]).
  { intros b i j Hb Hi Hj.
    rewrite Ipa, Ipa' by auto with shapes.
    destruct (Is b i j) as (_ & _ & _ & _ & E5 & E6).
    destruct (Is' b i j) as (_ & _ & _ & _ & E5' & E6').
    rewrite E5, E6, E5', E6'.
    assert (Hk : forall k, (k < d)%nat ->
               item (r_An r') [b; k; i; j] = item (r_An r) [b; k; i; j]
               /\ item (r_symmetry_energy r') [b; k; i; j]
                  = item (r_symmetry_energy r) [b; k; i; j]).
    { intros k Hk.
      assert (Hidx : in_range [b; k; i; j] [n; d; h; w]) by auto with shapes.
      destruct (Rval _ Hidx) as (V1 & V2 & V3).
      destruct (Rval' _ Hidx) as (V1' & V2' & V3').
      destruct (Rrel _ Hidx) as (Z1 & Z2 & Z3).
      rewrite V2, V3, V2', V3', V1, V1'.
      now apply inverted_amplitudes. }
    rewrite (fsum_upto_ext d (fun k => item (r_An r') [b; k; i; j])
               (fun k => item (r_An r) [b; k; i; j]))
      by (intros k Hk'; now apply Hk).
    rewrite (fsum_upto_ext d
               (fun k => item (r_symmetry_energy r') [b; k; i; j])
               (fun k => item (r_symmetry_energy r) [b; k; i; j]))
      by (intros k Hk'; now apply Hk).
    reflexivity. }
  assert (Hf : forward self x = stack [pa] 1).
  { unfold forward; rewrite Hr; cbn [bind].
    rewrite Hs; cbn [bind]; rewrite Hpa; cbn [bind].
    rewrite Hori; cbn [bind]; rewrite Hft; cbn [bind].
    unfold selected; now rewrite Hinp, Hph, Hor, Hpas. }
  assert (Hf' : forward self x' = stack [pa'] 1).
  { unfold forward; rewrite Hr'; cbn [bind].
    rewrite Hs'; cbn [bind]; rewrite Hpa'; cbn [bind].
    rewrite Hori'; cbn [bind]; rewrite Hft'; cbn [bind].
    unfold selected; now rewrite Hinp, Hph, Hor, Hpas. }
  rewrite Hf, Hf'.
  destruct (stack_ok [pa] [n; h; w] 1 pa ltac:(discriminate))
    as (out & Hout & Sout & Iout);
    [intros t [<- | []]; assumption | simpl; lia |].
  destruct (stack_ok [pa'] [n; h; w] 1 pa' ltac:(discriminate))
    as (out' & Hout' & Sout' & Iout');
    [intros t [<- | []]; assumption | simpl; lia |].
  exists out, out'; repeat (split; [assumption |]).
  intros b i j Hb Hi Hj.
  rewrite Iout, Iout' by (simpl; lia).
  cbn [nth remove_at firstn skipn app].
  now apply Heq.
Qed.

Lemma phase_asymmetry_inversion_invariant_witness :
  exists out out',
    forward (layer_of [10%Q] 0.55 false true false false)
      (full [1; 1; 2; 2]%nat (Fin 1)) = Ok out
    /\ forward (layer_of [10%Q] 0.55 false true false false)
         (tmap fneg (full [1; 1; 2; 2]%nat (Fin 1))) = Ok out'
    /\ item out' [0; 0; 1; 0]%nat = item out [0; 0; 1; 0]%nat.
Proof.
  destruct (phase_asymmetry_inversion_invariant
              (layer_of [10%Q] 0.55 false true false false)
              (full [1; 1; 2; 2]%nat (Fin 1)) 1 1 2 2 1)
    as (out & out' & Hout & Hout' & _ & _ & Heq).
  - now apply layer_of_wf.
  - now apply layer_of_finite_codes.
  - reflexivity.
  - lia.
  - lia.
  - reflexivity.
  - intros idx _; exact I.
  - reflexivity.
  - reflexivity.
  - reflexivity.
  - reflexivity.
  - exists out, out'; split; [assumption |]; split; [assumption |].
    apply Heq; lia.
Defined.

(** ** The samples of a batch *)

Lemma csum_upto_ext (n : nat) (f g : nat -> complex) :
  (forall k, (k < n)%nat -> f k = g k) -> csum_upto n f = csum_upto n g.
Proof.
  intros Hf; unfold csum_upto.
  assert (Hin : forall k, In k (seq 0 n) -> f k = g k)
    by (intros k Hk; apply in_seq in Hk; apply Hf; lia).
  revert Hin; generalize (Fin 0, Fin 0); generalize (seq 0 n).
  induction l as [| k l IH]; intros acc Hin; cbn [fold_left]; [reflexivity |].
  rewrite (Hin k) by now left.
  apply IH; intros k' Hk'; apply Hin; now right.
Qed.

Lemma dft2_sample (sgn : R) (t t' s s' : tensor complex) (n d h w b : nat) :
  shape t = [n; d; h; w] -> shape t' = [n; d; h; w] ->
  (forall e i j, (e < d)%nat -> (i < h)%nat -> (j < w)%nat ->
     item t [b; e; i; j] = item t' [b; e; i; j]) ->
  dft2 sgn t = Ok s -> dft2 sgn t' = Ok s' ->
  forall e i j, (e < d)%nat -> (i < h)%nat -> (j < w)%nat ->
    item s [b; e; i; j] = item s' [b; e; i; j].
Proof.
  intros Hs Hs' Hrel; unfold dft2; rewrite Hs, Hs'.
  cbn [length Nat.ltb Nat.leb Nat.sub nth].
  destruct ((h =? 0) || (w =? 0))%nat; [discriminate |].
  intros [= <-] [= <-] e i j He Hi Hj; cbn [item firstn nth app].
  apply csum_upto_ext; intros m Hm.
  apply csum_upto_ext; intros m' Hm'.
  now rewrite Hrel.
Qed.

Lemma ifft2_sample (t t' s s' : tensor complex) (n d h w b : nat) :
  shape t = [n; d; h; w] -> shape t' = [n; d; h; w] ->
  (forall e i j, (e < d)%nat -> (i < h)%nat -> (j < w)%nat ->
     item t [b; e; i; j] = item t' [b; e; i; j]) ->
  ifft2 t = Ok s -> ifft2 t' = Ok s' ->
  forall e i j, (e < d)%nat -> (i < h)%nat -> (j < w)%nat ->
    item s [b; e; i; j] = item s' [b; e; i; j].
Proof.
  intros Hs Hs' Hrel; unfold ifft2.
  destruct (dft2 1 t) as [u |] eqn:Hu; [| discriminate].
  destruct (dft2 1 t') as [u' |] eqn:Hu'; [| discriminate].
  cbn [bind]; intros [= <-] [= <-] e i j He Hi Hj; cbn [item tmap].
  rewrite Hs, Hs'.
  now rewrite (dft2_sample 1 t t' u u' n d h w b Hs Hs' Hrel Hu Hu').
Qed.

Lemma monogenic_sample (self : Mono2D) (x x' : tensor float)
  (n c h w d b : nat) :
  well_formed self ->
  shape x = [n; c; h; w] -> shape x' = [n; c; h; w] ->
  (1 <= h)%nat -> (1 <= w)%nat ->
  bdim c (scales self) = Some d -> (b < n)%nat ->
  (forall e i j, (e < c)%nat -> (i < h)%nat -> (j < w)%nat ->
     item x [b; e; i; j] = item x' [b; e; i; j]) ->
  exists r r',
    monogenic self x = Ok r /\ monogenic self x' = Ok r'
    /\ forall e i j, (e < d)%nat -> (i < h)%nat -> (j < w)%nat ->
         item (r_f r) [b; e; i; j] = item (r_f r') [b; e; i; j]
         /\ item (r_h1 r) [b; e; i; j] = item (r_h1 r') [b; e; i; j]
         /\ item (r_h2 r) [b; e; i; j] = item (r_h2 r') [b; e; i; j]
         /\ item (r_h_Amp2 r) [b; e; i; j] = item (r_h_Amp2 r') [b; e; i; j]
         /\ item (r_An r) [b; e; i; j] = item (r_An r') [b; e; i; j]
         /\ item (r_symmetry_energy r) [b; e; i; j]
            = item (r_symmetry_energy r') [b; e; i; j].
Proof.
  intros Hwf Hx Hx' Hh Hw Hd Hb Hrel.
  destruct (monogenic_unfold self x n c h w d Hwf Hx Hh Hw Hd)
    as (H & lgf & IM & IMF & fc & IMFH & hc & r
        & Hget & HIM & SIM & SIMF & IIMF & Hfc & SIMFH & IIMFH & Hhc
        & Hr & Rf & Rh1 & Rh2).
  destruct (monogenic_unfold self x' n c h w d Hwf Hx' Hh Hw Hd)
    as (H' & lgf' & IM' & IMF' & fc' & IMFH' & hc' & r'
        & Hget' & HIM' & SIM' & SIMF' & IIMF' & Hfc' & SIMFH' & IIMFH' & Hhc'
        & Hr' & Rf' & Rh1' & Rh2').
  rewrite Hget in Hget'; injection Hget' as <- <-.
  destruct (monogenic_ok self x n c h w d Hwf Hx Hh Hw Hd)
    as (r0 & Hr0 & _ & _ & _ & _ & _ & _ & Rval & _).
  rewrite Hr in Hr0; injection Hr0 as <-.
  destruct (monogenic_ok self x' n c h w d Hwf Hx' Hh Hw Hd)
    as (r0 & Hr0 & _ & _ & _ & _ & _ & _ & Rval' & _).
  rewrite Hr' in Hr0; injection Hr0 as <-.
  assert (RIM : forall e i j, (e < c)%nat -> (i < h)%nat -> (j < w)%nat ->
            item IM [b; e; i; j] = item IM' [b; e; i; j]).
  { apply (dft2_sample (-1) (tmap of_real x) (tmap of_real x') IM IM'
             n c h w b); try assumption.
    intros e i j He Hi Hj; cbn [item tmap]; now rewrite Hrel. }
  assert (RIMF : forall e i j, (e < d)%nat -> (i < h)%nat -> (j < w)%nat ->
            item IMF [b; e; i; j] = item IMF' [b; e; i; j]).
  { intros e i j He Hi Hj.
    rewrite IIMF, IIMF' by assumption.
    f_equal.
    unfold bindex; simpl.
    rewrite (bcoord n b), (bcoord h i), (bcoord w j) by assumption.
    apply RIM; try assumption.
    eapply bcoord_lt_l; eassumption. }
  assert (RIMFH : forall e i j, (e < d)%nat -> (i < h)%nat -> (j < w)%nat ->
            item IMFH [b; e; i; j] = item IMFH' [b; e; i; j]).
  { intros e i j He Hi Hj.
    rewrite IIMFH, IIMFH' by assumption.
    now rewrite RIMF. }
  pose proof (ifft2_sample IMF IMF' fc fc' n d h w b SIMF SIMF' RIMF Hfc Hfc')
    as Rfc.
  pose proof (ifft2_sample IMFH IMFH' hc hc' n d h w b SIMFH SIMFH' RIMFH
                Hhc Hhc') as Rhc.
  exists r, r'; split; [assumption |]; split; [assumption |].
  intros e i j He Hi Hj.
  assert (Hidx : in_range [b; e; i; j] [n; d; h; w]) by auto with shapes.
  destruct (Rval _ Hidx) as (V1 & V2 & V3).
  destruct (Rval' _ Hidx) as (V1' & V2' & V3').
  assert (E1 : item (r_f r) [b; e; i; j] = item (r_f r') [b; e; i; j])
    by (rewrite Rf, Rf'; cbn [item tmap]; now rewrite Rfc).
  assert (E2 : item (r_h1 r) [b; e; i; j] = item (r_h1 r') [b; e; i; j])
    by (rewrite Rh1, Rh1'; cbn [item tmap]; now rewrite Rhc).
  assert (E3 : item (r_h2 r) [b; e; i; j] = item (r_h2 r') [b; e; i; j])
    by (rewrite Rh2, Rh2'; cbn [item tmap]; now rewrite Rhc).
  assert (E4 : item (r_h_Amp2 r) [b; e; i; j]
               = item (r_h_Amp2 r') [b; e; i; j])
    by (rewrite V1, V1', E2, E3; reflexivity).
  repeat split; try assumption.
  - rewrite V2, V2', E1, E4; reflexivity.
  - rewrite V3, V3', E1, E4; reflexivity.
Qed.

Lemma scale_max_min_sample (x x' y y' : tensor float) (n h w b : nat) :
  shape x = [n; h; w] -> shape x' = [n; h; w] ->
  (1 <= h)%nat -> (1 <= w)%nat -> (b < n)%nat ->
  (forall i j, (i < h)%nat -> (j < w)%nat ->
     item x [b; i; j] = item x' [b; i; j]) ->
  scale_max_min x = Ok y -> scale_max_min x' = Ok y' ->
  forall i j, (i < h)%nat -> (j < w)%nat ->
    item y [b; i; j] = item y' [b; i; j].
Proof.
  intros Hs Hs' Hh Hw Hb Heq Hy Hy' i j Hi Hj.
  destruct (scale_max_min_ok x n h w Hs Hh Hw) as (z & Hz & _ & Iz).
  destruct (scale_max_min_ok x' n h w Hs' Hh Hw) as (z' & Hz' & _ & Iz').
  rewrite Hy in Hz; injection Hz as <-.
  rewrite Hy' in Hz'; injection Hz' as <-.
  rewrite Iz, Iz' by assumption.
  rewrite (extent_ext x x' b h w) by assumption.
  now rewrite Heq.
Qed.

Lemma sample_eq_3 (t t' : tensor float) (n h w b : nat) :
  shape t = [n; h; w] -> shape t' = [n; h; w] ->
  (forall i j, (i < h)%nat -> (j < w)%nat ->
     item t [b; i; j] = item t' [b; i; j]) ->
  sample_eq b t t'.
Proof.
  intros Hs Hs' Heq; split; [congruence |].
  intros rest Hin; rewrite Hs in Hin.
  apply in_range_3_inv in Hin as (b0 & i & j & [= <- ->] & _ & Hi & Hj).
  now apply Heq.
Qed.

Lemma sample_eq_4 (t t' : tensor float) (n c h w b : nat) :
  shape t = [n; c; h; w] -> shape t' = [n; c; h; w] ->
  (forall e i j, (e < c)%nat -> (i < h)%nat -> (j < w)%nat ->
     item t [b; e; i; j] = item t' [b; e; i; j]) ->
  sample_eq b t t'.
Proof.
  intros Hs Hs' Heq; split; [congruence |].
  intros rest Hin; rewrite Hs in Hin.
  apply in_range_4_inv in Hin as (b0 & e & i & j & [= <- ->] & _ & He & Hi & Hj).
  now apply Heq.
Qed.

Lemma shape_eqb_eq (a b : list nat) : shape_eqb a b = true -> a = b.
Proof.
  unfold shape_eqb; destruct (list_eq_dec Nat.eq_dec a b);
    [trivial | discriminate].
Qed.

Lemma Forall2_nth_rel {A : Type} (R : A -> A -> Prop) (l l' : list A)
  (d d' : A) (k : nat) :
  Forall2 R l l' -> (k < length l)%nat -> R (nth k l d) (nth k l' d').
Proof.
  intros HF; revert k; induction HF as [| a a' l l' Ha HF IH]; intros k Hk.
  - simpl in Hk; lia.
  - destruct k as [| k]; [exact Ha |].
    cbn [nth]; apply IH; simpl in Hk; lia.
Qed.

Lemma stack_sample (ts ts' : list (tensor float)) (out out' : tensor float)
  (b : nat) :
  Forall2 (sample_eq b) ts ts' ->
  stack ts 1 = Ok out -> stack ts' 1 = Ok out' ->
  sample_eq b out out'.
Proof.
  intros HF; pose proof (Forall2_length HF) as Hlen.
  unfold stack.
  destruct HF as [| t0 t0' l l' H0 HF]; [discriminate |].
  destruct (forallb (fun t => shape_eqb (shape t) (shape t0)) l) eqn:Hall;
    [| discriminate].
  destruct (forallb (fun t => shape_eqb (shape t) (shape t0')) l');
    [| discriminate].
  destruct H0 as [Hs0 Hi0].
  rewrite <- Hs0.
  destruct (1 <=? length (shape t0))%nat eqn:Hrank; [| discriminate].
  intros [= <-] [= <-].
  simpl in Hlen; injection Hlen as Hlen.
  split; [cbn [shape]; now rewrite Hlen |].
  intros rest Hin; cbn [shape] in Hin; cbn [item].
  apply Nat.leb_le in Hrank.
  destruct (shape t0) as [| s0 srest] eqn:Hshape; [simpl in Hrank; lia |].
  unfold insert_at in Hin; cbn [firstn skipn app] in Hin.
  inversion Hin as [| b0 s0' rest0 tl Hb Hrest]; subst.
  inversion Hrest as [| k len tail srest' Hk Htail]; subst.
  cbn [nth remove_at firstn skipn app].
  change (match k with 0%nat => t0 | S m => nth m l t0 end)
    with (nth k (t0 :: l) t0).
  change (match k with 0%nat => t0' | S m => nth m l' t0' end)
    with (nth k (t0' :: l') t0').
  assert (HF' : Forall2 (sample_eq b) (t0 :: l) (t0' :: l'))
    by (constructor; [split; [congruence | now rewrite Hshape] | assumption]).
  destruct (Forall2_nth_rel (sample_eq b) (t0 :: l) (t0' :: l') t0 t0' k HF' Hk)
    as [_ Hitem].
  apply Hitem.
  assert (Hsk : shape (nth k (t0 :: l) t0) = s0 :: srest).
  { destruct k as [| k]; [exact Hshape |].
    cbn [nth].
    rewrite forallb_forall in Hall.
    apply shape_eqb_eq, Hall, nth_In.
    simpl in Hk; lia. }
  rewrite Hsk; constructor; assumption.
Qed.

(** X24.  The samples of a batch do not influence one another.  If two
    batches of one shape hold the same image in sample [b], then the phase,
    orientation and phase-asymmetry maps of sample [b] are the same for
    both, and so is sample [b] of whatever [forward] returns: the transforms
    run over the last two dimensions, the sum over dimension 1, and the
    min-max normalisation takes its extrema per sample. *)
Theorem samples_processed_independently :
  forall self x x' n c h w d b,
    well_formed self ->
    shape x = [n; c; h; w] -> shape x' = [n; c; h; w] ->
    (1 <= h)%nat -> (1 <= w)%nat ->
    bdim c (scales self) = Some d -> (b < n)%nat ->
    (forall e i j, (e < c)%nat -> (i < h)%nat -> (j < w)%nat ->
       item x [b; e; i; j] = item x' [b; e; i; j]) ->
    exists pa ori ft pa' ori' ft',
      forward self x = stack (selected self x ft ori pa) 1
      /\ forward self x' = stack (selected self x' ft' ori' pa') 1
      /\ (shape pa = [n; h; w] /\ shape ori = [n; h; w]
          /\ shape ft = [n; h; w])
      /\ sample_eq b pa pa' /\ sample_eq b ori ori' /\ sample_eq b ft ft'
      /\ forall out out',
           forward self x = Ok out -> forward self x' = Ok out' ->
           sample_eq b out out'.
Proof.
  intros self x x' n c h w d b Hwf Hx Hx' Hh Hw Hd Hb Hrel.
  destruct (monogenic_sample self x x' n c h w d b Hwf Hx Hx' Hh Hw Hd Hb
              Hrel) as (r & r' & Hr & Hr' & Rrel).
  destruct (monogenic_ok self x n c h w d Hwf Hx Hh Hw Hd)
    as (r0 & Hr0 & R1 & R2 & R3 & R4 & R5 & R6 & _).
  rewrite Hr in Hr0; injection Hr0 as <-.
  destruct (monogenic_ok self x' n c h w d Hwf Hx' Hh Hw Hd)
    as (r0 & Hr0 & R1' & R2' & R3' & R4' & R5' & R6' & _).
  rewrite Hr' in Hr0; injection Hr0 as <-.
  destruct (sum_scales_ok r n d h w R1 R2 R3 R4 R5 R6)
    as (s & Hs & (S1 & S2 & S3 & S4 & S5 & S6) & Is).
  destruct (sum_scales_ok r' n d h w R1' R2' R3' R4' R5' R6')
    as (s' & Hs' & (S1' & S2' & S3' & S4' & S5' & S6') & Is').
  assert (Srel : forall i j, (i < h)%nat -> (j < w)%nat ->
             item (r_f s) [b; i; j] = item (r_f s') [b; i; j]
             /\ item (r_h1 s) [b; i; j] = item (r_h1 s') [b; i; j]
             /\ item (r_h2 s) [b; i; j] = item (r_h2 s') [b; i; j]
             /\ item (r_An s) [b; i; j] = item (r_An s') [b; i; j]
             /\ item (r_symmetry_energy s) [b; i; j]
                = item (r_symmetry_energy s') [b; i; j]).
  { intros i j Hi Hj.
    destruct (Is b i j) as (E1 & E2 & E3 & _ & E5 & E6).
    destruct (Is' b i j) as (E1' & E2' & E3' & _ & E5' & E6').
    rewrite E1, E2, E3, E5, E6, E1', E2', E3', E5', E6'.
    repeat split; apply fsum_upto_ext; intros k Hk;
      now apply Rrel. }
  destruct (phase_asym_of_ok self s n h w S6 S5) as (pa & Hpa & Spa & Ipa).
  destruct (phase_asym_of_ok self s' n h w S6' S5')
    as (pa' & Hpa' & Spa' & Ipa').
  destruct (orientation_of_value s n h w S2 S3 Hh Hw)
    as (O & ori & SO & IO & HO & Sori & Hori).
  destruct (orientation_of_value s' n h w S2' S3' Hh Hw)
    as (O' & ori' & SO' & IO' & HO' & Sori' & Hori').
  destruct (phase_of_value s n h w S1 S2 S3 Hh Hw)
    as (P & ft & SP & IP & HP & Sft & Hft).
  destruct (phase_of_value s' n h w S1' S2' S3' Hh Hw)
    as (P' & ft' & SP' & IP' & HP' & Sft' & Hft').
  assert (Epa : sample_eq b pa pa').
  { apply (sample_eq_3 pa pa' n h w b Spa Spa').
    intros i j Hi Hj.
    rewrite Ipa, Ipa' by auto with shapes.
    destruct (Srel i j Hi Hj) as (_ & _ & _ & -> & ->); reflexivity. }
  assert (Eori : sample_eq b ori ori').
  { apply (sample_eq_3 ori ori' n h w b Sori Sori').
    apply (scale_max_min_sample O O' ori ori' n h w b); try assumption.
    intros i j Hi Hj.
    rewrite IO, IO' by assumption.
    destruct (Srel i j Hi Hj) as (_ & -> & -> & _); reflexivity. }
  assert (Eft : sample_eq b ft ft').
  { apply (sample_eq_3 ft ft' n h w b Sft Sft').
    apply (scale_max_min_sample P P' ft ft' n h w b); try assumption.
    intros i j Hi Hj.
    rewrite IP, IP' by assumption.
    destruct (Srel i j Hi Hj) as (-> & -> & -> & _); reflexivity. }
  assert (Ex : sample_eq b x x') by now apply (sample_eq_4 x x' n c h w b).
  assert (Hf : forward self x = stack (selected self x ft ori pa) 1).
  { unfold forward; rewrite Hr; cbn [bind].
    rewrite Hs; cbn [bind]; rewrite Hpa; cbn [bind].
    rewrite Hori; cbn [bind]; rewrite Hft; reflexivity. }
  assert (Hf' : forward self x' = stack (selected self x' ft' ori' pa') 1).
  { unfold forward; rewrite Hr'; cbn [bind].
    rewrite Hs'; cbn [bind]; rewrite Hpa'; cbn [bind].
    rewrite Hori'; cbn [bind]; rewrite Hft'; reflexivity. }
  exists pa, ori, ft, pa', ori', ft'.
  split; [exact Hf |]; split; [exact Hf' |].
  split; [repeat split; assumption |].
  repeat (split; [assumption |]).
  intros out out' Hout Hout'.
  rewrite Hf in Hout; rewrite Hf' in Hout'.
  apply (stack_sample (selected self x ft ori pa)
           (selected self x' ft' ori' pa') out out' b); try assumption.
  unfold selected.
  destruct (return_input self), (return_phase self), (return_ori self),
    (return_phase_asym self); cbn [app];
    repeat (apply Forall2_cons; [assumption |]); apply Forall2_nil.
Qed.

Lemma samples_processed_independently_witness :
  exists out out',
    forward one_scale_layer (full [2; 1; 2; 2]%nat (Fin 1)) = Ok out
    /\ forward one_scale_layer
         (mkT [2; 1; 2; 2]%nat
            (fun idx => if (nth 0 idx 0 =? 0)%nat then Fin 1 else Fin 5))
       = Ok out'
    /\ item out [0; 0; 1; 1]%nat = item out' [0; 0; 1; 1]%nat.
Proof.
  destruct (samples_processed_independently one_scale_layer
              (full [2; 1; 2; 2]%nat (Fin 1))
              (mkT [2; 1; 2; 2]%nat
                 (fun idx => if (nth 0 idx 0 =? 0)%nat then Fin 1 else Fin 5))
              2 1 2 2 1 0)
    as (pa & ori & ft & pa' & ori' & ft' & Hf & Hf' & (_ & _ & Sft)
        & _ & _ & (Sft' & _) & Hout).
  - now apply layer_of_wf.
  - reflexivity.
  - reflexivity.
  - lia.
  - lia.
  - reflexivity.
  - lia.
  - intros e i j _ _ _; reflexivity.
  - change (selected one_scale_layer (full [2; 1; 2; 2]%nat (Fin 1))
              ft ori pa) with [ft] in Hf.
    change (selected one_scale_layer
              (mkT [2; 1; 2; 2]%nat
                 (fun idx => if (nth 0 idx 0 =? 0)%nat then Fin 1 else Fin 5))
              ft' ori' pa') with [ft'] in Hf'.
    destruct (stack_ok [ft] [2; 2; 2]%nat 1 ft ltac:(discriminate))
      as (out & Ho & So & _);
      [intros t [<- | []]; assumption | simpl; lia |].
    destruct (stack_ok [ft'] [2; 2; 2]%nat 1 ft' ltac:(discriminate))
      as (out' & Ho' & So' & _);
      [intros t [<- | []]; congruence | simpl; lia |].
    rewrite <- Hf in Ho; rewrite <- Hf' in Ho'.
    exists out, out'; split; [assumption |]; split; [assumption |].
    destruct (Hout out out' Ho Ho') as [_ Hitem].
    apply Hitem; rewrite So.
    repeat constructor.
Defined.

(** ** The log-Gabor mask at radius zero *)



(** ** The raw input among the outputs *)

Lemma shape_eqb_rank (a b : list nat) :
  length a <> length b -> shape_eqb a b = false.
Proof.
  intros Hne; unfold shape_eqb.
  destruct (list_eq_dec Nat.eq_dec a b) as [-> |]; [congruence | reflexivity].
Qed.

(** X25.  Selecting the raw input together with any feature map makes
    [forward] fail on every input it would otherwise accept: the input is
    four-dimensional, the maps are three-dimensional, and [torch.stack]
    raises [RuntimeError] on the mixed list. *)
Theorem forward_input_with_features_raises :
  forall self x n c h w d,
    well_formed self ->
    shape x = [n; c; h; w] -> (1 <= h)%nat -> (1 <= w)%nat ->
    bdim c (scales self) = Some d ->
    return_input self = true ->
    return_phase self = true \/ return_ori self = true
    \/ return_phase_asym self = true ->
    forward self x = Raise RuntimeError.
Proof.
  intros self x n c h w d Hwf Hx Hh Hw Hd Hinp Hsel.
  destruct (forward_stages self x n c h w d Hwf Hx Hh Hw Hd)
    as (pa & ori & ft & Spa & Sori & Sft & ->).
  assert (Hmix : forall t : tensor float, shape t = [n; h; w] ->
             shape_eqb (shape t) (shape x) = false)
    by (intros t St; apply shape_eqb_rank; rewrite St, Hx; simpl; lia).
  unfold selected, stack; rewrite Hinp; cbn [app].
  destruct (return_phase self), (return_ori self), (return_phase_asym self);
    cbn [app forallb];
    rewrite ?(Hmix ft Sft), ?(Hmix ori Sori), ?(Hmix pa Spa);
    try reflexivity.
  destruct Hsel as [? | [? | ?]]; discriminate.
Qed.

Lemma forward_input_with_features_raises_witness :
  forward (layer_of [10%Q] 0.55 false true false true)
    (full [2; 1; 3; 3]%nat (Fin 1)) = Raise RuntimeError.
Proof.
  apply (forward_input_with_features_raises
           (layer_of [10%Q] 0.55 false true false true)
           (full [2; 1; 3; 3]%nat (Fin 1)) 2 1 3 3 1).
  - now apply layer_of_wf.
  - reflexivity.
  - lia.
  - lia.
  - reflexivity.
  - reflexivity.
  - right; right; reflexivity.
Defined.
